(** * toygarble: boolean circuits, their builder, validator, evaluator,
    bit codec and [int64] conversions

    A shallow embedding of [circuit.go].  Go's [int] is taken to be the
    64-bit two's-complement integer; slices are lists, indexed by [Z], and
    every slice access that Go bounds-checks is bounds-checked here and ends
    in [Panic] when it is out of range.  Diagnostic printing ([fmt.Printf],
    [os.Stderr.WriteString]) is not part of the model. *)

From Stdlib Require Import ZArith Lia Bool List.
From stdpp Require Import base tactics option list relations.

Local Open Scope Z_scope.

(** ** Machine integers *)

Module Int.

Definition modulus : Z := 2 ^ 64.
Definition half : Z := 2 ^ 63.

(** Two's-complement reduction of a mathematical integer to [int]. *)
Definition wrap (z : Z) : Z := (z + half) mod modulus - half.

Definition in_range (z : Z) : Prop := - half <= z < half.

Definition add (a b : Z) : Z := wrap (a + b).
Definition sub (a b : Z) : Z := wrap (a - b).
Definition mul (a b : Z) : Z := wrap (a * b).

End Int.

(** [len(s)] of a slice. *)
Definition len {A : Type} (l : list A) : Z := Z.of_nat (length l).

(** ** Outcomes of running Go code *)

(** The slices the program indexes; a panic records which one was hit. *)
Inductive slice_id : Type :=
| SGates | SInFrom | SVisited | SCalculated | SValues | SInputs | SResult
| SMinInputWires | SMaxInputWires | SNumWiresIV | SNumWiresOV
| SInputBuf | SOutWires | SBytes.

Inductive fault : Type :=
| IndexOutOfRange (s : slice_id) (i : Z)
| SliceBoundsOutOfRange (s : slice_id) (lo hi : Z)
| MakeSliceLenOutOfRange (n : Z).

Inductive outcome (A : Type) : Type :=
| Done (a : A)
| Panic (f : fault)
| OutOfFuel.

Arguments Done {A} a.
Arguments Panic {A} f.
Arguments OutOfFuel {A}.

#[global] Instance outcome_ret : MRet outcome := fun A a => Done a.
#[global] Instance outcome_bind : MBind outcome := fun A B k m =>
  match m with
  | Done a => k a
  | Panic f => Panic f
  | OutOfFuel => OutOfFuel
  end.

(** [s[i]] for reading. *)
Definition index {A : Type} (s : slice_id) (l : list A) (i : Z) : outcome A :=
  if decide (0 <= i) then
    match l !! Z.to_nat i with
    | Some x => Done x
    | None => Panic (IndexOutOfRange s i)
    end
  else Panic (IndexOutOfRange s i).

(** [s[i] = x]. *)
Definition store {A : Type} (s : slice_id) (l : list A) (i : Z) (x : A)
  : outcome (list A) :=
  if decide (0 <= i < len l) then Done (<[Z.to_nat i := x]> l)
  else Panic (IndexOutOfRange s i).

(** [make([]T, n)] with the element type's zero value. *)
Definition make {A : Type} (zero : A) (n : Z) : outcome (list A) :=
  if decide (0 <= n) then Done (replicate (Z.to_nat n) zero)
  else Panic (MakeSliceLenOutOfRange n).

(** State-passing computations that may panic. *)
Definition M (S A : Type) : Type := S -> outcome (A * S).

#[global] Instance M_ret {S} : MRet (M S) := fun A a s => Done (a, s).
#[global] Instance M_bind {S} : MBind (M S) := fun A B k m s =>
  match m s with
  | Done (a, s') => k a s'
  | Panic f => Panic f
  | OutOfFuel => OutOfFuel
  end.

Definition get {S} : M S S := fun s => Done (s, s).
Definition put {S} (s : S) : M S unit := fun _ => Done (tt, s).
Definition lift {S A} (o : outcome A) : M S A := fun s =>
  match o with
  | Done a => Done (a, s)
  | Panic f => Panic f
  | OutOfFuel => OutOfFuel
  end.

(** ** Gate kinds and the arity tables *)

Definition GateType_t : Type := Z.

Definition MAX_INPUT_DEGREE : Z := 2.

Definition GateINPUT : GateType_t := 0.
Definition GateOUTPUT : GateType_t := 1.
Definition GateAND : GateType_t := 2.
Definition GateOR : GateType_t := 3.
Definition GateNOT : GateType_t := 4.
Definition GateXOR : GateType_t := 5.
Definition GateCONST : GateType_t := 6.
Definition GateCOPY : GateType_t := 7.

Definition min_input_wires : list Z := [0; 0; 2; 2; 1; 2; 0; 1].
Definition max_input_wires : list Z := [0; 1; 2; 2; 1; 2; 0; 1].

(** The arity table as section 6 of the specification prints it: kind,
    minimum fan-in, maximum fan-in. *)
Definition spec_arity_table : list (GateType_t * Z * Z) :=
  [ (GateINPUT, 0, 0); (GateOUTPUT, 0, 1); (GateAND, 2, 2); (GateOR, 2, 2);
    (GateNOT, 1, 1); (GateXOR, 2, 2); (GateCONST, 0, 0); (GateCOPY, 1, 1) ].

(** The eight gate kinds. *)
Definition known_kind (t : GateType_t) : Prop :=
  t ∈ [GateINPUT; GateOUTPUT; GateAND; GateOR; GateNOT; GateXOR; GateCONST;
       GateCOPY].

(** ** Circuits *)

Record Gate : Type := mkGate {
  GateType : GateType_t;
  ConstVal : bool;
  InFrom : list Z
}.

Record Circuit : Type := mkCircuit {
  NumInputWires : Z;
  NumOutputWires : Z;
  NumInputVars : Z;
  NumWiresIV : list Z;
  NumOutputVars : Z;
  NumWiresOV : list Z;
  Gates : list Gate
}.

(** A gate whose fan-in is outside the range the table gives its kind. *)
Definition bad_arity (g : Gate) : Prop :=
  exists lo hi, (GateType g, lo, hi) ∈ spec_arity_table /\
                (len (InFrom g) < lo \/ hi < len (InFrom g)).

Definition set_Gates (gs : list Gate) (c : Circuit) : Circuit :=
  mkCircuit (NumInputWires c) (NumOutputWires c) (NumInputVars c)
            (NumWiresIV c) (NumOutputVars c) (NumWiresOV c) gs.

Definition set_InFrom (l : list Z) (g : Gate) : Gate :=
  mkGate (GateType g) (ConstVal g) l.

(** The zero value of [Circuit], the receiver [initializeCircuit] fills in. *)
Definition emptyCircuit : Circuit := mkCircuit 0 0 0 [] 0 [] [].

Definition getInputGate (circ : Circuit) (inputWireNo : Z) : Z := inputWireNo.

Definition getOutputGate (circ : Circuit) (outputWireNo : Z) : Z :=
  Int.add (NumInputWires circ) outputWireNo.

(** ** Builder *)

(** The arity test shared by [addGate] and [validCircuit]:
    [n < min_input_wires[t] || n > max_input_wires[t]], with Go's
    short-circuit evaluation. *)
Definition arity_violated (t : GateType_t) (n : Z) : outcome bool :=
  lo ← index SMinInputWires min_input_wires t;
  if n <? lo then mret true
  else hi ← index SMaxInputWires max_input_wires t; mret (hi <? n).

Definition addGate (gateType : GateType_t) (constVal : bool) (inFrom : list Z)
  : M Circuit Z :=
  circ ← get;
  bad ← lift (arity_violated gateType (len inFrom));
  if (bad : bool) then mret (-1)
  else
    let newGate := mkGate gateType constVal inFrom in
    let circ' := set_Gates (Gates circ ++ [newGate]) circ in
    put circ';;
    mret (len (Gates circ') - 1).

Definition addGate2 (gateType : GateType_t) (inFrom1 inFrom2 : Z) : M Circuit Z :=
  addGate gateType false [inFrom1; inFrom2].

(** [for i := 0; i < n; i++ { body }] where the body does not read [i]. *)
Fixpoint repeatM {S} (n : nat) (body : M S unit) : M S unit :=
  match n with
  | O => mret tt
  | S n' => body;; repeatM n' body
  end.

Definition initializeCircuit (numInputWires numOutputWires numInputVars
    numOutputVars : Z) (numWiresPerIV numWiresPerOV : list Z) : M Circuit unit :=
  circ ← get;
  put (mkCircuit numInputWires numOutputWires numInputVars numWiresPerIV
                 numOutputVars numWiresPerOV (Gates circ));;
  repeatM (Z.to_nat numInputWires) (addGate GateINPUT false [];; mret tt);;
  repeatM (Z.to_nat numOutputWires) (addGate GateOUTPUT false [];; mret tt).

Definition connectOutputWire (gateNum outputNum : Z) : M Circuit bool :=
  circ ← get;
  slot ← lift (index SGates (Gates circ) (getOutputGate circ outputNum));
  if decide (len (InFrom slot) = 0) then
    let slot' := set_InFrom (InFrom slot ++ [gateNum]) slot in
    gs ← lift (store SGates (Gates circ) (getOutputGate circ outputNum) slot');
    put (set_Gates gs circ);;
    mret true
  else mret false.

(** ** Structural validator *)

(** The scan [for i := 0; i < len(circ.Gates); i++] reads [circ.Gates[i]]
    for every index in turn: a traversal of the gate list, stopping at the
    first gate whose arity test fails. *)
Fixpoint validGates (gs : list Gate) : outcome bool :=
  match gs with
  | [] => mret true
  | g :: rest =>
      bad ← arity_violated (GateType g) (len (InFrom g));
      if (bad : bool) then mret false else validGates rest
  end.

Definition validCircuit : M Circuit bool :=
  circ ← get;
  if len (Gates circ) <? Int.add (NumInputWires circ) (NumOutputWires circ)
  then mret false
  else lift (validGates (Gates circ)).

(** ** Evaluator *)

(** The three scratch slices [EvaluateCircuit] allocates and
    [evaluateGate] updates through pointers. *)
Record Scratch : Type := mkScratch {
  visited : list bool;
  calculated : list bool;
  values : list bool
}.

Definition rd_visited (i : Z) : M Scratch bool :=
  st ← get; lift (index SVisited (visited st) i).
Definition rd_calculated (i : Z) : M Scratch bool :=
  st ← get; lift (index SCalculated (calculated st) i).
Definition rd_values (i : Z) : M Scratch bool :=
  st ← get; lift (index SValues (values st) i).

Definition wr_visited (i : Z) (b : bool) : M Scratch unit :=
  st ← get; l ← lift (store SVisited (visited st) i b);
  put (mkScratch l (calculated st) (values st)).
Definition wr_calculated (i : Z) (b : bool) : M Scratch unit :=
  st ← get; l ← lift (store SCalculated (calculated st) i b);
  put (mkScratch (visited st) l (values st)).
Definition wr_values (i : Z) (b : bool) : M Scratch unit :=
  st ← get; l ← lift (store SValues (values st) i b);
  put (mkScratch (visited st) (calculated st) l).

(** The [switch] of [evaluateGate]: from the gate, the input bits and the
    results of the recursive calls to [(success, result)].  [result] starts
    as [false] and [success] as [true]. *)
Definition gateSwitch (g : Gate) (gateID : Z) (inputs : list bool)
    (success1 result1 success2 result2 : bool) : outcome (bool * bool) :=
  let t := GateType g in
  let n := len (InFrom g) in
  if decide (t = GateINPUT) then
    r ← index SInputs inputs gateID; mret (true, r)
  else if decide (t = GateOUTPUT) then
    if decide (n = 1) then mret (success1, result1) else mret (false, false)
  else if decide (t = GateCOPY) then
    if decide (n = 1) then mret (success1, result1) else mret (false, false)
  else if decide (t = GateAND) then
    if decide (n = 2) then
      if success1 && success2 then mret (true, result1 && result2)
      else mret (false, false)
    else mret (false, false)
  else if decide (t = GateXOR) then
    if decide (n = 2) then
      if success1 && success2 then mret (true, xorb result1 result2)
      else mret (false, false)
    else mret (false, false)
  else if decide (t = GateCONST) then
    if decide (n = 0) then mret (true, ConstVal g) else mret (true, false)
  else if decide (t = GateOR) then
    if decide (n = 2) then
      if success1 && success2 then mret (true, result1 || result2)
      else mret (false, false)
    else mret (false, false)
  else if decide (t = GateNOT) then
    if decide (n = 1) then
      if success1 then mret (true, negb result1) else mret (false, false)
    else mret (false, false)
  else mret (false, false).

(** [evaluateGate] is recursive in Go; [fuel] bounds the recursion depth
    here.  [evaluateGate_fuel] below shows that the fuel [EvaluateCircuit]
    supplies is never exhausted. *)
Fixpoint evaluateGate (fuel : nat) (circ : Circuit) (inputs : list bool)
    (gateID : Z) : M Scratch (bool * bool) :=
  match fuel with
  | O => fun _ => OutOfFuel
  | S fuel' =>
      v ← rd_visited gateID;
      loop ← (if (v : bool) then c ← rd_calculated gateID; mret (negb c)
              else mret false);
      if (loop : bool) then mret (false, false)
      else
        c ← rd_calculated gateID;
        if (c : bool) then r ← rd_values gateID; mret (true, r)
        else
          wr_visited gateID true;;
          g ← lift (index SGates (Gates circ) gateID);
          '(success1, result1, success2, result2) ←
            (if decide (GateType g ≠ GateINPUT) then
               p0 ← lift (index SInFrom (InFrom g) 0);
               '(s1, r1) ← evaluateGate fuel' circ inputs p0;
               if decide (len (InFrom g) = 2) then
                 p1 ← lift (index SInFrom (InFrom g) 1);
                 '(s2, r2) ← evaluateGate fuel' circ inputs p1;
                 mret (s1, r1, s2, r2)
               else mret (s1, r1, false, false)
             else mret (false, false, false, false));
          '(success, result) ←
            lift (gateSwitch g gateID inputs success1 result1 success2 result2);
          (if (success : bool) then
             wr_calculated gateID true;; wr_values gateID result
           else mret tt);;
          mret (success, result)
  end.

(** The body of [for i := 0; i < circ.NumOutputWires; i++], over the
    remaining values of [i]. *)
Fixpoint evaluateOutputs (circ : Circuit) (inputBits : list bool)
    (outs : list Z) (st : Scratch) (result : list bool)
  : outcome (bool * option (list bool)) :=
  match outs with
  | [] => Done (true, Some result)
  | i :: rest =>
      let st1 := mkScratch (replicate (length (visited st)) false)
                           (calculated st) (values st) in
      '(success, resultBit, st2) ←
        evaluateGate (S (length (Gates circ))) circ inputBits
                     (getOutputGate circ i) st1;
      result' ← store SResult result i resultBit;
      if (success : bool) then evaluateOutputs circ inputBits rest st2 result'
      else Done (false, None)
  end.

(** Returns the success flag and the output bits ([None] is Go's [nil]). *)
Definition EvaluateCircuit (circ : Circuit) (inputBits : list bool)
  : outcome (bool * option (list bool)) :=
  if decide (len inputBits ≠ NumInputWires circ ∨ NumOutputWires circ < 1) then
    Done (false, None)
  else
    let n := length (Gates circ) in
    let st := mkScratch (replicate n false) (replicate n false)
                        (replicate n false) in
    result ← make false (NumOutputWires circ);
    evaluateOutputs circ inputBits (seqZ 0 (NumOutputWires circ)) st result.

(** ** Bit codec *)

(** A [byte] is an integer in [0, 256); arithmetic on it is modulo 256. *)
Definition byte_ok (b : Z) : Prop := 0 <= b < 256.

(** [int(buf[len(buf) - j/8 - 1]) & (1 << (j % 8)) != 0].  Go's [/] and [%]
    truncate towards zero: [Z.quot] and [Z.rem]. *)
Definition bufBit (buf : list Z) (j : Z) : outcome bool :=
  b ← index SInputBuf buf (len buf - Z.quot j 8 - 1);
  mret (negb (Z.land b (Z.shiftl 1 (Z.rem j 8)) =? 0)).

(** The inner loop [for j := 0; j < circ.NumWiresIV[i]; j++], over the
    remaining values of [j]; returns [result] and [currentLoc]. *)
Fixpoint padBits (buf : list Z) (js : list Z) (result : list bool)
    (currentLoc : Z) : outcome (list bool * Z) :=
  match js with
  | [] => Done (result, currentLoc)
  | j :: rest =>
      bit ← (if Z.quot j 8 <? len buf then bufBit buf j else mret false);
      result' ← store SResult result currentLoc bit;
      padBits buf rest result' (Int.add currentLoc 1)
  end.

(** The outer loop [for i := 0; i < len(inputBufs); i++], over the
    remaining buffers, [i] being the index of the first of them. *)
Fixpoint padBufs (circ : Circuit) (bufs : list (list Z)) (i : Z)
    (result : list bool) (currentLoc : Z) : outcome (option (list bool)) :=
  match bufs with
  | [] => Done (Some result)
  | buf :: rest =>
      w ← index SNumWiresIV (NumWiresIV circ) i;
      if w <? Int.mul (len buf) 8 then Done None
      else
        '(result', loc') ← padBits buf (seqZ 0 w) result currentLoc;
        padBufs circ rest (i + 1) result' loc'
  end.

(** Returns the wire values, or [None] for Go's [nil]. *)
Definition PadInputsToBoolArray (circ : Circuit) (inputBufs : list (list Z))
  : outcome (option (list bool)) :=
  result ← make false (NumInputWires circ);
  if NumInputVars circ <? len inputBufs then Done None
  else padBufs circ inputBufs 0 result 0.

(** The loop of [boolArrayToBytes] over the remaining bits, [i] being the
    index of the first of them. *)
Fixpoint setBits (input : list bool) (i : Z) (result : list Z)
  : outcome (list Z) :=
  match input with
  | [] => Done result
  | b :: rest =>
      result' ←
        (if (b : bool) then
           let k := len result - Z.quot i 8 - 1 in
           old ← index SBytes result k;
           store SBytes result k ((old + Z.shiftl 1 (Z.rem i 8)) mod 256)
         else mret result);
      setBits rest (i + 1) result'
  end.

Definition boolArrayToBytes (input : list bool) : outcome (list Z) :=
  result ← make 0 (Z.quot (Int.add (len input) 7) 8);
  setBits input 0 result.

(** [s[lo:hi]].  Go checks [hi] against the capacity of [s]; a slice is
    taken here to have no spare capacity, so the bound is its length.  On a
    slice with spare capacity Go accepts [hi] up to the capacity. *)
Definition subslice {A : Type} (s : slice_id) (l : list A) (lo hi : Z)
  : outcome (list A) :=
  if decide (0 <= lo <= hi /\ hi <= len l) then
    Done (take (Z.to_nat (hi - lo)) (drop (Z.to_nat lo) l))
  else Panic (SliceBoundsOutOfRange s lo hi).

(** The loop [for i := 0; i < circ.NumOutputVars; i++], over the remaining
    values of [i]. *)
Fixpoint decodeVars (circ : Circuit) (outWires : list bool) (vars : list Z)
    (result : list (list Z)) (currentWire : Z) : outcome (list (list Z)) :=
  match vars with
  | [] => Done result
  | i :: rest =>
      w ← index SNumWiresOV (NumWiresOV circ) i;
      boolSlice ← subslice SOutWires outWires currentWire (Int.add currentWire w);
      bytes ← boolArrayToBytes boolSlice;
      result' ← store SResult result i bytes;
      decodeVars circ outWires rest result' (Int.add currentWire w)
  end.

Definition DecodeOutputVariables (circ : Circuit) (outWires : list bool)
  : outcome (option (list (list Z))) :=
  if decide (NumOutputWires circ ≠ len outWires) then Done None
  else
    result ← make [] (NumOutputVars circ);
    r ← decodeVars circ outWires (seqZ 0 (NumOutputVars circ)) result 0;
    mret (Some r).

(** ** Circuits used below, built with the builder *)

(** Runs a builder program on a fresh circuit and returns the circuit. *)
Definition build {A} (prog : M Circuit A) : outcome Circuit :=
  '(_, circ) ← prog emptyCircuit; mret circ.

(** One input wire, one output wire left unwired. *)
Definition unwiredCircuit : outcome Circuit :=
  build (initializeCircuit 1 1 1 1 [1] [1]).

Definition unwired : Circuit :=
  Eval vm_compute in
    match unwiredCircuit with Done c => c | _ => emptyCircuit end.

(** One input wire, and one output wire fed by a [Const] gate. *)
Definition constCircuit (v : bool) : outcome Circuit :=
  build (initializeCircuit 1 1 1 1 [1] [1];;
         g ← addGate GateCONST v [];
         connectOutputWire g 0).

Definition constTrue : Circuit :=
  Eval vm_compute in
    match constCircuit true with Done c => c | _ => emptyCircuit end.

(** One input wire, but an input variable declared eight wires wide. *)
Definition wideVarCircuit : outcome Circuit :=
  build (initializeCircuit 1 1 1 1 [8] [1]).

Definition wideVar : Circuit :=
  Eval vm_compute in
    match wideVarCircuit with Done c => c | _ => emptyCircuit end.

(** The output wire copies the input wire; a [Not] gate that lists itself
    as its predecessor (gate 3) is wired to nothing. *)
Definition detachedLoopCircuit : outcome Circuit :=
  build (initializeCircuit 1 1 1 1 [1] [1];;
         g ← addGate GateCOPY false [0];
         connectOutputWire g 0;;
         addGate GateNOT false [3]).

Definition detachedLoop : Circuit :=
  Eval vm_compute in
    match detachedLoopCircuit with Done c => c | _ => emptyCircuit end.

(** The output wire is fed by a [Not] gate that lists itself as its
    predecessor (gate 2). *)
Definition loopCircuit : outcome Circuit :=
  build (initializeCircuit 1 1 1 1 [1] [1];;
         g ← addGate GateNOT false [2];
         connectOutputWire g 0).

Definition loop : Circuit :=
  Eval vm_compute in
    match loopCircuit with Done c => c | _ => emptyCircuit end.

(** The output wire is fed by an [And] gate (gate 4) whose predecessors are
    a [Not] gate that lists itself (gate 2) and a [Const] gate (gate 3). *)
Definition loopConstCircuit : outcome Circuit :=
  build (initializeCircuit 1 1 1 1 [1] [1];;
         n ← addGate GateNOT false [2];
         c ← addGate GateCONST true [];
         a ← addGate2 GateAND n c;
         connectOutputWire a 0).

Definition loopConst : Circuit :=
  Eval vm_compute in
    match loopConstCircuit with Done c => c | _ => emptyCircuit end.

(** [for k := 0; k < n; k++ { g := addGate(COPY, false, {k});
    connectOutputWire(g, k) }], over the remaining values of [k]. *)
Fixpoint wireCopies (ks : list Z) : M Circuit unit :=
  match ks with
  | [] => mret tt
  | k :: rest =>
      g ← addGate GateCOPY false [k];
      connectOutputWire g k;;
      wireCopies rest
  end.

(** The identity circuit on [n] wires, one input and one output variable. *)
Definition identityCircuit (n : Z) : outcome Circuit :=
  build (initializeCircuit n n 1 1 [n] [n];; wireCopies (seqZ 0 n)).

(** ** Notions used in the statements *)

(** [edge circ g p]: gate [g] is not an [Input] gate and lists [p] among its
    predecessors. *)
Definition edge (circ : Circuit) (g p : Z) : Prop :=
  exists gate, 0 <= g /\ Gates circ !! Z.to_nat g = Some gate /\
               GateType gate <> GateINPUT /\ p ∈ InFrom gate.

(** A gate is grounded when every chain of predecessor references that
    starts from it ends: no cycle can be reached from it. *)
Inductive Grounded (circ : Circuit) : Z -> Prop :=
| Grounded_intro g :
    (forall p, edge circ g p -> Grounded circ p) -> Grounded circ g.

(** Number of gates not yet marked in [visited]. *)
Definition unvisited (l : list bool) : nat := length (filter (fun b => b = false) l).

(** [l'] has every mark of [l]. *)
Definition marks_kept (l l' : list bool) : Prop :=
  Forall2 (fun a b => a = true -> b = true) l l'.

(** What a run establishes: [Q] on the result and final state when it
    returns; [pan] says whether a panic is acceptable; fuel never runs
    out. *)
Definition wp {S A} (pan : Prop) (m : M S A) (s : S) (Q : A -> S -> Prop) : Prop :=
  match m s with
  | Done (a, s') => Q a s'
  | Panic _ => pan
  | OutOfFuel => False
  end.

Definition wpo {A} (pan : Prop) (o : outcome A) (Q : A -> Prop) : Prop :=
  match o with
  | Done a => Q a
  | Panic _ => pan
  | OutOfFuel => False
  end.

(** What remains of [evaluateGate] once the predecessors are evaluated:
    the [switch], then the memoisation of a successful result. *)
Definition eval_finish (pan : Prop) (gate : Gate) (g : Z) (inputs : list bool)
    (Q : bool * bool -> Scratch -> Prop) (s1 r1 s2 r2 : bool) (st' : Scratch)
  : Prop :=
  wpo pan (gateSwitch gate g inputs s1 r1 s2 r2) (fun '(success, result) =>
    if (success : bool) then
      (pan \/ (0 <= g < len (calculated st') /\ 0 <= g < len (values st'))) /\
      Q (true, result)
        (mkScratch (visited st') (<[Z.to_nat g := true]> (calculated st'))
                   (<[Z.to_nat g := result]> (values st')))
    else Q (false, result) st').

(** Every memoised gate is grounded. *)
Definition memo_grounded (circ : Circuit) (st : Scratch) : Prop :=
  forall h, 0 <= h -> calculated st !! Z.to_nat h = Some true -> Grounded circ h.

(** No [Const] gate lists a predecessor. *)
Definition const_leaves (circ : Circuit) : Prop :=
  forall gate, gate ∈ Gates circ -> GateType gate = GateCONST -> InFrom gate = [].

(** Gate [g] can be entered without an index going out of range: it
    exists, and it is an [Input] gate of one of the input wires or it lists
    at least one predecessor. *)
Definition wired (circ : Circuit) (g : Z) : Prop :=
  exists gate, 0 <= g /\ Gates circ !! Z.to_nat g = Some gate /\
    if decide (GateType gate = GateINPUT) then g < NumInputWires circ
    else InFrom gate <> [].

(** Wire [j] of an input variable packed from [buf], in the specification's
    words: bit [j mod 8] of the byte [j/8] places before the last one of
    the buffer, and false past the buffer. *)
Definition spec_bit (buf : list Z) (j : Z) : bool :=
  if decide (j / 8 < len buf) then
    match buf !! Z.to_nat (len buf - 1 - j / 8) with
    | Some b => Z.testbit b (j mod 8)
    | None => false
    end
  else false.

(** The [w] wires of one input variable. *)
Definition spec_var_bits (buf : list Z) (w : Z) : list bool :=
  spec_bit buf <$> seqZ 0 w.

(** The packed vector: the variables' wires one after the other, in
    variable order, and false on the wires that remain. *)
Definition spec_pack (wires : list Z) (bufs : list (list Z)) (total : Z)
  : list bool :=
  let used := concat (zip_with spec_var_bits bufs wires) in
  used ++ replicate (Z.to_nat total - length used) false.

(** Every buffer fits the wires of its variable. *)
Definition spec_fits (wires : list Z) (bufs : list (list Z)) : Prop :=
  forall i buf w, bufs !! i = Some buf -> wires !! i = Some w ->
                  8 * len buf <= w.

Definition sumZ (l : list Z) : Z := foldr Z.add 0 l.

Definition eightWire : Circuit :=
  Eval vm_compute in
    match build (initializeCircuit 8 1 1 1 [8] [1]) with
    | Done c => c
    | _ => emptyCircuit
    end.

(** [buf] with zero bytes in front, [m] bytes in all. *)
Definition zero_extend (m : Z) (buf : list Z) : list Z :=
  replicate (Z.to_nat (m - len buf)) 0 ++ buf.

(** The bytes [boolArrayToBytes] holds after the first [i] bits of the
    wires packed from [bytes]: of the byte [q] places before the last, the
    low [i - 8q] bits (at least none, at most eight). *)
Definition low_bits (bytes : list Z) (i : Z) : list Z :=
  imap (fun p x =>
          x mod 2 ^ Z.max 0 (Z.min 8 (i - 8 * (len bytes - 1 - Z.of_nat p))))
       bytes.

(** An identity circuit on [n] wires: gates [0..n-1] are the [Input]
    gates, gate [n + k] is the [Output] gate of wire [k], fed by a [Copy]
    gate whose predecessor is input gate [k]; one input variable and one
    output variable, each [n] wires wide. *)
Record is_identity (circ : Circuit) (n : Z) : Prop := mk_is_identity {
  id_inputs : NumInputWires circ = n;
  id_outputs : NumOutputWires circ = n;
  id_in_vars : NumInputVars circ = 1;
  id_in_wires : NumWiresIV circ = [n];
  id_out_vars : NumOutputVars circ = 1;
  id_out_wires : NumWiresOV circ = [n];
  id_wiring : forall k, 0 <= k < n ->
    exists gi go gc c,
      Gates circ !! Z.to_nat k = Some gi /\ GateType gi = GateINPUT /\
      Gates circ !! Z.to_nat (n + k) = Some go /\
      GateType go = GateOUTPUT /\ InFrom go = [c] /\
      0 <= c /\ Gates circ !! Z.to_nat c = Some gc /\
      GateType gc = GateCOPY /\ InFrom gc = [k]
}.

(** The input wire whose value a gate of an identity circuit carries. *)
Definition wire_of (circ : Circuit) (g : Z) : option Z :=
  gate ← Gates circ !! Z.to_nat g;
  if decide (GateType gate = GateINPUT) then Some g
  else if decide (GateType gate = GateCOPY) then head (InFrom gate)
  else if decide (GateType gate = GateOUTPUT) then
    c ← head (InFrom gate);
    gc ← Gates circ !! Z.to_nat c;
    if decide (GateType gc = GateCOPY) then head (InFrom gc) else None
  else None.

(** The scratch slices have the length of the gate sequence, and every
    memoised value is the input bit of the wire the gate carries. *)
Definition memo_wires (circ : Circuit) (bits : list bool) (st : Scratch) : Prop :=
  length (visited st) = length (Gates circ) /\
  length (calculated st) = length (Gates circ) /\
  length (values st) = length (Gates circ) /\
  forall g k bit, 0 <= g -> wire_of circ g = Some k ->
    bits !! Z.to_nat k = Some bit ->
    calculated st !! Z.to_nat g = Some true ->
    values st !! Z.to_nat g = Some bit.

(** Gate [g] is not on the stack of the running evaluation. *)
Definition off_stack (st : Scratch) (g : Z) : Prop :=
  visited st !! Z.to_nat g = Some true ->
  calculated st !! Z.to_nat g = Some true.

(** [DecodeOutputVariables(EvaluateCircuit(PadInputsToBoolArray(bufs)))],
    as a caller that checks each success indicator runs it. *)
Definition roundTrip (circ : Circuit) (inputBufs : list (list Z))
  : outcome (option (list (list Z))) :=
  packed ← PadInputsToBoolArray circ inputBufs;
  match packed with
  | None => mret None
  | Some inputBits =>
      '(success, outWires) ← EvaluateCircuit circ inputBits;
      match (success : bool), outWires with
      | true, Some out => DecodeOutputVariables circ out
      | _, _ => mret None
      end
  end.

Definition identity8 : Circuit :=
  Eval vm_compute in
    match identityCircuit 8 with Done c => c | _ => emptyCircuit end.

(** ** Notions used in the further properties *)

(** What a one-input gate computes from its predecessor's value. *)
Definition unary_fun (t : GateType_t) (a : bool) : option bool :=
  if decide (t = GateOUTPUT \/ t = GateCOPY) then Some a
  else if decide (t = GateNOT) then Some (negb a)
  else None.

(** What a two-input gate computes from its predecessors' values. *)
Definition binary_fun (t : GateType_t) (a b : bool) : option bool :=
  if decide (t = GateAND) then Some (a && b)
  else if decide (t = GateOR) then Some (a || b)
  else if decide (t = GateXOR) then Some (xorb a b)
  else None.

(** [denotes circ inputs g b]: the boolean function the circuit wires up
    gives gate [g] the value [b] on [inputs]. *)
Inductive denotes (circ : Circuit) (inputs : list bool) : Z -> bool -> Prop :=
| denotes_input g gate b :
    0 <= g -> Gates circ !! Z.to_nat g = Some gate ->
    GateType gate = GateINPUT ->
    inputs !! Z.to_nat g = Some b ->
    denotes circ inputs g b
| denotes_unary g gate p a b :
    0 <= g -> Gates circ !! Z.to_nat g = Some gate ->
    InFrom gate = [p] -> denotes circ inputs p a ->
    unary_fun (GateType gate) a = Some b ->
    denotes circ inputs g b
| denotes_binary g gate p q a b c :
    0 <= g -> Gates circ !! Z.to_nat g = Some gate ->
    InFrom gate = [p; q] ->
    denotes circ inputs p a -> denotes circ inputs q b ->
    binary_fun (GateType gate) a b = Some c ->
    denotes circ inputs g c.

(** Gate [h] is on the stack of the running evaluation: visited, and not
    yet calculated. *)
Definition on_stack (st : Scratch) (h : Z) : Prop :=
  visited st !! Z.to_nat h = Some true /\
  calculated st !! Z.to_nat h = Some false.

(** Every memoised value is the gate's value. *)
Definition memo_denotes (circ : Circuit) (inputs : list bool) (st : Scratch)
  : Prop :=
  forall h, 0 <= h -> calculated st !! Z.to_nat h = Some true ->
    exists v, values st !! Z.to_nat h = Some v /\ denotes circ inputs h v.

(** The three scratch slices have the length of the gate sequence. *)
Definition scratch_sized (circ : Circuit) (st : Scratch) : Prop :=
  length (visited st) = length (Gates circ) /\
  length (calculated st) = length (Gates circ) /\
  length (values st) = length (Gates circ).

(** The post-condition of a complete evaluation of [g] from [st]. *)
Definition evaluated (circ : Circuit) (inputs : list bool) (g : Z) (b : bool)
    (st : Scratch) (r : bool * bool) (st' : Scratch) : Prop :=
  r = (true, b) /\
  marks_kept (visited st) (visited st') /\
  scratch_sized circ st' /\
  memo_denotes circ inputs st' /\
  (forall h, on_stack st' h -> on_stack st h).

(** Two input wires; the output wire is the negation of their conjunction:
    gate 3 is the [And] of gates 0 and 1, gate 4 its [Not], and the output
    gate 2 reads gate 4. *)
Definition nandCircuit : outcome Circuit :=
  build (initializeCircuit 2 1 1 1 [2] [1];;
         g ← addGate2 GateAND 0 1;
         h ← addGate GateNOT false [g];
         connectOutputWire h 0).

Definition nand : Circuit :=
  Eval vm_compute in
    match nandCircuit with Done c => c | _ => emptyCircuit end.

(** A call to the builder, as a client of the package makes it after
    [initializeCircuit]. *)
Inductive builder_call : Type :=
| CallAddGate (gateType : GateType_t) (constVal : bool) (inFrom : list Z)
| CallAddGate2 (gateType : GateType_t) (inFrom1 inFrom2 : Z)
| CallConnect (gateNum outputNum : Z).

Definition run_call (c : builder_call) : M Circuit unit :=
  match c with
  | CallAddGate t v l => addGate t v l;; mret tt
  | CallAddGate2 t a b => addGate2 t a b;; mret tt
  | CallConnect g o => connectOutputWire g o;; mret tt
  end.

Fixpoint run_calls (cs : list builder_call) : M Circuit unit :=
  match cs with
  | [] => mret tt
  | c :: rest => run_call c;; run_calls rest
  end.

(** A call that wires an output names one of the [nOut] output wires. *)
Definition call_in_range (nOut : Z) (c : builder_call) : Prop :=
  match c with
  | CallConnect _ o => 0 <= o < nOut
  | _ => True
  end.

(** The gate sequence [initializeCircuit] lays out in front: the [Input]
    gates, then the [Output] gates; the fan-in of every gate is in its
    kind's range. *)
Record well_built (circ : Circuit) : Prop := mk_well_built {
  wb_inputs : 0 <= NumInputWires circ;
  wb_outputs : 0 <= NumOutputWires circ;
  wb_int : NumInputWires circ + NumOutputWires circ < 2 ^ 63;
  wb_count : NumInputWires circ + NumOutputWires circ <= len (Gates circ);
  wb_slots : forall k, 0 <= k < NumOutputWires circ ->
    exists gate, Gates circ !! Z.to_nat (NumInputWires circ + k) = Some gate /\
                 GateType gate = GateOUTPUT;
  wb_arity : Forall (fun g => known_kind (GateType g) /\ ~ bad_arity g)
                    (Gates circ)
}.

(** The number whose binary digits are [bits], lowest first. *)
Fixpoint le_value (bits : list bool) : Z :=
  match bits with
  | [] => 0
  | b :: rest => Z.b2z b + 2 * le_value rest
  end.

(** The bytes of a wire vector: [ceil(n/8)] of them, the last holding
    wires 0 to 7, the one before wires 8 to 15, and so on; wire [8q + s] is
    bit [s] of its byte. *)
Definition bytes_of_bits (bits : list bool) : list Z :=
  let m := Z.to_nat ((len bits + 7) / 8) in
  (fun p => le_value (take 8 (drop (8 * (m - 1 - p)) bits))) <$> seq 0 m.

(** The wires of the output variables: the first [w] wires for a
    variable [w] wires wide, and so on down the list of widths. *)
Fixpoint split_wires (ws : list Z) (bits : list bool) : list (list bool) :=
  match ws with
  | [] => []
  | w :: rest =>
      take (Z.to_nat w) bits :: split_wires rest (drop (Z.to_nat w) bits)
  end.

(** One output wire, two output variables declared, one wire count
    listed. *)
Definition shortWidthsCircuit : outcome Circuit :=
  build (initializeCircuit 1 1 1 2 [1] [1]).

Definition shortWidths : Circuit :=
  Eval vm_compute in
    match shortWidthsCircuit with Done c => c | _ => emptyCircuit end.

(** ** Conversions between [int64] and bits *)

(** [1 << i] at type [int64], for a shift count [i >= 0]: what is shifted
    past bit 63 is lost, and bit 63 is the sign.  [int64] has the width the
    model gives [int]. *)
Definition shl1 (i : Z) : Z := Int.wrap (Z.shiftl 1 i).

(** The loop [for i := 63; i >= 0; i--] of [int64toBoolArray], over the
    remaining values of [i]. *)
Fixpoint toBits (input : Z) (counts : list Z) (result : list bool)
  : outcome (list bool) :=
  match counts with
  | [] => Done result
  | i :: rest =>
      result' ← store SResult result i (negb (Z.land input (shl1 i) =? 0));
      toBits input rest result'
  end.

Definition int64toBoolArray (input : Z) : outcome (list bool) :=
  result ← make false 64;
  toBits input (reverse (seqZ 0 64)) result.

(** The loop of [int64ArraytoBoolArray] over the remaining integers. *)
Fixpoint appendBits (input : list Z) (result : list bool)
  : outcome (list bool) :=
  match input with
  | [] => Done result
  | x :: rest =>
      bits ← int64toBoolArray x;
      appendBits rest (result ++ bits)
  end.

Definition int64ArraytoBoolArray (input : list Z) : outcome (list bool) :=
  appendBits input [].

(** The loop of [boolArrayToInt64] over the remaining bits, [i] being the
    index of the first of them. *)
Fixpoint sumBits (input : list bool) (i : Z) (result : Z) : Z :=
  match input with
  | [] => result
  | b :: rest =>
      sumBits rest (i + 1) (if b then Int.add result (shl1 i) else result)
  end.

Definition boolArrayToInt64 (input : list bool) : Z := sumBits input 0 0.

(** The 64 bits of an integer, lowest first. *)
Definition bits64 (x : Z) : list bool := Z.testbit x <$> seqZ 0 64.

(** Gate [g] can be evaluated once its predecessors are: an [Input] gate
    of one of the [n] input wires, a one-input gate ([Output], [Copy],
    [Not]) with one predecessor, or a two-input gate ([And], [Or], [Xor])
    with two. *)
Definition evaluable (circ : Circuit) (n : Z) (g : Z) : Prop :=
  exists gate, 0 <= g /\ Gates circ !! Z.to_nat g = Some gate /\
    ((GateType gate = GateINPUT /\ g < n) \/
     ((GateType gate = GateOUTPUT \/ GateType gate = GateCOPY \/
       GateType gate = GateNOT) /\ len (InFrom gate) = 1) \/
     ((GateType gate = GateAND \/ GateType gate = GateOR \/
       GateType gate = GateXOR) /\ len (InFrom gate) = 2)).

(** * Properties *)

(** ** Machine integers and the monad *)

Lemma wrap_small z : Int.in_range z -> Int.wrap z = z.
Proof.
  unfold Int.in_range, Int.wrap, Int.modulus, Int.half. intros H.
  rewrite Z.mod_small; lia.
Qed.

Lemma add_small a b : Int.in_range (a + b) -> Int.add a b = a + b.
Proof. apply wrap_small. Qed.

Lemma mul_small a b : Int.in_range (a * b) -> Int.mul a b = a * b.
Proof. apply wrap_small. Qed.

Ltac munfold :=
  unfold mbind, mret, M_bind, M_ret, outcome_bind, outcome_ret, get, put, lift
    in *.

Lemma index_Done {A} s (l : list A) i x :
  0 <= i -> l !! Z.to_nat i = Some x -> index s l i = Done x.
Proof. intros Hi Hl. unfold index. rewrite decide_True by done. by rewrite Hl. Qed.

Lemma index_inv {A} s (l : list A) i x :
  index s l i = Done x -> 0 <= i /\ l !! Z.to_nat i = Some x.
Proof.
  unfold index. case_decide; [|done].
  destruct (l !! Z.to_nat i) eqn:E; [|done]. intros [= ->]. done.
Qed.

Lemma index_not_fuel {A} s (l : list A) i : index s l i <> OutOfFuel.
Proof. unfold index. case_decide; [|done]. by destruct (l !! Z.to_nat i). Qed.

Lemma store_Done {A} s (l : list A) i x :
  0 <= i < len l -> store s l i x = Done (<[Z.to_nat i := x]> l).
Proof. intros Hi. unfold store. by rewrite decide_True. Qed.

Lemma store_inv {A} s (l : list A) i x l' :
  store s l i x = Done l' -> 0 <= i < len l /\ l' = <[Z.to_nat i := x]> l.
Proof. unfold store. case_decide; [|done]. by intros [= <-]. Qed.

Lemma store_not_fuel {A} s (l : list A) i x : store s l i x <> OutOfFuel.
Proof. unfold store. by case_decide. Qed.

(** ** The arity table *)

Lemma arity_violated_table t lo hi n :
  (t, lo, hi) ∈ spec_arity_table ->
  arity_violated t n = Done (bool_decide (n < lo \/ hi < n)).
Proof.
  unfold spec_arity_table. rewrite !elem_of_cons, elem_of_nil.
  intros H. unfold arity_violated. munfold.
  assert (forall lo' hi' : Z,
    (if n <? lo' then Done true else Done (hi' <? n))
    = Done (bool_decide (n < lo' \/ hi' < n)) :> outcome bool) as Hgen.
  { intros lo' hi'. destruct (Z.ltb_spec n lo'); destruct (Z.ltb_spec hi' n);
      f_equal; symmetry; try (apply bool_decide_eq_true; lia);
      apply bool_decide_eq_false; lia. }
  destruct_or!; simplify_eq; try done; cbn; apply Hgen.
Qed.

Lemma known_kind_table t :
  known_kind t <-> exists lo hi, (t, lo, hi) ∈ spec_arity_table.
Proof.
  unfold known_kind, spec_arity_table. split.
  - rewrite !elem_of_cons, elem_of_nil. intros H.
    destruct_or!; simplify_eq; try done; do 2 eexists;
      rewrite !elem_of_cons; naive_solver.
  - intros (lo & hi & H). revert H. rewrite !elem_of_cons, !elem_of_nil.
    intros H. destruct_or!; simplify_eq; naive_solver.
Qed.

Lemma table_functional t lo hi lo' hi' :
  (t, lo, hi) ∈ spec_arity_table -> (t, lo', hi') ∈ spec_arity_table ->
  lo = lo' /\ hi = hi'.
Proof.
  unfold spec_arity_table. rewrite !elem_of_cons, !elem_of_nil.
  intros H H'. destruct_or!; simplify_eq; done.
Qed.

(** ** Properties of the builder *)

(** C5: for each of the eight kinds of the arity table and every
    predecessor list, [addGate] returns -1 and leaves the circuit as it was
    when the list's length is outside the kind's range; otherwise it appends
    exactly the new gate to the gate sequence and returns its index. *)
Theorem addGate_arity kind lo hi constVal inFrom circ :
  (kind, lo, hi) ∈ spec_arity_table ->
  (len inFrom < lo \/ hi < len inFrom ->
     addGate kind constVal inFrom circ = Done (-1, circ)) /\
  (lo <= len inFrom <= hi ->
     addGate kind constVal inFrom circ
     = Done (len (Gates circ),
             set_Gates (Gates circ ++ [mkGate kind constVal inFrom]) circ)).
Proof.
  intros Hk. unfold addGate. munfold.
  rewrite (arity_violated_table _ _ _ _ Hk). split; intros H.
  - by rewrite bool_decide_eq_true_2.
  - rewrite bool_decide_eq_false_2 by lia. cbn. do 2 f_equal.
    unfold len. rewrite length_app. cbn. lia.
Qed.

Lemma addGate_arity_witness :
  addGate GateAND false [0; 1; 2] emptyCircuit = Done (-1, emptyCircuit) /\
  addGate GateAND false [0; 1] emptyCircuit
  = Done (0, set_Gates [mkGate GateAND false [0; 1]] emptyCircuit).
Proof.
  assert ((GateAND, 2, 2) ∈ spec_arity_table) as Hk.
  { unfold spec_arity_table. rewrite !elem_of_cons. naive_solver. }
  split.
  - apply (addGate_arity GateAND 2 2 false [0; 1; 2] emptyCircuit Hk).
    right. reflexivity.
  - apply (addGate_arity GateAND 2 2 false [0; 1] emptyCircuit Hk).
    split; discriminate.
Defined.

(** C6: when the targeted output slot already has a predecessor,
    [connectOutputWire] returns false and leaves the circuit as it was; when
    the slot has none it records the given gate as the slot's only
    predecessor and returns true, after which every further wiring of the
    same slot returns false and changes nothing. *)
Theorem connectOutputWire_once circ gateNum outputNum slot :
  0 <= getOutputGate circ outputNum ->
  Gates circ !! Z.to_nat (getOutputGate circ outputNum) = Some slot ->
  (InFrom slot <> [] ->
     connectOutputWire gateNum outputNum circ = Done (false, circ)) /\
  (InFrom slot = [] ->
     let circ' :=
       set_Gates (<[Z.to_nat (getOutputGate circ outputNum) :=
                      set_InFrom [gateNum] slot]> (Gates circ)) circ in
     connectOutputWire gateNum outputNum circ = Done (true, circ') /\
     forall gateNum',
       connectOutputWire gateNum' outputNum circ' = Done (false, circ')).
Proof.
  intros Hpos Hslot.
  assert (0 <= getOutputGate circ outputNum < len (Gates circ)) as Hrange.
  { split; [done|]. apply lookup_lt_Some in Hslot. unfold len. lia. }
  split.
  - intros Hne. unfold connectOutputWire. munfold.
    rewrite (index_Done _ _ _ _ Hpos Hslot).
    rewrite decide_False; [done|].
    unfold len. destruct (InFrom slot); [done|]. cbn. lia.
  - intros Hnil circ'. split.
    + unfold connectOutputWire. munfold.
      rewrite (index_Done _ _ _ _ Hpos Hslot).
      rewrite decide_True by (by rewrite Hnil).
      rewrite store_Done by done. by rewrite Hnil.
    + intros gateNum'. unfold connectOutputWire. munfold.
      assert (getOutputGate circ' outputNum = getOutputGate circ outputNum)
        as -> by done.
      erewrite index_Done; [|done|].
      2:{ subst circ'. cbn. apply list_lookup_insert_eq.
          unfold len in Hrange. lia. }
      by rewrite decide_False.
Qed.

Lemma connectOutputWire_once_witness :
  let c' := set_Gates (<[1%nat := mkGate GateOUTPUT false [7]]> (Gates unwired))
                      unwired in
  unwiredCircuit = Done unwired /\
  connectOutputWire 7 0 unwired = Done (true, c') /\
  connectOutputWire 9 0 c' = Done (false, c').
Proof.
  intros c'. split; [reflexivity|].
  pose proof (connectOutputWire_once unwired 7 0 (mkGate GateOUTPUT false []))
    as [_ H].
  - vm_compute. discriminate.
  - reflexivity.
  - destruct (H eq_refl) as [H1 H2]. split; [exact H1 | exact (H2 9)].
Defined.

(** ** Properties of the validator *)

Lemma validGates_spec gs :
  Forall (fun g => known_kind (GateType g)) gs ->
  exists b : bool, validGates gs = Done b /\ (b = false <-> Exists bad_arity gs).
Proof.
  induction 1 as [|g gs Hg Hgs IH]; cbn.
  - exists true. split; [done|]. rewrite Exists_nil. done.
  - apply known_kind_table in Hg as (lo & hi & Hk).
    rewrite (arity_violated_table _ _ _ _ Hk). munfold.
    case_bool_decide as Hbad.
    + exists false. split; [done|]. split; [|done]. intros _.
      apply Exists_cons_hd. by exists lo, hi.
    + destruct IH as (b & -> & Hb). exists b. split; [done|].
      rewrite Hb, Exists_cons. split; [tauto|].
      intros [(lo' & hi' & Hk' & Hbad')|]; [|done].
      destruct (table_functional _ _ _ _ _ Hk Hk') as [<- <-]. done.
Qed.

(** C8: on a circuit whose gates all have one of the eight kinds,
    [validCircuit] returns a boolean and leaves the circuit as it was; the
    boolean is false exactly when the gate count is less than
    [NumInputWires + NumOutputWires] (the program's [int] sum, which is the
    mathematical sum whenever that fits in an [int]) or some gate's fan-in
    lies outside its kind's range in the table; calling it any number of
    times before gives the same answer. *)
Theorem validCircuit_spec circ :
  Forall (fun g => known_kind (GateType g)) (Gates circ) ->
  exists b : bool,
    validCircuit circ = Done (b, circ) /\
    (b = false <->
       len (Gates circ) < Int.add (NumInputWires circ) (NumOutputWires circ) \/
       Exists bad_arity (Gates circ)) /\
    (Int.in_range (NumInputWires circ + NumOutputWires circ) ->
       Int.add (NumInputWires circ) (NumOutputWires circ)
       = NumInputWires circ + NumOutputWires circ) /\
    (forall n, (repeatM n (validCircuit;; mret tt);; validCircuit) circ
               = Done (b, circ)).
Proof.
  intros Hkinds.
  assert (exists b : bool, validCircuit circ = Done (b, circ) /\
    (b = false <->
       len (Gates circ) < Int.add (NumInputWires circ) (NumOutputWires circ) \/
       Exists bad_arity (Gates circ)))
    as (b & Hrun & Hb).
  { unfold validCircuit. munfold.
    destruct (Z.ltb_spec (len (Gates circ))
                (Int.add (NumInputWires circ) (NumOutputWires circ))) as [Hlt|Hge].
    - exists false. split; [done|]. split; [by left | done].
    - destruct (validGates_spec _ Hkinds) as (b & -> & Hb).
      exists b. split; [done|]. rewrite Hb. split; [tauto|].
      intros [Hlt|Hex]; [lia|done]. }
  exists b. split; [done|]. split; [done|]. split; [apply add_small|].
  induction n as [|n IH]; cbn.
  - munfold. by rewrite Hrun.
  - munfold. rewrite Hrun. exact IH.
Qed.

Lemma validCircuit_spec_witness :
  validCircuit unwired = Done (true, unwired) /\
  (validCircuit;; validCircuit) unwired = Done (true, unwired).
Proof.
  destruct (validCircuit_spec unwired) as (b & Hrun & _ & _ & Hrep).
  - unfold known_kind. repeat (apply Forall_cons; split);
      [ cbn; rewrite !elem_of_cons; naive_solver ..| apply Forall_nil_2 ].
  - assert (b = true) as -> by (vm_compute in Hrun; congruence).
    split; [exact Hrun|]. exact (Hrep 1%nat).
Defined.

(** ** Evaluator: shape check *)

(** C7: when the input vector's length differs from [NumInputWires], or the
    circuit has fewer than one output wire, [EvaluateCircuit] returns
    failure with no result vector; it does so whatever the gate sequence
    holds, so no gate is looked at, and it does not panic. *)
Theorem EvaluateCircuit_shape circ inputBits :
  len inputBits <> NumInputWires circ \/ NumOutputWires circ < 1 ->
  EvaluateCircuit circ inputBits = Done (false, None) /\
  forall gs, EvaluateCircuit (set_Gates gs circ) inputBits = Done (false, None).
Proof.
  intros H. split; [|intros gs]; unfold EvaluateCircuit;
    by rewrite decide_True.
Qed.

Lemma EvaluateCircuit_shape_witness :
  EvaluateCircuit unwired [] = Done (false, None) /\
  EvaluateCircuit unwired [true; false] = Done (false, None).
Proof.
  split.
  - apply (EvaluateCircuit_shape unwired []). left. vm_compute. discriminate.
  - apply (EvaluateCircuit_shape unwired [true; false]). left. vm_compute.
    discriminate.
Defined.

(** ** Reasoning rules for runs *)

Section wp_rules.
Context {S : Type} (pan : Prop).

Lemma wp_bind {A B} (m : M S A) (k : A -> M S B) s Q :
  wp pan m s (fun a s' => wp pan (k a) s' Q) -> wp pan (m ≫= k) s Q.
Proof. unfold wp. munfold. destruct (m s) as [[a s']| |]; done. Qed.

Lemma wp_ret {A} (a : A) (s : S) Q : Q a s -> wp pan (mret a) s Q.
Proof. done. Qed.

Lemma wp_get (s : S) Q : Q s s -> wp pan get s Q.
Proof. done. Qed.

Lemma wp_put (s s' : S) Q : Q tt s' -> wp pan (put s') s Q.
Proof. done. Qed.

Lemma wp_lift {A} (o : outcome A) (s : S) Q :
  wpo pan o (fun a => Q a s) -> wp pan (lift o) s Q.
Proof. unfold wp, wpo, lift. by destruct o. Qed.

Lemma wp_mono {A} (m : M S A) s (Q Q' : A -> S -> Prop) :
  wp pan m s Q -> (forall a s', Q a s' -> Q' a s') -> wp pan m s Q'.
Proof. unfold wp. destruct (m s) as [[a s']| |]; auto. Qed.

Lemma wp_and {A} (m : M S A) s (Q Q' : A -> S -> Prop) :
  wp pan m s Q -> wp pan m s Q' -> wp pan m s (fun a s' => Q a s' /\ Q' a s').
Proof. unfold wp. destruct (m s) as [[a s']| |]; auto. Qed.

Lemma wpo_bind {A B} (o : outcome A) (k : A -> outcome B) Q :
  wpo pan o (fun a => wpo pan (k a) Q) -> wpo pan (o ≫= k) Q.
Proof. unfold wpo. munfold. by destruct o. Qed.

Lemma wpo_index {A} sid (l : list A) i (Q : A -> Prop) :
  (pan \/ (0 <= i < len l)) ->
  (forall x, 0 <= i -> l !! Z.to_nat i = Some x -> Q x) ->
  wpo pan (index sid l i) Q.
Proof.
  intros Hr HQ. unfold wpo, index. case_decide as Hi.
  - destruct (l !! Z.to_nat i) eqn:E; [by apply HQ|].
    destruct Hr as [|Hr]; [done|]. apply lookup_ge_None in E.
    unfold len in Hr. lia.
  - destruct Hr as [|Hr]; [done|lia].
Qed.

Lemma wpo_store {A} sid (l : list A) i x (Q : list A -> Prop) :
  (pan \/ (0 <= i < len l)) ->
  (0 <= i < len l -> Q (<[Z.to_nat i := x]> l)) ->
  wpo pan (store sid l i x) Q.
Proof.
  intros Hr HQ. unfold wpo, store. case_decide as Hi; [by apply HQ|].
  destruct Hr; done.
Qed.
End wp_rules.

Ltac wp_step :=
  lazymatch goal with
  | |- wp _ (_ ≫= _) _ _ => apply wp_bind
  | |- wp _ (mret _) _ _ => apply wp_ret
  | |- wp _ get _ _ => apply wp_get
  | |- wp _ (put _) _ _ => apply wp_put
  | |- wp _ (lift _) _ _ => apply wp_lift
  | |- wpo _ (_ ≫= _) _ => apply wpo_bind
  end.

(** ** Evaluator: the recursion *)

Lemma marks_kept_refl l : marks_kept l l.
Proof. unfold marks_kept. induction l; constructor; auto. Qed.

Lemma marks_kept_trans l1 l2 l3 :
  marks_kept l1 l2 -> marks_kept l2 l3 -> marks_kept l1 l3.
Proof.
  unfold marks_kept. intros H. revert l3.
  induction H; intros l3 H3; inversion H3; subst; constructor; auto.
Qed.

Lemma marks_kept_length l l' : marks_kept l l' -> length l = length l'.
Proof. apply Forall2_length. Qed.

Lemma marks_kept_insert l i : marks_kept l (<[i := true]> l).
Proof.
  unfold marks_kept. revert i. induction l as [|a l IH]; intros [|i]; cbn;
    constructor; auto. apply marks_kept_refl.
Qed.

Lemma unvisited_insert l i :
  l !! i = Some false -> unvisited l = S (unvisited (<[i := true]> l)).
Proof.
  unfold unvisited. revert i. induction l as [|a l IH]; intros [|i] H;
    try done.
  - injection H as ->. change (<[0%nat:=true]> (false :: l)) with (true :: l).
    rewrite filter_cons_True by done.
    rewrite filter_cons_False by done. done.
  - change (<[S i:=true]> (a :: l)) with (a :: <[i:=true]> l).
    change ((a :: l) !! S i) with (l !! i) in H.
    rewrite !filter_cons. destruct (decide (a = false)); cbn [length];
      erewrite IH; eauto.
Qed.

Lemma unvisited_mono l l' : marks_kept l l' -> (unvisited l' <= unvisited l)%nat.
Proof.
  unfold unvisited, marks_kept. induction 1 as [|a b l l' Hab _ IH]; [done|].
  rewrite !filter_cons. destruct (decide (b = false)), (decide (a = false)); cbn;
    try lia.
  destruct a, b; naive_solver.
Qed.

Lemma unvisited_replicate n : unvisited (replicate n false) = n.
Proof.
  unfold unvisited. induction n as [|n IH]; [done|].
  change (replicate (S n) false) with (false :: replicate n false).
  rewrite filter_cons_True by done. cbn [length]. by rewrite IH.
Qed.


Lemma evaluateGate_rule pan circ inputs fuel g st Q :
  (pan \/ (0 <= g < len (visited st) /\ 0 <= g < len (calculated st) /\
           0 <= g < len (values st) /\ 0 <= g < len (Gates circ))) ->
  (forall v c, 0 <= g -> visited st !! Z.to_nat g = Some v ->
     calculated st !! Z.to_nat g = Some c ->
     match v, c with
     | true, false => Q (false, false) st
     | _, true => forall r, values st !! Z.to_nat g = Some r -> Q (true, r) st
     | false, false =>
         forall gate, Gates circ !! Z.to_nat g = Some gate ->
         let st1 := mkScratch (<[Z.to_nat g := true]> (visited st))
                              (calculated st) (values st) in
         if decide (GateType gate <> GateINPUT) then
           (pan \/ 0 < len (InFrom gate)) /\
           forall p0, InFrom gate !! 0%nat = Some p0 ->
             wp pan (evaluateGate fuel circ inputs p0) st1 (fun '(s1, r1) st2 =>
               if decide (len (InFrom gate) = 2) then
                 forall p1, InFrom gate !! 1%nat = Some p1 ->
                   wp pan (evaluateGate fuel circ inputs p1) st2
                      (fun '(s2, r2) st3 =>
                         eval_finish pan gate g inputs Q s1 r1 s2 r2 st3)
               else eval_finish pan gate g inputs Q s1 r1 false false st2)
         else eval_finish pan gate g inputs Q false false false false st1
     end) ->
  wp pan (evaluateGate (S fuel) circ inputs g) st Q.
Proof.
  intros Hr H. cbn [evaluateGate].
  assert (forall (Q' : bool -> Scratch -> Prop),
    (forall c, 0 <= g -> calculated st !! Z.to_nat g = Some c -> Q' c st) ->
    wp pan (rd_calculated g) st Q') as Hcalc.
  { intros Q' HQ'. unfold rd_calculated. do 2 wp_step. wp_step.
    apply wpo_index; [|auto]. destruct Hr; [by left|right; lia]. }
  assert (forall (Q' : bool -> Scratch -> Prop),
    (forall r, values st !! Z.to_nat g = Some r -> Q' r st) ->
    wp pan (rd_values g) st Q') as Hval.
  { intros Q' HQ'. unfold rd_values. do 2 wp_step. wp_step.
    apply wpo_index; [|auto]. destruct Hr; [by left|right; lia]. }
  wp_step. unfold rd_visited. do 2 wp_step. wp_step.
  apply wpo_index; [destruct Hr; [by left|right; lia]|]. intros v Hg Hv.
  wp_step.
  assert ((forall c, calculated st !! Z.to_nat g = Some c ->
             v = true -> c = true) ->
    wp pan
      (c0 ← rd_calculated g;
       if (c0 : bool) then r ← rd_values g; mret (true, r)
       else
         wr_visited g true;;
         g0 ← lift (index SGates (Gates circ) g);
         '(success1, result1, success2, result2) ←
           (if decide (GateType g0 ≠ GateINPUT) then
              p0 ← lift (index SInFrom (InFrom g0) 0);
              '(s1, r1) ← evaluateGate fuel circ inputs p0;
              if decide (len (InFrom g0) = 2) then
                p1 ← lift (index SInFrom (InFrom g0) 1);
                '(s2, r2) ← evaluateGate fuel circ inputs p1;
                mret (s1, r1, s2, r2)
              else mret (s1, r1, false, false)
            else mret (false, false, false, false));
         '(success, result) ←
           lift (gateSwitch g0 g inputs success1 result1 success2 result2);
         (if (success : bool) then
            wr_calculated g true;; wr_values g result
          else mret tt);;
         mret (success, result)) st Q) as Hmain.
  { intros Hvc. wp_step. apply Hcalc. intros c _ Hc.
    specialize (Hvc c Hc). specialize (H v c Hg Hv Hc). destruct c.
    - wp_step. apply Hval. intros r Hr'. wp_step.
      destruct v; by apply H.
    - destruct v; [by specialize (Hvc eq_refl)|].
      wp_step. unfold wr_visited. do 2 wp_step. wp_step. wp_step.
      apply wpo_store; [destruct Hr; [by left|right; lia]|]. intros _.
      wp_step. wp_step. wp_step.
      apply wpo_index; [destruct Hr; [by left|right; lia]|].
      intros gate _ Hgate. specialize (H gate Hgate). cbn zeta in H.
      set (st1 := mkScratch _ _ _) in *.
      assert (forall s1 r1 s2 r2 st',
        eval_finish pan gate g inputs Q s1 r1 s2 r2 st' ->
        wp pan
          ('(success, result) ← lift (gateSwitch gate g inputs s1 r1 s2 r2);
           (if (success : bool) then
              wr_calculated g true;; wr_values g result
            else mret tt);;
           mret (success, result)) st' Q) as Hfin.
      { intros s1 r1 s2 r2 st' Hf. unfold eval_finish in Hf.
        wp_step. wp_step. unfold wpo in *.
        destruct (gateSwitch gate g inputs s1 r1 s2 r2) as [[success result]| |];
          [|done..].
        destruct success.
        - destruct Hf as [Hrange HQ]. wp_step. wp_step.
          unfold wr_calculated. do 2 wp_step. wp_step. wp_step.
          apply wpo_store; [destruct Hrange; [by left|right; lia]|]. intros _.
          wp_step. unfold wr_values. do 2 wp_step. wp_step. wp_step.
          apply wpo_store; [destruct Hrange; [by left|right; cbn; lia]|].
          intros _. wp_step. wp_step. done.
        - wp_step. wp_step. wp_step. done. }
      wp_step. case_decide as Hkind.
      + destruct H as [Hlen H]. wp_step. wp_step.
        apply wpo_index; [destruct Hlen; [by left|right; lia]|].
        intros p0 _ Hp0. wp_step.
        eapply wp_mono; [apply (H p0 Hp0)|].
        intros [s1 r1] st2 H2. case_decide as Hlen2.
        * wp_step. wp_step.
          apply wpo_index; [right; lia|]. intros p1 _ Hp1. wp_step.
          eapply wp_mono; [apply (H2 p1 Hp1)|].
          intros [s2 r2] st3 H3. wp_step. by apply Hfin.
        * wp_step. by apply Hfin.
      + wp_step. by apply Hfin. }
  destruct v.
  - wp_step. apply Hcalc. intros c _ Hc. wp_step. destruct c; cbn [negb].
    + apply Hmain. congruence.
    + wp_step. apply (H true false Hg Hv Hc).
  - wp_step. apply Hmain. done.
Qed.

Lemma gateSwitch_not_fuel gate g inputs s1 r1 s2 r2 :
  gateSwitch gate g inputs s1 r1 s2 r2 <> OutOfFuel.
Proof.
  unfold gateSwitch. munfold. repeat case_decide; try done.
  - pose proof (index_not_fuel SInputs inputs g).
    by destruct (index SInputs inputs g).
  - by destruct (s1 && s2).
  - by destruct (s1 && s2).
  - by destruct (s1 && s2).
  - by destruct s1.
Qed.

Lemma gateSwitch_success gate g inputs s1 r1 s2 r2 result :
  gateSwitch gate g inputs s1 r1 s2 r2 = Done (true, result) ->
  GateType gate = GateINPUT \/ GateType gate = GateCONST \/
  (len (InFrom gate) = 1 /\ s1 = true) \/
  (len (InFrom gate) = 2 /\ s1 = true /\ s2 = true).
Proof.
  unfold gateSwitch. munfold. repeat case_decide; try done; auto.
  all: try (destruct s1, s2; cbn; intros [=]; subst; auto 10).
  all: try (intros [=]; subst; auto 10).
Qed.

Lemma eval_finish_visited gate g inputs (Q : bool * bool -> Scratch -> Prop)
    s1 r1 s2 r2 st' :
  (forall a c vs, Q a (mkScratch (visited st') c vs)) ->
  eval_finish True gate g inputs Q s1 r1 s2 r2 st'.
Proof.
  intros HQ. unfold eval_finish, wpo.
  pose proof (gateSwitch_not_fuel gate g inputs s1 r1 s2 r2).
  destruct (gateSwitch gate g inputs s1 r1 s2 r2) as [[[] result]| |];
    [| |done..].
  - split; [by left|]. apply HQ.
  - destruct st'. apply HQ.
Qed.

Lemma evaluateGate_progress circ inputs fuel :
  forall g st, (unvisited (visited st) < fuel)%nat ->
    wp True (evaluateGate fuel circ inputs g) st
       (fun _ st' => marks_kept (visited st) (visited st')).
Proof.
  induction fuel as [|fuel IH]; intros g st Hfuel; [lia|].
  apply evaluateGate_rule; [by left|].
  intros v c Hg Hv Hc. destruct v, c; try (intros; apply marks_kept_refl).
  intros gate Hgate st1.
  assert (marks_kept (visited st) (visited st1)) as H01
    by apply marks_kept_insert.
  assert (unvisited (visited st1) < fuel)%nat as Hfuel1.
  { subst st1. cbn [visited]. rewrite (unvisited_insert _ _ Hv) in Hfuel. lia. }
  case_decide.
  - split; [by left|]. intros p0 Hp0.
    eapply wp_mono; [apply (IH p0 st1 Hfuel1)|].
    intros [s1 r1] st2 H12. case_decide.
    + intros p1 Hp1. eapply wp_mono; [apply (IH p1 st2)|].
      * pose proof (unvisited_mono _ _ H12). lia.
      * intros [s2 r2] st3 H23. apply eval_finish_visited. intros _ c vs. cbn.
        eauto using marks_kept_trans.
    + apply eval_finish_visited. intros _ c vs. cbn.
      eauto using marks_kept_trans.
  - apply eval_finish_visited. intros _ c vs. done.
Qed.

Lemma Grounded_reach circ g h :
  Grounded circ g -> rtc (edge circ) g h -> Grounded circ h.
Proof.
  intros Hg Hpath. induction Hpath as [|x y z Hxy _ IH]; [done|].
  apply IH. destruct Hg as [x Hx]. by apply Hx.
Qed.

Lemma Grounded_acyclic circ h : Grounded circ h -> ~ tc (edge circ) h h.
Proof.
  induction 1 as [h _ IH]. intros Hcyc.
  assert (exists p, edge circ h p /\ rtc (edge circ) p h) as (p & Hp & Hback).
  { inversion Hcyc as [? ? Hhh|? p ? Hhp Hph]; subst.
    - exists h. split; [done|apply rtc_refl].
    - exists p. split; [done|]. by apply tc_rtc. }
  apply (IH p Hp). eapply tc_rtc_l; [exact Hback|]. by apply tc_once.
Qed.

Lemma Grounded_gate circ g gate :
  0 <= g -> Gates circ !! Z.to_nat g = Some gate ->
  (GateType gate <> GateINPUT -> forall p, p ∈ InFrom gate -> Grounded circ p) ->
  Grounded circ g.
Proof.
  intros Hg Hgate H. constructor. intros p (gate' & _ & Hgate' & Hk & Hp).
  assert (gate' = gate) as -> by congruence. by apply H.
Qed.

Lemma memo_grounded_insert circ st g r :
  0 <= g -> memo_grounded circ st -> Grounded circ g ->
  memo_grounded circ
    (mkScratch (visited st) (<[Z.to_nat g := true]> (calculated st))
               (<[Z.to_nat g := r]> (values st))).
Proof.
  intros Hpos Hinv Hg h Hh. cbn [calculated].
  destruct (decide (Z.to_nat g = Z.to_nat h)) as [Heq|Hne].
  - intros _. assert (h = g) as -> by lia. done.
  - rewrite list_lookup_insert_ne by done. by apply Hinv.
Qed.

Lemma evaluateGate_sound circ inputs fuel :
  const_leaves circ ->
  forall g st, (unvisited (visited st) < fuel)%nat -> memo_grounded circ st ->
    wp True (evaluateGate fuel circ inputs g) st
       (fun '(success, _) st' =>
          marks_kept (visited st) (visited st') /\
          memo_grounded circ st' /\ (success = true -> Grounded circ g)).
Proof.
  intros Hconst. induction fuel as [|fuel IH]; intros g st Hfuel Hinv; [lia|].
  apply evaluateGate_rule; [by left|].
  intros v c Hg Hv Hc. destruct v, c.
  1,3: intros r _; split; [apply marks_kept_refl|]; split; [done|];
       intros _; by apply Hinv.
  1: split; [apply marks_kept_refl|by split].
  intros gate Hgate st1.
  assert (memo_grounded circ st1) as Hinv1 by done.
  assert (marks_kept (visited st) (visited st1)) as H01
    by apply marks_kept_insert.
  assert (unvisited (visited st1) < fuel)%nat as Hfuel1.
  { subst st1. cbn [visited]. rewrite (unvisited_insert _ _ Hv) in Hfuel. lia. }
  assert (forall s1 r1 s2 r2 st',
    marks_kept (visited st) (visited st') ->
    memo_grounded circ st' ->
    (GateType gate <> GateINPUT -> s1 = true ->
       forall p0, InFrom gate !! 0%nat = Some p0 -> Grounded circ p0) ->
    (GateType gate <> GateINPUT -> len (InFrom gate) = 2 -> s2 = true ->
       forall p1, InFrom gate !! 1%nat = Some p1 -> Grounded circ p1) ->
    eval_finish True gate g inputs
      (fun '(success, _) st' =>
         marks_kept (visited st) (visited st') /\
         memo_grounded circ st' /\ (success = true -> Grounded circ g))
      s1 r1 s2 r2 st') as Hfin.
  { intros s1 r1 s2 r2 st' Hkept Hinv' H0 H1. unfold eval_finish, wpo.
    pose proof (gateSwitch_not_fuel gate g inputs s1 r1 s2 r2).
    destruct (gateSwitch gate g inputs s1 r1 s2 r2) as [[[] result]| |] eqn:Esw;
      [| |done..]; [|done].
    split; [by left|].
    assert (Grounded circ g) as Hgg.
    { apply (Grounded_gate circ g gate Hg Hgate). intros Hk p Hp.
      apply gateSwitch_success in Esw.
      destruct Esw as [?|[Hc6|[[Hl ->]|(Hl & -> & ->)]]]; [done| | |].
      - rewrite (Hconst gate) in Hp; [by apply elem_of_nil in Hp| |done].
        by eapply list_elem_of_lookup_2.
      - destruct (InFrom gate) as [|p0 [|]] eqn:E;
          try (unfold len in Hl; cbn in Hl; lia).
        apply list_elem_of_singleton in Hp as ->. by apply (H0 Hk eq_refl).
      - destruct (InFrom gate) as [|p0 [|p1 [|]]] eqn:E;
          try (unfold len in Hl; cbn in Hl; lia).
        rewrite !elem_of_cons, elem_of_nil in Hp.
        destruct Hp as [->|[->|[]]];
          [by apply (H0 Hk eq_refl)|by apply (H1 Hk Hl eq_refl)]. }
    split; [done|]. split; [|done]. by apply memo_grounded_insert. }
  case_decide as Hk.
  - split; [by left|]. intros p0 Hp0.
    eapply wp_mono; [apply (IH p0 st1 Hfuel1 Hinv1)|].
    intros [s1 r1] st2 (H12 & Hinv2 & Hs1). case_decide as Hl.
    + intros p1 Hp1. eapply wp_mono; [apply (IH p1 st2)|].
      * pose proof (unvisited_mono _ _ H12). lia.
      * done.
      * intros [s2 r2] st3 (H23 & Hinv3 & Hs2).
        apply Hfin; [eauto using marks_kept_trans|done| |];
          intros; simplify_eq; auto.
    + apply Hfin; [eauto using marks_kept_trans|done| |];
        intros; simplify_eq; auto.
  - apply Hfin; done.
Qed.

Lemma wp_run {S A} pan (m : M S A) s (Q : A * S -> Prop) :
  wp pan m s (fun a s' => Q (a, s')) -> wpo pan (m s) Q.
Proof. unfold wp, wpo. by destruct (m s) as [[a s']| |]. Qed.

Lemma wpo_mono {A} pan (o : outcome A) (Q Q' : A -> Prop) :
  wpo pan o Q -> (forall a, Q a -> Q' a) -> wpo pan o Q'.
Proof. unfold wpo. destruct o; auto. Qed.

(** X1: [EvaluateCircuit] always comes to an end, whatever the circuit
    and the input vector, reference cycles included: the recursion of
    [evaluateGate] marks a fresh gate at every level, so the depth bound the
    model hands it, the number of gates plus one, is never used up. *)
Lemma EvaluateCircuit_terminates circ inputBits :
  EvaluateCircuit circ inputBits <> OutOfFuel.
Proof.
  unfold EvaluateCircuit. case_decide; [done|].
  unfold make. case_decide; [|done]. cbn [mbind outcome_bind].
  assert (forall outs st result,
    length (visited st) = length (Gates circ) ->
    wpo True (evaluateOutputs circ inputBits outs st result) (fun _ => True))
    as Hloop.
  { induction outs as [|i outs IH]; intros st result Hlen; [done|].
    cbn [evaluateOutputs]. wp_step. apply wp_run.
    eapply wp_mono; [apply evaluateGate_progress|].
    - cbn [visited]. rewrite unvisited_replicate. lia.
    - intros [success resultBit] st2 Hkept. cbn [visited] in Hkept.
      apply marks_kept_length in Hkept. rewrite length_replicate in Hkept.
      wp_step. apply wpo_store; [by left|]. intros _.
      destruct success; [|done]. apply IH. congruence. }
  match goal with |- evaluateOutputs ?c ?i ?os ?st ?r <> _ =>
    specialize (Hloop os st r)
  end.
  intros E. rewrite E in Hloop. apply Hloop. cbn [visited].
  by rewrite length_replicate.
Qed.

Lemma wp_strengthen {S A} (m : M S A) s (Q Q' : A -> S -> Prop) :
  wp False m s Q -> wp True m s Q' ->
  wp False m s (fun a s' => Q a s' /\ Q' a s').
Proof. unfold wp. destruct (m s) as [[a s']| |]; auto. Qed.

Lemma gateSwitch_safe gate g inputs s1 r1 s2 r2 :
  (GateType gate = GateINPUT -> 0 <= g < len inputs) ->
  exists r, gateSwitch gate g inputs s1 r1 s2 r2 = Done r.
Proof.
  intros Hin. unfold gateSwitch. munfold.
  repeat case_decide; try (by eexists).
  - destruct (Hin ltac:(done)) as [H0 Hlt].
    assert (is_Some (inputs !! Z.to_nat g)) as [b Hb]
      by (apply lookup_lt_is_Some; unfold len in Hlt; lia).
    rewrite (index_Done _ _ _ _ H0 Hb). by eexists.
  - destruct (s1 && s2); by eexists.
  - destruct (s1 && s2); by eexists.
  - destruct (s1 && s2); by eexists.
  - destruct s1; by eexists.
Qed.

(** Evaluating a gate from which only wired gates can be reached stops on
    no index. *)
Lemma evaluateGate_safe circ inputs fuel :
  len inputs = NumInputWires circ ->
  forall g st, (unvisited (visited st) < fuel)%nat -> scratch_sized circ st ->
    (forall h, rtc (edge circ) g h -> wired circ h) ->
    wp False (evaluateGate fuel circ inputs g) st
       (fun _ st' => marks_kept (visited st) (visited st') /\
                     scratch_sized circ st').
Proof.
  intros Hlen. induction fuel as [|fuel IH]; intros g st Hfuel Hsz Hreach;
    [lia|].
  destruct (Hreach g (rtc_refl _ _)) as (gate & Hg & Hgate & Hkind).
  assert ((GateType gate = GateINPUT -> g < NumInputWires circ) /\
          (GateType gate <> GateINPUT -> InFrom gate <> [])) as [Hin Hnon].
  { destruct (decide (GateType gate = GateINPUT)); by split. }
  clear Hkind.
  assert (forall st', scratch_sized circ st' ->
            0 <= g < len (visited st') /\ 0 <= g < len (calculated st') /\
            0 <= g < len (values st') /\ 0 <= g < len (Gates circ)) as Hrange.
  { intros st' (Hv & Hc & Hl). apply lookup_lt_Some in Hgate.
    unfold len. lia. }
  apply evaluateGate_rule; [right; by apply Hrange|].
  intros v c _ Hv Hc. destruct v, c.
  1,3: intros r _; split; [apply marks_kept_refl|done].
  1: split; [apply marks_kept_refl|done].
  intros gate' Hgate' st1. rewrite Hgate in Hgate'. injection Hgate' as <-.
  assert (scratch_sized circ st1) as Hsz1.
  { destruct Hsz as (Hv' & ? & ?). repeat split; cbn; try done.
    by rewrite length_insert. }
  assert (marks_kept (visited st) (visited st1)) as H01
    by apply marks_kept_insert.
  assert (unvisited (visited st1) < fuel)%nat as Hfuel1.
  { subst st1. cbn [visited]. rewrite (unvisited_insert _ _ Hv) in Hfuel. lia. }
  assert (forall s1 r1 s2 r2 st',
    marks_kept (visited st) (visited st') -> scratch_sized circ st' ->
    eval_finish False gate g inputs
      (fun _ st' => marks_kept (visited st) (visited st') /\
                    scratch_sized circ st')
      s1 r1 s2 r2 st') as Hfin.
  { intros s1 r1 s2 r2 st' Hkept Hsz'. unfold eval_finish, wpo.
    destruct (gateSwitch_safe gate g inputs s1 r1 s2 r2) as [[success r] ->].
    { intros Hty. specialize (Hin Hty). lia. }
    destruct success; [|done].
    split; [right; split; by apply Hrange|].
    split; [done|]. destruct Hsz' as (Hv' & Hc' & Hl').
    repeat split; cbn; by rewrite ?length_insert. }
  assert (forall p, p ∈ InFrom gate -> GateType gate <> GateINPUT ->
            forall h, rtc (edge circ) p h -> wired circ h) as Hpred.
  { intros p Hp Hne h Hh. apply Hreach. eapply rtc_l; [|exact Hh].
    by exists gate. }
  case_decide as Hk.
  - specialize (Hnon Hk). split.
    { right. destruct (InFrom gate); [done|]. unfold len. cbn. lia. }
    intros p0 Hp0.
    eapply wp_mono; [apply (IH p0 st1 Hfuel1 Hsz1)|].
    { apply Hpred; [by eapply list_elem_of_lookup_2|done]. }
    intros [s1 r1] st2 (H12 & Hsz2). case_decide as Hl.
    + intros p1 Hp1. eapply wp_mono; [apply (IH p1 st2)|].
      * pose proof (unvisited_mono _ _ H12). lia.
      * done.
      * apply Hpred; [by eapply list_elem_of_lookup_2|done].
      * intros [s2 r2] st3 (H23 & Hsz3).
        apply Hfin; [eauto using marks_kept_trans|done].
    + apply Hfin; [eauto using marks_kept_trans|done].
  - apply Hfin; done.
Qed.

(** The loop over the output wires, from wire [i] on, when wire [o] among
    them leads to a gate that is not grounded and every gate reached from
    the wires up to [o] is wired: the loop ends at the first wire whose
    evaluation fails, which is wire [o] at the latest. *)
Lemma evaluateOutputs_cycle circ inputs o :
  const_leaves circ -> len inputs = NumInputWires circ ->
  ~ Grounded circ (getOutputGate circ o) ->
  forall (m : nat) i st result,
    0 <= i <= o -> o < i + Z.of_nat m -> i + Z.of_nat m <= len result ->
    (forall o' g, i <= o' <= o ->
       rtc (edge circ) (getOutputGate circ o') g -> wired circ g) ->
    memo_grounded circ st -> scratch_sized circ st ->
    evaluateOutputs circ inputs (seqZ i (Z.of_nat m)) st result
    = Done (false, None).
Proof.
  intros Hconst Hlen Hbad.
  induction m as [|m IH]; intros i st result Hi Hm Hres Hwired Hmemo Hsz;
    [lia|].
  rewrite Nat2Z.inj_succ, seqZ_cons by lia. cbn [evaluateOutputs].
  set (st1 := mkScratch (replicate (length (visited st)) false)
                        (calculated st) (values st)).
  assert (unvisited (visited st1) < S (length (Gates circ)))%nat as Hfuel.
  { cbn [visited st1]. rewrite unvisited_replicate.
    destruct Hsz as (-> & _). lia. }
  assert (scratch_sized circ st1) as Hsz1.
  { destruct Hsz as (Hv & ? & ?). repeat split; cbn; try done.
    by rewrite length_replicate. }
  assert (memo_grounded circ st1) as Hmemo1 by done.
  assert (forall h, rtc (edge circ) (getOutputGate circ i) h -> wired circ h)
    as Hwired_i by (intros h Hh; apply (Hwired i); [lia|done]).
  pose proof (wp_strengthen _ _ _ _
    (evaluateGate_safe circ inputs _ Hlen _ st1 Hfuel Hsz1 Hwired_i)
    (evaluateGate_sound circ inputs _ Hconst (getOutputGate circ i) st1
       Hfuel Hmemo1)) as Hrun.
  unfold wp in Hrun. revert Hrun. unfold mbind at 1, outcome_bind at 1.
  generalize (evaluateGate (S (length (Gates circ))) circ inputs
                (getOutputGate circ i) st1).
  intros [[[success resultBit] st2]| |] Hrun; [|done..].
  destruct Hrun as [[_ Hsz2] (_ & Hmemo2 & Hsucc)].
  rewrite store_Done by lia.
  unfold mbind, outcome_bind. destruct success; [|done].
  specialize (Hsucc eq_refl).
  assert (i <> o) as Hne by (intros ->; done).
  rewrite Z.pred_succ. apply IH; try done; try lia.
  - unfold len in *. rewrite length_insert. lia.
  - intros o' g Ho'. apply Hwired. lia.
Qed.

(** C2, as the code has it: when the gate of output wire [o] reaches a
    reference cycle among non-[Input] gates, no [Const] gate lists a
    predecessor, and every gate that can be reached from the output wires
    up to [o] exists and is an [Input] gate of an input wire or lists a
    predecessor, then for every input vector [EvaluateCircuit] comes to an
    end and returns failure with no result vector; it does not return
    success and it does not stop on an index.  This holds for every output
    wire [o], also a later one evaluated after earlier wires filled the
    memo. *)
Theorem EvaluateCircuit_cycle circ inputBits o h :
  const_leaves circ ->
  0 <= o < NumOutputWires circ ->
  rtc (edge circ) (getOutputGate circ o) h ->
  tc (edge circ) h h ->
  (forall o' g, 0 <= o' <= o ->
     rtc (edge circ) (getOutputGate circ o') g -> wired circ g) ->
  EvaluateCircuit circ inputBits = Done (false, None).
Proof.
  intros Hconst Ho Hreach Hcyc Hwired. unfold EvaluateCircuit.
  case_decide as Hshape; [done|].
  unfold make. rewrite decide_True by lia. cbn [mbind outcome_bind].
  rewrite <- (Z2Nat.id (NumOutputWires circ)) at 1 by lia.
  assert (len inputBits = NumInputWires circ) as Hlen.
  { apply dec_stable. intros Hne. apply Hshape. by left. }
  assert (~ Grounded circ (getOutputGate circ o)) as Hbad.
  { intros Hg. eapply Grounded_acyclic; [|exact Hcyc].
    by eapply Grounded_reach. }
  apply (evaluateOutputs_cycle circ inputBits o Hconst Hlen Hbad
           (Z.to_nat (NumOutputWires circ)) 0).
  - lia.
  - lia.
  - unfold len. rewrite length_replicate. lia.
  - exact Hwired.
  - intros k _ Hk. cbn [calculated] in Hk.
    apply lookup_replicate in Hk as [? _]. done.
  - repeat split; cbn; by rewrite length_replicate.
Qed.

Lemma loop_edge g p : edge loop g p -> (g = 1 \/ g = 2) /\ p = 2.
Proof.
  intros (gate & Hg & Hgate & Hkind & Hp).
  apply lookup_lt_Some in Hgate as Hlt. unfold loop in Hlt. cbn in Hlt.
  assert (g = 0 \/ g = 1 \/ g = 2) as Hcases by lia.
  destruct_or!; subst g; cbn in Hgate; injection Hgate as <-;
    cbn in Hkind, Hp; try done;
    rewrite ?elem_of_cons, elem_of_nil in Hp; lia.
Qed.

Lemma loop_reach g h :
  rtc (edge loop) g h -> g = 1 \/ g = 2 -> h = 1 \/ h = 2.
Proof.
  induction 1 as [|g p h Hedge _ IH]; [done|].
  intros _. apply IH. apply loop_edge in Hedge. lia.
Qed.

Lemma EvaluateCircuit_cycle_witness :
  EvaluateCircuit loop [true] = Done (false, None).
Proof.
  apply (EvaluateCircuit_cycle loop [true] 0 2).
  - intros gate Hin. unfold loop in Hin. cbn [Gates] in Hin.
    rewrite !elem_of_cons, elem_of_nil in Hin.
    destruct Hin as [->|[->|[->|[]]]]; cbn; done.
  - vm_compute. split; [discriminate|reflexivity].
  - apply rtc_once. exists (mkGate GateOUTPUT false [2]).
    split; [vm_compute; discriminate|]. split; [reflexivity|].
    split; [discriminate|]. apply list_elem_of_here.
  - apply tc_once. exists (mkGate GateNOT false [2]).
    split; [lia|]. split; [reflexivity|].
    split; [discriminate|]. apply list_elem_of_here.
  - intros o' g Ho' Hg. assert (o' = 0) as -> by lia.
    change (getOutputGate loop 0) with 1 in Hg.
    destruct (loop_reach 1 g Hg ltac:(by left)) as [-> | ->].
    + exists (mkGate GateOUTPUT false [2]).
      split; [lia|]. split; [reflexivity|]. cbn. discriminate.
    + exists (mkGate GateNOT false [2]).
      split; [lia|]. split; [reflexivity|]. cbn. discriminate.
Defined.

(** C2, as stated, fails: gate 3 of [detachedLoop] is a [Not] gate on a
    reference cycle with itself, the input vector has length
    [NumInputWires], and [EvaluateCircuit] returns success, because no
    output wire leads to the cycle. *)
Lemma EvaluateCircuit_detached_cycle :
  detachedLoopCircuit = Done detachedLoop /\
  tc (edge detachedLoop) 3 3 /\
  len [true] = NumInputWires detachedLoop /\
  EvaluateCircuit detachedLoop [true] = Done (true, Some [true]).
Proof.
  split; [reflexivity|]. split; [|split; reflexivity].
  apply tc_once. exists (mkGate GateNOT false [3]).
  split; [lia|]. split; [reflexivity|].
  split; [discriminate|]. apply list_elem_of_here.
Qed.

(** The gates reached must list a predecessor for evaluation to fail
    cleanly: in [loopConst] the output wire reaches the cycle of gate 2, the
    validator accepts the circuit, and [EvaluateCircuit] stops on the empty
    predecessor list of the [Const] gate, which it enters after the cycle
    was detected. *)
Lemma EvaluateCircuit_cycle_unwired :
  loopConstCircuit = Done loopConst /\
  validCircuit loopConst = Done (true, loopConst) /\
  rtc (edge loopConst) (getOutputGate loopConst 0) 2 /\
  tc (edge loopConst) 2 2 /\
  ~ wired loopConst 3 /\
  EvaluateCircuit loopConst [true] = Panic (IndexOutOfRange SInFrom 0).
Proof.
  split; [reflexivity|]. split; [reflexivity|].
  split; [|split; [|split; [|reflexivity]]].
  - apply (rtc_l _ _ 4).
    + exists (mkGate GateOUTPUT false [4]).
      split; [vm_compute; discriminate|]. split; [reflexivity|].
      split; [discriminate|]. apply list_elem_of_here.
    + apply rtc_once. exists (mkGate GateAND false [2; 3]).
      split; [lia|]. split; [reflexivity|].
      split; [discriminate|]. apply list_elem_of_here.
  - apply tc_once. exists (mkGate GateNOT false [2]).
    split; [lia|]. split; [reflexivity|].
    split; [discriminate|]. apply list_elem_of_here.
  - intros (gate & _ & Hgate & Hkind). cbn in Hgate. injection Hgate as <-.
    cbn in Hkind. by apply Hkind.
Qed.

(** ** Evaluator: gates without predecessors *)

(** C1, at the failing input: the circuit whose output wire is fed by a
    [Const] gate is accepted by the validator, and evaluating it does not
    return the constant: the recursion into the first predecessor indexes
    the gate's empty [InFrom]. *)
Theorem EvaluateCircuit_const_panics :
  constCircuit true = Done constTrue /\
  validCircuit constTrue = Done (true, constTrue) /\
  Gates constTrue !! 2%nat = Some (mkGate GateCONST true []) /\
  EvaluateCircuit constTrue [false] = Panic (IndexOutOfRange SInFrom 0).
Proof. repeat split; reflexivity. Qed.

(** C9: some circuit that the validator accepts has an [Output] gate with
    no predecessor, and on it [EvaluateCircuit], given an input vector of
    the right length, stops on the out-of-range index [InFrom[0]] instead
    of returning failure. *)
Theorem EvaluateCircuit_unwired_panics :
  exists circ inputBits,
    validCircuit circ = Done (true, circ) /\
    Gates circ !! Z.to_nat (getOutputGate circ 0)
      = Some (mkGate GateOUTPUT false []) /\
    len inputBits = NumInputWires circ /\
    EvaluateCircuit circ inputBits = Panic (IndexOutOfRange SInFrom 0).
Proof. exists unwired, [true]. repeat split; reflexivity. Qed.

(** ** Bit codec: bounds *)

(** C10: some circuit that [initializeCircuit] builds and the validator
    accepts has input-variable wire counts that sum to more than
    [NumInputWires]; on it [PadInputsToBoolArray] stops on an out-of-range
    write to its result vector instead of returning [nil]. *)
Theorem PadInputs_wide_var_panics :
  exists circ inputBufs,
    build (initializeCircuit 1 1 1 1 [8] [1]) = Done circ /\
    validCircuit circ = Done (true, circ) /\
    NumInputWires circ < foldr Z.add 0 (NumWiresIV circ) /\
    len inputBufs <= NumInputVars circ /\
    Forall (fun b => 8 * len b <= 8) inputBufs /\
    PadInputsToBoolArray circ inputBufs = Panic (IndexOutOfRange SResult 1).
Proof.
  exists wideVar, [[5]].
  split; [reflexivity|]. split; [reflexivity|]. split; [reflexivity|].
  split; [vm_compute; discriminate|]. split; [|reflexivity].
  repeat constructor. vm_compute. discriminate.
Qed.

(** ** Bit codec: packing *)

Lemma land_bit b k :
  0 <= k -> negb (Z.land b (Z.shiftl 1 k) =? 0) = Z.testbit b k.
Proof.
  intros Hk. rewrite Z.shiftl_1_l.
  destruct (Z.testbit b k) eqn:Eb.
  - assert (Z.land b (2 ^ k) = 2 ^ k) as ->.
    { apply Z.bits_inj'. intros n Hn. rewrite Z.land_spec.
      rewrite Z.pow2_bits_eqb by done.
      destruct (Z.eqb_spec k n) as [->|]; [by rewrite Eb|apply andb_false_r]. }
    pose proof (Z.pow_pos_nonneg 2 k). destruct (Z.eqb_spec (2 ^ k) 0); [lia|done].
  - assert (Z.land b (2 ^ k) = 0) as ->; [|done].
    apply Z.bits_inj'. intros n Hn. rewrite Z.land_spec, Z.bits_0.
    rewrite Z.pow2_bits_eqb by done.
    destruct (Z.eqb_spec k n) as [->|]; [by rewrite Eb|apply andb_false_r].
Qed.

Lemma padBit_spec buf j :
  0 <= j ->
  (if Z.quot j 8 <? len buf then bufBit buf j else mret false)
  = Done (spec_bit buf j).
Proof.
  intros Hj. rewrite Z.quot_div_nonneg by lia.
  unfold spec_bit. destruct (Z.ltb_spec (j / 8) (len buf)) as [Hlt|Hge].
  - rewrite decide_True by done. unfold bufBit.
    rewrite Z.quot_div_nonneg, Z.rem_mod_nonneg by lia.
    pose proof (Z.div_pos j 8).
    assert (is_Some (buf !! Z.to_nat (len buf - j / 8 - 1))) as [b Hb].
    { apply lookup_lt_is_Some. unfold len in *. lia. }
    rewrite (index_Done _ _ _ b) by (done || lia).
    replace (len buf - 1 - j / 8) with (len buf - j / 8 - 1) by lia.
    rewrite Hb. cbn. f_equal. apply land_bit.
    apply Z.mod_pos_bound. lia.
  - by rewrite decide_False by lia.
Qed.

Lemma padBits_spec buf (k : nat) :
  forall j result loc,
    0 <= j -> 0 <= loc -> loc + Z.of_nat k <= len result ->
    len result < 2 ^ 63 ->
    padBits buf (seqZ j (Z.of_nat k)) result loc
    = Done (take (Z.to_nat loc) result ++ (spec_bit buf <$> seqZ j (Z.of_nat k))
              ++ drop (Z.to_nat loc + k) result,
            loc + Z.of_nat k).
Proof.
  induction k as [|k IH]; intros j result loc Hj Hloc Hfit Hmax.
  - rewrite seqZ_nil by lia. cbn. rewrite Nat.add_0_r, take_drop.
    do 2 f_equal. lia.
  - rewrite seqZ_cons by lia. cbn [padBits fmap list_fmap].
    rewrite padBit_spec by done. cbn [mbind outcome_bind].
    rewrite store_Done by lia. cbn [mbind outcome_bind].
    replace (Z.pred (Z.of_nat (S k))) with (Z.of_nat k) by lia.
    rewrite add_small by (unfold Int.in_range, Int.half; lia).
    rewrite IH; [|lia|lia|unfold len in *; rewrite length_insert; lia
                 |unfold len in *; by rewrite length_insert].
    f_equal. f_equal; [|lia].
    replace (Z.to_nat (loc + 1)) with (S (Z.to_nat loc)) by lia.
    erewrite take_S_r.
    2:{ apply list_lookup_insert_eq. unfold len in *. lia. }
    rewrite take_insert_ge by lia. rewrite <- app_assoc. cbn [app].
    rewrite drop_insert_lt by lia.
    by replace (Z.to_nat loc + S k)%nat with (S (Z.to_nat loc) + k)%nat by lia.
Qed.

Lemma length_spec_var_bits buf w :
  length (spec_var_bits buf w) = Z.to_nat w.
Proof. unfold spec_var_bits. by rewrite length_fmap, length_seqZ. Qed.

Lemma padBits_spec_Z buf w result loc :
  0 <= w -> 0 <= loc -> loc + w <= len result -> len result < 2 ^ 63 ->
  padBits buf (seqZ 0 w) result loc
  = Done (take (Z.to_nat loc) result ++ spec_var_bits buf w
            ++ drop (Z.to_nat loc + Z.to_nat w) result,
          loc + w).
Proof.
  intros Hw Hloc Hfit Hmax. unfold spec_var_bits.
  rewrite <- (Z2Nat.id w) at 1 2 4 by done.
  apply padBits_spec; lia.
Qed.

Lemma splice_facts {A} (l mid : list A) (a : nat) :
  (a + length mid <= length l)%nat ->
  let l' := take a l ++ mid ++ drop (a + length mid) l in
  length l' = length l /\
  take (a + length mid) l' = take a l ++ mid /\
  forall m, drop (a + length mid + m) l' = drop (a + length mid + m) l.
Proof.
  intros Hfit l'. subst l'. split; [|split].
  - rewrite !length_app, length_take, length_drop. lia.
  - rewrite app_assoc. apply take_app_length'.
    rewrite length_app, length_take. lia.
  - intros m. rewrite app_assoc, drop_app_ge;
      rewrite length_app, length_take; [|lia].
    rewrite drop_drop. f_equal. lia.
Qed.

Lemma spec_fits_cons w wires buf bufs :
  spec_fits (w :: wires) (buf :: bufs)
  <-> 8 * len buf <= w /\ spec_fits wires bufs.
Proof.
  unfold spec_fits. split.
  - intros H. split; [by apply (H 0%nat)|].
    intros i b x Hb Hx. by apply (H (S i)).
  - intros [H0 H] [|i] b x Hb Hx; cbn in *; simplify_eq; eauto.
Qed.

Lemma sumZ_nonneg l : Forall (fun w => 0 <= w) l -> 0 <= sumZ l.
Proof. induction 1; cbn; [done|]. unfold sumZ in *. lia. Qed.

Lemma padBufs_spec circ :
  forall bufs wires (i : nat) result loc,
    (forall k, wires !! k = NumWiresIV circ !! (i + k)%nat) ->
    (length bufs <= length wires)%nat ->
    Forall (fun w => 0 <= w) wires ->
    Forall (fun b => Int.in_range (8 * len b)) bufs ->
    0 <= loc -> loc + sumZ (take (length bufs) wires) <= len result ->
    len result < 2 ^ 63 ->
    (spec_fits wires bufs ->
       padBufs circ bufs (Z.of_nat i) result loc
       = Done (Some (take (Z.to_nat loc) result
                       ++ concat (zip_with spec_var_bits bufs wires)
                       ++ drop (Z.to_nat (loc + sumZ (take (length bufs) wires)))
                               result))) /\
    (~ spec_fits wires bufs ->
       padBufs circ bufs (Z.of_nat i) result loc = Done None).
Proof.
  induction bufs as [|buf bufs IH];
    intros wires i result loc Hw Hlen Hpos Hfeas Hloc Hfit Hmax.
  - split.
    + intros _. cbn. rewrite Z.add_0_r, take_drop. done.
    + intros Hn. exfalso. apply Hn. intros k b w Hb. done.
  - destruct wires as [|w wires]; [cbn in Hlen; lia|].
    cbn [padBufs].
    assert (NumWiresIV circ !! i = Some w) as Hiw.
    { pose proof (Hw 0%nat) as H0. rewrite Nat.add_0_r in H0. by rewrite <- H0. }
    rewrite (index_Done _ _ _ w) by (lia || by rewrite Nat2Z.id).
    cbn [mbind outcome_bind].
    apply Forall_cons in Hpos as [Hw0 Hpos].
    apply Forall_cons in Hfeas as [Hb0 Hfeas].
    rewrite Z.mul_comm in Hb0. rewrite mul_small by done.
    cbn [length take sumZ foldr] in Hfit.
    fold (sumZ (take (length bufs) wires)) in Hfit.
    pose proof (sumZ_nonneg (take (length bufs) wires)
                  (Forall_take _ _ _ Hpos)) as Hsum0.
    rewrite spec_fits_cons.
    destruct (Z.ltb_spec w (len buf * 8)) as [Hbig|Hok].
    + split; [|done]. intros [Hfits _]. lia.
    + rewrite padBits_spec_Z by lia. cbn [mbind outcome_bind].
      pose proof (splice_facts result (spec_var_bits buf w) (Z.to_nat loc))
        as Hsp.
      rewrite length_spec_var_bits in Hsp.
      destruct Hsp as (Hl' & Htake & Hdrop); [unfold len in Hfit; lia|].
      set (result' := take (Z.to_nat loc) result ++ spec_var_bits buf w
                        ++ drop (Z.to_nat loc + Z.to_nat w) result) in *.
      replace (Z.of_nat i + 1) with (Z.of_nat (S i)) by lia.
      destruct (IH wires (S i) result' (loc + w)) as [IHok IHbad].
      * intros k. replace (S i + k)%nat with (i + S k)%nat by lia.
        apply (Hw (S k)).
      * cbn in Hlen. lia.
      * done.
      * done.
      * lia.
      * unfold len. rewrite Hl'. fold (len result). lia.
      * unfold len. rewrite Hl'. by fold (len result).
      * split.
        -- intros [_ Hfits]. rewrite (IHok Hfits). do 2 f_equal.
           cbn [zip_with concat length take sumZ foldr].
           fold (sumZ (take (length bufs) wires)).
           replace (Z.to_nat (loc + w)) with (Z.to_nat loc + Z.to_nat w)%nat
             by lia.
           rewrite Htake, <- !app_assoc. do 3 f_equal.
           replace (Z.to_nat (loc + w + sumZ (take (length bufs) wires)))
             with (Z.to_nat loc + Z.to_nat w
                   + Z.to_nat (sumZ (take (length bufs) wires)))%nat by lia.
           rewrite Hdrop. f_equal. lia.
        -- intros Hn. apply IHbad. intros Hfits. apply Hn. split; [lia|done].
Qed.

Lemma sumZ_take_le l n : Forall (fun w => 0 <= w) l -> sumZ (take n l) <= sumZ l.
Proof.
  intros H. revert n. induction H as [|w l Hw Hl IH]; intros [|n]; cbn; try lia.
  - pose proof (sumZ_nonneg l Hl). unfold sumZ in *. lia.
  - specialize (IH n). unfold sumZ in *. lia.
Qed.

Lemma length_spec_used bufs : forall wires,
  Forall (fun w => 0 <= w) wires -> (length bufs <= length wires)%nat ->
  length (concat (zip_with spec_var_bits bufs wires))
  = Z.to_nat (sumZ (take (length bufs) wires)).
Proof.
  induction bufs as [|buf bufs IH]; intros [|w wires] Hpos Hlen; cbn in *;
    try done; try lia.
  apply Forall_cons in Hpos as [Hw Hpos].
  rewrite length_app, length_spec_var_bits, IH by (done || lia).
  pose proof (sumZ_nonneg (take (length bufs) wires) (Forall_take _ _ _ Hpos)).
  unfold sumZ in *. lia.
Qed.

(** With every buffer fitting its variable, the packed vector is the one
    the specification describes. *)
Lemma PadInputs_fits circ inputBufs :
  0 <= NumInputWires circ < 2 ^ 63 ->
  NumInputVars circ = len (NumWiresIV circ) ->
  Forall (fun w => 0 <= w) (NumWiresIV circ) ->
  sumZ (NumWiresIV circ) = NumInputWires circ ->
  Forall (fun b => Int.in_range (8 * len b)) inputBufs ->
  len inputBufs <= NumInputVars circ ->
  spec_fits (NumWiresIV circ) inputBufs ->
  PadInputsToBoolArray circ inputBufs
  = Done (Some (spec_pack (NumWiresIV circ) inputBufs (NumInputWires circ))).
Proof.
  intros Hn Hvars Hpos Hsum Hfeas.
  intros Hle Hfits. unfold PadInputsToBoolArray, make.
  rewrite decide_True by lia. cbn [mbind outcome_bind].
  destruct (Z.ltb_spec (NumInputVars circ) (len inputBufs)); [lia|].
  pose proof (sumZ_take_le _ (length inputBufs) Hpos) as Hpre.
  pose proof (sumZ_nonneg (take (length inputBufs) (NumWiresIV circ))
                (Forall_take _ _ _ Hpos)).
  destruct (padBufs_spec circ inputBufs (NumWiresIV circ) 0%nat
              (replicate (Z.to_nat (NumInputWires circ)) false) 0) as [Hok _];
    [done|unfold len in *; lia|done|done|lia| | |].
  + unfold len. rewrite length_replicate. lia.
  + unfold len. rewrite length_replicate. lia.
  + change (Z.of_nat 0) with 0 in Hok. rewrite (Hok Hfits). unfold spec_pack.
    change (Z.to_nat 0) with 0%nat. cbn [take app].
    rewrite drop_replicate.
    rewrite length_spec_used by (done || unfold len in *; lia).
    by rewrite Z.add_0_l.
Qed.

(** C4: on a circuit whose input variables have non-negative wire counts,
    one per variable, that sum to [NumInputWires], and for buffers whose
    bit-length is an [int]: [PadInputsToBoolArray] returns [nil] when more
    buffers are given than there are input variables, and when some
    buffer's bit-length (8 x byte length) exceeds its variable's wire count;
    otherwise it returns the vector in which wire [j] of variable [i] is
    bit [j mod 8] of byte [length - 1 - j/8] of buffer [i], or false past
    the buffer's end, the variables laid out one after the other and the
    remaining wires false.  An 8-wire variable packed from byte 0x05 gives
    [true,false,true,false,false,false,false,false]. *)
Theorem PadInputs_spec circ inputBufs :
  0 <= NumInputWires circ < 2 ^ 63 ->
  NumInputVars circ = len (NumWiresIV circ) ->
  Forall (fun w => 0 <= w) (NumWiresIV circ) ->
  sumZ (NumWiresIV circ) = NumInputWires circ ->
  Forall (fun b => Int.in_range (8 * len b)) inputBufs ->
  (NumInputVars circ < len inputBufs ->
     PadInputsToBoolArray circ inputBufs = Done None) /\
  ((exists i buf w, inputBufs !! i = Some buf /\ NumWiresIV circ !! i = Some w /\
                    w < 8 * len buf) ->
     PadInputsToBoolArray circ inputBufs = Done None) /\
  (len inputBufs <= NumInputVars circ ->
   spec_fits (NumWiresIV circ) inputBufs ->
     PadInputsToBoolArray circ inputBufs
     = Done (Some (spec_pack (NumWiresIV circ) inputBufs (NumInputWires circ)))) /\
  PadInputsToBoolArray eightWire [[5]]
  = Done (Some [true; false; true; false; false; false; false; false]).
Proof.
  intros Hn Hvars Hpos Hsum Hfeas.
  split; [|split; [|split; [|reflexivity]]].
  - intros Hmany. unfold PadInputsToBoolArray, make.
    rewrite decide_True by lia. cbn [mbind outcome_bind].
    destruct (Z.ltb_spec (NumInputVars circ) (len inputBufs)); [done|lia].
  - intros (i & buf & w & Hb & Hw & Hbig).
    unfold PadInputsToBoolArray, make.
    rewrite decide_True by lia. cbn [mbind outcome_bind].
    destruct (Z.ltb_spec (NumInputVars circ) (len inputBufs)) as [|Hle]; [done|].
    eapply (padBufs_spec circ inputBufs (NumWiresIV circ) 0%nat).
    + done.
    + unfold len in *. lia.
    + done.
    + done.
    + lia.
    + unfold len. rewrite length_replicate.
      pose proof (sumZ_take_le _ (length inputBufs) Hpos). lia.
    + unfold len. rewrite length_replicate. lia.
    + intros Hfits. specialize (Hfits i buf w Hb Hw). lia.
  - by apply PadInputs_fits.
Qed.

(** ** Bit codec: unpacking *)

Lemma length_zero_extend m buf :
  len buf <= m -> len (zero_extend m buf) = m.
Proof.
  intros H. unfold zero_extend, len in *.
  rewrite length_app, length_replicate. lia.
Qed.

Lemma zero_extend_ok m buf :
  Forall byte_ok buf -> Forall byte_ok (zero_extend m buf).
Proof.
  intros H. apply Forall_app. split; [|done].
  apply Forall_replicate. unfold byte_ok. lia.
Qed.

Lemma spec_bit_zero_extend m buf j :
  0 <= j -> j / 8 < m -> len buf <= m ->
  exists x, zero_extend m buf !! Z.to_nat (m - 1 - j / 8) = Some x /\
            spec_bit buf j = Z.testbit x (j mod 8).
Proof.
  intros Hj Hjm Hlen. pose proof (Z.div_pos j 8 Hj ltac:(lia)) as Hq.
  unfold spec_bit, zero_extend. case_decide as Hin.
  - assert (is_Some (buf !! Z.to_nat (len buf - 1 - j / 8))) as [x Hx].
    { apply lookup_lt_is_Some. unfold len in *. lia. }
    exists x. rewrite Hx. split; [|done].
    rewrite lookup_app_r; rewrite length_replicate; [|unfold len in *; lia].
    rewrite <- Hx. f_equal. unfold len in *. lia.
  - exists 0. split; [|by rewrite Z.bits_0].
    rewrite lookup_app_l; [|rewrite length_replicate; unfold len in *; lia].
    apply lookup_replicate_2. unfold len in *. lia.
Qed.

Lemma mod_pow2_succ x s :
  0 <= s -> x mod 2 ^ (s + 1) = x mod 2 ^ s + Z.b2z (Z.testbit x s) * 2 ^ s.
Proof.
  intros Hs. rewrite Z.pow_add_r, Z.pow_1_r by lia.
  rewrite Z.rem_mul_r by (pose proof (Z.pow_pos_nonneg 2 s); lia).
  rewrite Z.testbit_spec' by done. lia.
Qed.

Lemma low_bits_0 bytes : low_bits bytes 0 = replicate (length bytes) 0.
Proof.
  apply list_eq. intros p. unfold low_bits. rewrite list_lookup_imap.
  destruct (bytes !! p) as [x|] eqn:E; cbn.
  - apply lookup_lt_Some in E as Hp. rewrite lookup_replicate_2 by done.
    f_equal. replace (Z.max 0 _) with 0 by (unfold len; lia).
    apply Z.mod_1_r.
  - apply lookup_ge_None in E. symmetry. apply lookup_replicate_None. lia.
Qed.

Lemma length_low_bits bytes i : length (low_bits bytes i) = length bytes.
Proof. apply length_imap. Qed.

(** One iteration of the loop of [boolArrayToBytes]. *)
Lemma low_bits_step bytes i x :
  0 <= i -> i / 8 < len bytes ->
  bytes !! Z.to_nat (len bytes - 1 - i / 8) = Some x -> byte_ok x ->
  low_bits bytes i !! Z.to_nat (len bytes - 1 - i / 8) = Some (x mod 2 ^ (i mod 8)) /\
  low_bits bytes (i + 1)
  = <[Z.to_nat (len bytes - 1 - i / 8) :=
        x mod 2 ^ (i mod 8) + Z.b2z (Z.testbit x (i mod 8)) * 2 ^ (i mod 8)]>
      (low_bits bytes i) /\
  0 <= x mod 2 ^ (i mod 8) + 2 ^ (i mod 8) < 256.
Proof.
  intros Hi Hq Hx Hbyte.
  pose proof (Z.div_pos i 8 Hi ltac:(lia)) as Hq0.
  pose proof (Z.mod_pos_bound i 8 ltac:(lia)) as Hs.
  pose proof (Z.div_mod i 8 ltac:(lia)) as Hdm.
  assert (Z.max 0 (Z.min 8 (i - 8 * (len bytes - 1
            - Z.of_nat (Z.to_nat (len bytes - 1 - i / 8))))) = i mod 8) as Hexp
    by lia.
  split; [|split].
  - unfold low_bits. rewrite list_lookup_imap, Hx. cbn. by rewrite Hexp.
  - apply list_eq. intros p.
    destruct (decide (p = Z.to_nat (len bytes - 1 - i / 8))) as [->|Hne].
    + rewrite list_lookup_insert_eq
        by (rewrite length_low_bits; by eapply lookup_lt_Some).
      unfold low_bits. rewrite list_lookup_imap, Hx. cbn. f_equal.
      replace (Z.max 0 _) with (i mod 8 + 1) by lia.
      apply mod_pow2_succ. lia.
    + rewrite list_lookup_insert_ne by done.
      unfold low_bits. rewrite !list_lookup_imap.
      destruct (bytes !! p) as [y|] eqn:E; [|done]. cbn. do 3 f_equal.
      apply lookup_lt_Some in E. unfold len in *. lia.
  - pose proof (Z.mod_pos_bound x (2 ^ (i mod 8))
                  (Z.pow_pos_nonneg 2 (i mod 8) ltac:(lia) ltac:(lia))).
    assert (2 ^ (i mod 8) <= 2 ^ 7) by (apply Z.pow_le_mono_r; lia).
    lia.
Qed.

Lemma setBits_spec bytes (k : nat) :
  forall i,
    Forall byte_ok bytes ->
    0 <= i -> i + Z.of_nat k <= 8 * len bytes ->
    forall bits,
    (forall d, (d < k)%nat -> exists x,
        bytes !! Z.to_nat (len bytes - 1 - (i + Z.of_nat d) / 8) = Some x /\
        bits !! d = Some (Z.testbit x ((i + Z.of_nat d) mod 8))) ->
    length bits = k ->
    setBits bits i (low_bits bytes i) = Done (low_bits bytes (i + Z.of_nat k)).
Proof.
  induction k as [|k IH]; intros i Hok Hi Hfit bits Hbits Hlen.
  - destruct bits; [|done]. cbn. by rewrite Z.add_0_r.
  - destruct bits as [|b bits]; [done|]. cbn [setBits].
    destruct (Hbits 0%nat ltac:(lia)) as (x & Hx & Hb).
    rewrite Z.add_0_r in Hx, Hb. cbn in Hb. injection Hb as ->.
    assert (i / 8 < len bytes) as Hq by (apply Z.div_lt_upper_bound; lia).
    assert (byte_ok x) as Hbyte.
    { rewrite Forall_forall in Hok. apply Hok. by eapply list_elem_of_lookup_2. }
    destruct (low_bits_step bytes i x Hi Hq Hx Hbyte) as (Hold & Hnext & Hrange).
    assert (setBits bits (i + 1) (low_bits bytes (i + 1))
            = Done (low_bits bytes (i + Z.of_nat (S k)))) as Hrest.
    { replace (i + Z.of_nat (S k)) with (i + 1 + Z.of_nat k) by lia.
      apply IH; [done|lia|lia| |by injection Hlen].
      intros d Hd. destruct (Hbits (S d) ltac:(lia)) as (y & Hy & Hbd).
      exists y. replace (i + 1 + Z.of_nat d) with (i + Z.of_nat (S d)) by lia.
      done. }
    pose proof (Z.div_pos i 8 Hi ltac:(lia)) as Hq0.
    pose proof (Z.mod_pos_bound i 8 ltac:(lia)) as Hs.
    rewrite Z.quot_div_nonneg, Z.rem_mod_nonneg by lia.
    assert (len (low_bits bytes i) = len bytes) as Hl
      by (unfold len; by rewrite length_low_bits).
    rewrite Hl.
    replace (len bytes - i / 8 - 1) with (len bytes - 1 - i / 8) by lia.
    destruct (Z.testbit x (i mod 8)) eqn:Ebit.
    + rewrite (index_Done _ _ (len bytes - 1 - i / 8) _ ltac:(lia) Hold). cbn [mbind outcome_bind].
      rewrite store_Done by lia. cbn [mbind outcome_bind].
      rewrite Z.shiftl_1_l, Z.mod_small by lia.
      cbn [Z.b2z] in Hnext. rewrite Z.mul_1_l in Hnext.
      rewrite <- Hnext. exact Hrest.
    + cbn [mbind outcome_bind mret outcome_ret].
      cbn [Z.b2z] in Hnext. rewrite Z.mul_0_l, Z.add_0_r in Hnext.
      rewrite list_insert_id in Hnext by done. rewrite <- Hnext. exact Hrest.
Qed.

Lemma low_bits_full bytes n :
  Forall byte_ok bytes ->
  8 * len bytes - 8 < n ->
  (forall x, bytes !! 0%nat = Some x -> x < 2 ^ Z.min 8 (n - 8 * (len bytes - 1))) ->
  low_bits bytes n = bytes.
Proof.
  intros Hok Hn Htop. apply list_eq. intros p. unfold low_bits.
  rewrite list_lookup_imap. destruct (bytes !! p) as [x|] eqn:E; [|done].
  cbn. f_equal.
  assert (byte_ok x) as [Hx0 Hx].
  { rewrite Forall_forall in Hok. apply Hok. by eapply list_elem_of_lookup_2. }
  apply lookup_lt_Some in E as Hp.
  destruct p as [|p].
  - specialize (Htop x E). apply Z.mod_small.
    replace (len bytes - 1 - Z.of_nat 0) with (len bytes - 1) by lia.
    rewrite Z.max_r by lia. lia.
  - replace (Z.max 0 _) with 8 by (unfold len in *; lia).
    apply Z.mod_small. lia.
Qed.

Lemma boolArrayToBytes_spec buf n :
  0 <= n -> Int.in_range (n + 7) -> Forall byte_ok buf -> 8 * len buf <= n ->
  boolArrayToBytes (spec_var_bits buf n)
  = Done (zero_extend ((n + 7) / 8) buf).
Proof.
  intros Hn Hrange Hok Hfit. unfold boolArrayToBytes.
  set (m := (n + 7) / 8).
  assert (len (spec_var_bits buf n) = n) as Hlen.
  { unfold len, spec_var_bits. rewrite length_fmap, length_seqZ. lia. }
  rewrite Hlen, add_small by done. rewrite Z.quot_div_nonneg by lia. fold m.
  assert (n <= 8 * m /\ 8 * m - 8 < n) as [Hm1 Hm2].
  { pose proof (Z.div_mod (n + 7) 8 ltac:(lia)).
    pose proof (Z.mod_pos_bound (n + 7) 8 ltac:(lia)). lia. }
  assert (len buf <= m) as Hbm by lia.
  pose proof (length_zero_extend m buf Hbm) as Hzl.
  pose proof (zero_extend_ok m buf Hok) as Hzok.
  unfold make. rewrite decide_True by lia. cbn [mbind outcome_bind].
  replace (replicate (Z.to_nat m) 0) with (low_bits (zero_extend m buf) 0).
  2:{ rewrite low_bits_0. f_equal. unfold len in Hzl. lia. }
  rewrite (setBits_spec (zero_extend m buf) (Z.to_nat n) 0 Hzok);
    [|lia|lia| |unfold len in Hlen; lia].
  - f_equal. rewrite Z.add_0_l, Z2Nat.id by done.
    apply low_bits_full; [done|lia|].
    intros x Hx. rewrite Hzl. unfold zero_extend in Hx.
    destruct (decide (len buf = m)) as [Heq|Hne].
    + rewrite Z.min_l by lia.
      assert (byte_ok x) as [_ ?]; [|lia].
      rewrite Forall_forall in Hzok. apply Hzok.
      by eapply list_elem_of_lookup_2.
    + rewrite lookup_app_l in Hx by (rewrite length_replicate; lia).
      apply lookup_replicate in Hx as [-> _].
      apply Z.pow_pos_nonneg; lia.
  - intros d Hd. rewrite Z.add_0_l, Hzl.
    destruct (spec_bit_zero_extend m buf (Z.of_nat d)) as (x & Hx & Hb);
      [lia|apply Z.div_lt_upper_bound; lia|done|].
    exists x. split; [done|]. unfold spec_var_bits.
    rewrite list_lookup_fmap, lookup_seqZ_lt by lia. cbn [fmap option_fmap option_map].
    by rewrite Z.add_0_l, Hb.
Qed.

(** ** Evaluator: identity circuits *)

Section identity.
Context (circ : Circuit) (bits : list bool).

Lemma memo_wires_visit st g :
  memo_wires circ bits st ->
  memo_wires circ bits
    (mkScratch (<[Z.to_nat g := true]> (visited st)) (calculated st) (values st)).
Proof.
  intros (Hv & Hc & Hl & Hm). repeat split; cbn; try done.
  by rewrite length_insert.
Qed.

Lemma memo_wires_store st g k bit :
  0 <= g -> wire_of circ g = Some k -> bits !! Z.to_nat k = Some bit ->
  memo_wires circ bits st ->
  memo_wires circ bits
    (mkScratch (visited st) (<[Z.to_nat g := true]> (calculated st))
               (<[Z.to_nat g := bit]> (values st))).
Proof.
  intros Hg Hwire Hbit (Hv & Hc & Hl & Hm). repeat split; cbn;
    rewrite ?length_insert; try done.
  intros h k' bit' Hh Hwire' Hbit'.
  destruct (decide (Z.to_nat g = Z.to_nat h)) as [Heq|Hne].
  - assert (h = g) as -> by lia. intros Hcal.
    apply lookup_lt_Some in Hcal. rewrite length_insert in Hcal.
    rewrite list_lookup_insert_eq by lia. congruence.
  - rewrite !list_lookup_insert_ne by done. by apply (Hm h k' bit').
Qed.

Lemma eval_range st g gate :
  memo_wires circ bits st -> 0 <= g -> Gates circ !! Z.to_nat g = Some gate ->
  0 <= g < len (visited st) /\ 0 <= g < len (calculated st) /\
  0 <= g < len (values st) /\ 0 <= g < len (Gates circ).
Proof.
  intros (Hv & Hc & Hl & _) Hg Hgate. apply lookup_lt_Some in Hgate.
  unfold len. lia.
Qed.

Lemma eval_input fuel k gate bit st :
  memo_wires circ bits st -> 0 <= k ->
  Gates circ !! Z.to_nat k = Some gate -> GateType gate = GateINPUT ->
  bits !! Z.to_nat k = Some bit -> off_stack st k ->
  wp False (evaluateGate (S fuel) circ bits k) st
     (fun r st' => r = (true, bit) /\ memo_wires circ bits st').
Proof.
  intros Hinv Hk Hgate Hkind Hbit Hoff.
  assert (wire_of circ k = Some k) as Hwire.
  { unfold wire_of. rewrite Hgate. cbn. by rewrite decide_True. }
  apply evaluateGate_rule; [right; by eapply eval_range|].
  intros v c _ Hv Hc.
  assert (c = true -> forall r, values st !! Z.to_nat k = Some r ->
            (true, r) = (true, bit) /\ memo_wires circ bits st) as Hmemo.
  { intros -> r Hr. split; [|done]. destruct Hinv as (_ & _ & _ & Hm).
    specialize (Hm k k bit Hk Hwire Hbit Hc). congruence. }
  destruct v, c; try (by apply Hmemo).
  - specialize (Hoff Hv). congruence.
  - intros gate' Hgate' st1. assert (gate' = gate) as -> by congruence.
    rewrite decide_False by (intros Hne; by apply Hne).
    unfold eval_finish, gateSwitch. rewrite decide_True by done.
    rewrite (index_Done _ _ _ bit Hk Hbit). cbn.
    pose proof (memo_wires_visit st k Hinv) as Hinv1. fold st1 in Hinv1.
    destruct (eval_range st1 k gate Hinv1 Hk Hgate) as (_ & ? & ? & _).
    split; [by right|]. split; [done|].
    exact (memo_wires_store st1 k k bit Hk Hwire Hbit Hinv1).
Qed.

Lemma eval_pass fuel g gate p k bit st :
  memo_wires circ bits st -> 0 <= g ->
  Gates circ !! Z.to_nat g = Some gate ->
  GateType gate = GateCOPY \/ GateType gate = GateOUTPUT ->
  InFrom gate = [p] ->
  wire_of circ g = Some k -> bits !! Z.to_nat k = Some bit -> off_stack st g ->
  wp False (evaluateGate fuel circ bits p)
     (mkScratch (<[Z.to_nat g := true]> (visited st)) (calculated st) (values st))
     (fun r st' => r = (true, bit) /\ memo_wires circ bits st') ->
  wp False (evaluateGate (S fuel) circ bits g) st
     (fun r st' => r = (true, bit) /\ memo_wires circ bits st').
Proof.
  intros Hinv Hg Hgate Hkind Hin Hwire Hbit Hoff Hrec.
  apply evaluateGate_rule; [right; by eapply eval_range|].
  intros v c _ Hv Hc.
  assert (c = true -> forall r, values st !! Z.to_nat g = Some r ->
            (true, r) = (true, bit) /\ memo_wires circ bits st) as Hmemo.
  { intros -> r Hr. split; [|done]. destruct Hinv as (_ & _ & _ & Hm).
    specialize (Hm g k bit Hg Hwire Hbit Hc). congruence. }
  destruct v, c; try (by apply Hmemo).
  - specialize (Hoff Hv). congruence.
  - intros gate' Hgate' st1. assert (gate' = gate) as -> by congruence.
    rewrite decide_True by (destruct Hkind as [-> | ->]; discriminate).
    rewrite Hin. split; [right; done|].
    intros p0 [= <-]. eapply wp_mono; [exact Hrec|].
    intros [s1 r1] st2 [[= -> ->] Hinv2].
    rewrite decide_False by done.
    unfold eval_finish.
    assert (gateSwitch gate g bits true bit false false = Done (true, bit)) as ->.
    { unfold gateSwitch. rewrite Hin.
      destruct Hkind as [Hk|Hk]; rewrite Hk; reflexivity. }
    cbn. destruct (eval_range st2 g gate Hinv2 Hg Hgate) as (_ & ? & ? & _).
    split; [by right|]. split; [done|].
    exact (memo_wires_store st2 g k bit Hg Hwire Hbit Hinv2).
Qed.

Lemma eval_wire n k bit fuel st :
  is_identity circ n -> 0 <= k < n -> bits !! Z.to_nat k = Some bit ->
  memo_wires circ bits st ->
  (forall g, visited st !! g <> Some true) ->
  wp False (evaluateGate (S (S (S fuel))) circ bits (n + k)) st
     (fun r st' => r = (true, bit) /\ memo_wires circ bits st').
Proof.
  intros Hid Hk Hbit Hinv Hnone.
  destruct (id_wiring _ _ Hid k Hk)
    as (gi & go & gc & c & Hgi & Hki & Hgo & Hko & Hino & Hc & Hgc & Hkc & Hinc).
  assert (wire_of circ k = Some k) as Hwk.
  { unfold wire_of. rewrite Hgi. cbn. by rewrite decide_True. }
  assert (wire_of circ c = Some k) as Hwc.
  { unfold wire_of. rewrite Hgc. cbn. rewrite Hkc, Hinc. reflexivity. }
  assert (wire_of circ (n + k) = Some k) as Hwo.
  { unfold wire_of. rewrite Hgo. cbn. rewrite Hko, Hino. cbn.
    rewrite Hgc. cbn. rewrite Hkc, Hinc. reflexivity. }
  assert (Z.to_nat c <> Z.to_nat (n + k)) as Hne1.
  { intros Heq. rewrite Heq in Hgc. assert (gc = go) as -> by congruence.
    rewrite Hkc in Hko. discriminate. }
  assert (Z.to_nat k <> Z.to_nat (n + k)) as Hne2.
  { intros Heq. rewrite Heq in Hgi. assert (gi = go) as -> by congruence.
    rewrite Hki in Hko. discriminate. }
  assert (Z.to_nat k <> Z.to_nat c) as Hne3.
  { intros Heq. rewrite Heq in Hgi. assert (gi = gc) as -> by congruence.
    rewrite Hki in Hkc. discriminate. }
  eapply (eval_pass _ (n + k) go c k bit); try done; [lia|by right| |].
  { intros Hv. by apply Hnone in Hv. }
  pose proof (memo_wires_visit st (n + k) Hinv) as Hinv1.
  eapply (eval_pass _ c gc k k bit); try done; [by left| |].
  { intros Hv. cbn in Hv. rewrite list_lookup_insert_ne in Hv by done.
    by apply Hnone in Hv. }
  match goal with |- wp _ _ ?st2 _ => set (st1 := st2) end.
  eapply (eval_input _ k gi bit); try done; [|lia|].
  - apply (memo_wires_visit _ c Hinv1).
  - intros Hv. cbn in Hv. rewrite !list_lookup_insert_ne in Hv by done.
    by apply Hnone in Hv.
Qed.

Lemma evaluateOutputs_identity n :
  is_identity circ n -> len bits = n -> Int.in_range (len (Gates circ)) ->
  forall (m : nat) i result st,
    0 <= i -> i + Z.of_nat m = n -> memo_wires circ bits st ->
    len result = n ->
    take (Z.to_nat i) result = take (Z.to_nat i) bits ->
    evaluateOutputs circ bits (seqZ i (Z.of_nat m)) st result
    = Done (true, Some bits).
Proof.
  intros Hid Hbits Hmem. induction m as [|m IH];
    intros i result st Hi Him Hinv Hres Htake.
  - rewrite seqZ_nil by lia. cbn. do 3 f_equal.
    rewrite <- (take_ge result (Z.to_nat i)), <- (take_ge bits (Z.to_nat i))
      by (unfold len in *; lia). done.
  - rewrite seqZ_cons by lia. cbn [evaluateOutputs].
    assert (0 <= i < n) as Hin by lia.
    destruct (id_wiring _ _ Hid i Hin)
      as (gi & go & gc & c & Hgi & Hki & Hgo & Hko & Hino & Hc & Hgc & Hkc & Hinc).
    assert (is_Some (bits !! Z.to_nat i)) as [bit Hbit].
    { apply lookup_lt_is_Some. unfold len in *. lia. }
    apply lookup_lt_Some in Hgo as Hlo. apply lookup_lt_Some in Hgi as Hli.
    assert (getOutputGate circ i = n + i) as ->.
    { unfold getOutputGate. rewrite (id_inputs _ _ Hid). apply add_small.
      unfold Int.in_range, Int.half, len in *. lia. }
    destruct (length (Gates circ)) as [|[|f]] eqn:Elen; [lia|lia|].
    destruct Hinv as (Hv & Hcl & Hvl & Hm).
    match goal with |- context [evaluateGate _ _ _ _ ?s] => set (st1 := s) end.
    assert (memo_wires circ bits st1) as Hinv1.
    { repeat split; cbn; rewrite ?length_replicate; done. }
    assert (forall g, visited st1 !! g <> Some true) as Hnone.
    { intros g Hg. cbn in Hg. apply lookup_replicate in Hg as [? _]. done. }
    pose proof (eval_wire n i bit f st1 Hid Hin Hbit Hinv1 Hnone) as Hrun.
    unfold wp in Hrun.
    destruct (evaluateGate (S (S (S f))) circ bits (n + i) st1)
      as [[r st2]| |]; [|done..].
    destruct Hrun as [-> Hinv2].
    cbn [mbind outcome_bind]. rewrite store_Done by lia.
    cbn [mbind outcome_bind].
    replace (Z.pred (Z.of_nat (S m))) with (Z.of_nat m) by lia.
    apply IH; [lia|lia|done| |].
    + unfold len in *. by rewrite length_insert.
    + replace (Z.to_nat (Z.succ i)) with (S (Z.to_nat i)) by lia.
      rewrite (take_S_r bits _ bit Hbit).
      erewrite take_S_r.
      2:{ apply list_lookup_insert_eq. unfold len in *. lia. }
      rewrite take_insert_ge by lia. by rewrite Htake.
Qed.

Lemma EvaluateCircuit_identity n :
  is_identity circ n -> 0 < n -> len bits = n ->
  Int.in_range (len (Gates circ)) ->
  EvaluateCircuit circ bits = Done (true, Some bits).
Proof.
  intros Hid Hn Hbits Hmem. unfold EvaluateCircuit.
  rewrite (id_inputs _ _ Hid), (id_outputs _ _ Hid).
  rewrite decide_False by lia. unfold make. rewrite decide_True by lia.
  cbn [mbind outcome_bind].
  rewrite <- (Z2Nat.id n) at 1 by lia.
  apply (evaluateOutputs_identity n Hid Hbits Hmem); try done.
  - lia.
  - repeat split; cbn; rewrite ?length_replicate; try done.
    intros g k bit _ _ _ Hg. apply lookup_replicate in Hg as [? _]. done.
  - unfold len. rewrite length_replicate. lia.
Qed.
End identity.

(** ** The round trip through an identity circuit *)

Lemma DecodeOutputVariables_identity circ n buf :
  is_identity circ n -> 0 <= n -> Int.in_range (n + 7) ->
  Forall byte_ok buf -> 8 * len buf <= n ->
  DecodeOutputVariables circ (spec_var_bits buf n)
  = Done (Some [zero_extend ((n + 7) / 8) buf]).
Proof.
  intros Hid Hn Hrange Hok Hfit.
  assert (len (spec_var_bits buf n) = n) as Hlen.
  { unfold len. rewrite length_spec_var_bits. lia. }
  unfold DecodeOutputVariables.
  rewrite (id_outputs _ _ Hid), (id_out_vars _ _ Hid), Hlen.
  rewrite decide_False by (intros Hne; by apply Hne).
  change (make ([] : list Z) 1) with (Done [[] : list Z]).
  cbn [mbind outcome_bind].
  change (seqZ 0 1) with [0]. cbn [decodeVars].
  rewrite (id_out_wires _ _ Hid).
  change (index SNumWiresOV [n] 0) with (Done n : outcome Z).
  cbn [mbind outcome_bind].
  rewrite add_small by (unfold Int.in_range, Int.half in *; lia).
  unfold subslice. rewrite Hlen, decide_True by lia.
  cbn [mbind outcome_bind]. rewrite Z.add_0_l, Z.sub_0_r.
  change (Z.to_nat 0) with 0%nat. rewrite drop_0.
  rewrite take_ge by (unfold len in Hlen; lia).
  rewrite boolArrayToBytes_spec by done. reflexivity.
Qed.

(** C3: for an identity circuit on [n >= 1] wires whose gate sequence fits
    in memory, and a buffer of bytes whose bit-length does not exceed [n],
    packing the buffer, evaluating the circuit and unpacking the result
    succeeds and gives the buffer zero-padded in front to [ceil(n/8)] bytes,
    the minimal byte count for [n] wires; that is the buffer itself when it
    already has that many bytes. *)
Theorem identity_roundtrip circ n buf :
  is_identity circ n -> 0 < n -> Int.in_range (len (Gates circ)) ->
  Forall byte_ok buf -> 8 * len buf <= n ->
  roundTrip circ [buf] = Done (Some [zero_extend ((n + 7) / 8) buf]) /\
  (len buf = (n + 7) / 8 -> roundTrip circ [buf] = Done (Some [buf])).
Proof.
  intros Hid Hn Hmem Hok Hfit.
  assert (n + n <= len (Gates circ)) as Hgates.
  { destruct (id_wiring _ _ Hid (n - 1) ltac:(lia))
      as (_ & go & _ & _ & _ & _ & Hgo & _).
    apply lookup_lt_Some in Hgo. unfold len. lia. }
  assert (Int.in_range (n + 7)) as Hn7
    by (unfold Int.in_range, Int.half in *; lia).
  assert (roundTrip circ [buf] = Done (Some [zero_extend ((n + 7) / 8) buf]))
    as Hrt.
  { unfold roundTrip.
    rewrite (PadInputs_fits circ [buf]).
    - cbn [mbind outcome_bind].
      assert (spec_pack (NumWiresIV circ) [buf] (NumInputWires circ)
              = spec_var_bits buf n) as ->.
      { rewrite (id_in_wires _ _ Hid), (id_inputs _ _ Hid). unfold spec_pack.
        cbn [zip_with concat]. rewrite app_nil_r, length_spec_var_bits.
        rewrite Nat.sub_diag. apply app_nil_r. }
      rewrite (EvaluateCircuit_identity circ _ n Hid Hn);
        [|unfold len; rewrite length_spec_var_bits; lia|done].
      cbn [mbind outcome_bind].
      apply (DecodeOutputVariables_identity circ n buf Hid); (done || lia).
    - rewrite (id_inputs _ _ Hid). unfold Int.in_range, Int.half in *. lia.
    - by rewrite (id_in_vars _ _ Hid), (id_in_wires _ _ Hid).
    - rewrite (id_in_wires _ _ Hid). apply Forall_singleton. lia.
    - rewrite (id_in_wires _ _ Hid), (id_inputs _ _ Hid). cbn. lia.
    - apply Forall_singleton. unfold Int.in_range, Int.half, len in *. lia.
    - by rewrite (id_in_vars _ _ Hid).
    - rewrite (id_in_wires _ _ Hid). intros [|i] b w Hb Hw; [|done].
      cbn in Hb, Hw. simplify_eq. done. }
  split; [done|]. intros Hfull. rewrite Hrt. unfold zero_extend.
  rewrite <- Hfull, Z.sub_diag. reflexivity.
Qed.

Lemma identity8_is_identity : is_identity identity8 8.
Proof.
  split; try reflexivity. intros k Hk.
  assert (k ∈ seqZ 0 8) as Hin by (apply elem_of_seqZ; lia).
  change (seqZ 0 8) with [0; 1; 2; 3; 4; 5; 6; 7] in Hin.
  rewrite !elem_of_cons, elem_of_nil in Hin.
  destruct_or!; try done; subst k; do 3 eexists;
    [exists 16|exists 17|exists 18|exists 19
    |exists 20|exists 21|exists 22|exists 23];
    repeat split; try reflexivity; lia.
Qed.

Lemma identity_roundtrip_witness :
  roundTrip identity8 [[5]] = Done (Some [[5]]).
Proof.
  apply (identity_roundtrip identity8 8 [5]).
  - apply identity8_is_identity.
  - lia.
  - vm_compute. split; [discriminate|reflexivity].
  - apply Forall_singleton. unfold byte_ok. lia.
  - vm_compute. discriminate.
  - reflexivity.
Defined.

Lemma PadInputs_spec_witness :
  PadInputsToBoolArray eightWire [[5]]
  = Done (Some (spec_pack [8] [[5]] 8)).
Proof.
  refine (proj1 (proj2 (proj2 (PadInputs_spec eightWire [[5]] _ _ _ _ _))) _ _).
  - vm_compute. split; [discriminate|reflexivity].
  - reflexivity.
  - apply Forall_singleton. vm_compute. discriminate.
  - reflexivity.
  - apply Forall_singleton. vm_compute. split; [discriminate|reflexivity].
  - vm_compute. discriminate.
  - intros [|i] b w Hb Hw; [|done]. cbn in Hb, Hw. simplify_eq.
    vm_compute. discriminate.
Defined.

(** ** Evaluator: what a circuit computes *)

Lemma unary_fun_kind t a b :
  unary_fun t a = Some b -> t <> GateINPUT /\ t <> GateCONST.
Proof.
  unfold unary_fun. repeat case_decide; try done; intros _;
    destruct_or?; subst; split; discriminate.
Qed.

Lemma binary_fun_kind t a b c :
  binary_fun t a b = Some c -> t <> GateINPUT /\ t <> GateCONST.
Proof.
  unfold binary_fun. repeat case_decide; try done; intros _;
    subst; split; discriminate.
Qed.

Lemma gateSwitch_input gate g inputs s1 r1 s2 r2 :
  GateType gate = GateINPUT ->
  gateSwitch gate g inputs s1 r1 s2 r2
  = (r ← index SInputs inputs g; mret (true, r)).
Proof. intros H. unfold gateSwitch. by rewrite decide_True. Qed.

Lemma gateSwitch_unary gate g inputs p a b s2 r2 :
  InFrom gate = [p] -> unary_fun (GateType gate) a = Some b ->
  gateSwitch gate g inputs true a s2 r2 = Done (true, b).
Proof.
  intros Hin Hf. destruct gate as [t cv inf]. cbn in *. subst inf.
  unfold unary_fun in Hf.
  repeat case_decide; simplify_eq; destruct_or?; subst; reflexivity.
Qed.

Lemma gateSwitch_binary gate g inputs p q a b c :
  InFrom gate = [p; q] -> binary_fun (GateType gate) a b = Some c ->
  gateSwitch gate g inputs true a true b = Done (true, c).
Proof.
  intros Hin Hf. destruct gate as [t cv inf]. cbn in *. subst inf.
  unfold binary_fun in Hf.
  repeat case_decide; simplify_eq; reflexivity.
Qed.

(** What a successful [switch] returned. *)
Lemma gateSwitch_result gate g inputs s1 r1 s2 r2 result :
  gateSwitch gate g inputs s1 r1 s2 r2 = Done (true, result) ->
  (GateType gate = GateINPUT /\ 0 <= g /\ inputs !! Z.to_nat g = Some result) \/
  GateType gate = GateCONST \/
  (len (InFrom gate) = 1 /\ s1 = true /\
   unary_fun (GateType gate) r1 = Some result) \/
  (len (InFrom gate) = 2 /\ s1 = true /\ s2 = true /\
   binary_fun (GateType gate) r1 r2 = Some result).
Proof.
  intros H. destruct (decide (GateType gate = GateINPUT)) as [Hk|Hk].
  - left. rewrite gateSwitch_input in H by done. munfold.
    destruct (index SInputs inputs g) as [r| |] eqn:E; [|done..].
    apply index_inv in E as [? ?]. injection H as <-. done.
  - right. unfold gateSwitch in H. rewrite decide_False in H by done.
    destruct gate as [t cv inf]. cbn [GateType InFrom] in *. munfold.
    repeat case_decide; try discriminate; try subst t;
      destruct s1, s2; cbn in H; simplify_eq;
      first [ by left
            | right; left; by repeat split
            | right; right; by repeat split ].
Qed.

Section semantics.
Context (circ : Circuit) (inputs : list bool).

Lemma denotes_Grounded g b : denotes circ inputs g b -> Grounded circ g.
Proof.
  induction 1 as [g gate b Hg Hgate Hk Hb
                 |g gate p a b Hg Hgate Hin _ IH Hf
                 |g gate p q a b c Hg Hgate Hin _ IHp _ IHq Hf];
    apply (Grounded_gate circ g gate Hg Hgate); intros Hne x Hx.
  - done.
  - rewrite Hin in Hx. apply list_elem_of_singleton in Hx as ->. done.
  - rewrite Hin, !elem_of_cons, elem_of_nil in Hx.
    destruct Hx as [->|[->|[]]]; done.
Qed.

Lemma denotes_fun g b b' :
  denotes circ inputs g b -> denotes circ inputs g b' -> b = b'.
Proof.
  intros H. revert b'.
  induction H as [g gate b Hg Hgate Hk Hb
                 |g gate p a b Hg Hgate Hin _ IH Hf
                 |g gate p q a b c Hg Hgate Hin _ IHp _ IHq Hf];
    intros b' H'; inversion H' as [? gate' ? _ Hgate' Hk' Hb'
                                  |? gate' p' a' ? _ Hgate' Hin' Hp' Hf'
                                  |? gate' p' q' a' b'' ? _ Hgate' Hin' Hp' Hq' Hf'];
    subst; assert (gate' = gate) as -> by congruence.
  - congruence.
  - apply unary_fun_kind in Hf' as [? _]. done.
  - apply binary_fun_kind in Hf' as [? _]. done.
  - apply unary_fun_kind in Hf as [? _]. done.
  - rewrite Hin in Hin'. injection Hin' as <-.
    rewrite <- (IH _ Hp') in Hf'. congruence.
  - congruence.
  - apply binary_fun_kind in Hf as [? _]. done.
  - congruence.
  - rewrite Hin in Hin'. injection Hin' as <- <-.
    rewrite <- (IHp _ Hp'), <- (IHq _ Hq') in Hf'. congruence.
Qed.

Lemma memo_denotes_insert st g r :
  0 <= g -> (Z.to_nat g < length (values st))%nat ->
  memo_denotes circ inputs st -> denotes circ inputs g r ->
  memo_denotes circ inputs
    (mkScratch (visited st) (<[Z.to_nat g := true]> (calculated st))
               (<[Z.to_nat g := r]> (values st))).
Proof.
  intros Hpos Hlt Hinv Hg h Hh. cbn [calculated values].
  destruct (decide (Z.to_nat g = Z.to_nat h)) as [Heq|Hne].
  - intros _. assert (h = g) as -> by lia. exists r.
    by rewrite list_lookup_insert_eq.
  - rewrite !list_lookup_insert_ne by done. by apply Hinv.
Qed.

Lemma scratch_sized_range st g gate :
  scratch_sized circ st -> 0 <= g -> Gates circ !! Z.to_nat g = Some gate ->
  0 <= g < len (visited st) /\ 0 <= g < len (calculated st) /\
  0 <= g < len (values st) /\ 0 <= g < len (Gates circ).
Proof.
  intros (Hv & Hc & Hl) Hg Hgate. apply lookup_lt_Some in Hgate.
  unfold len. lia.
Qed.

Lemma denotes_gate g b :
  denotes circ inputs g b ->
  0 <= g /\ exists gate, Gates circ !! Z.to_nat g = Some gate.
Proof. destruct 1; eauto. Qed.

Lemma evaluateGate_complete fuel :
  forall g b st,
    denotes circ inputs g b ->
    (unvisited (visited st) < fuel)%nat ->
    scratch_sized circ st ->
    memo_denotes circ inputs st ->
    (forall h, 0 <= h -> on_stack st h -> tc (edge circ) h g) ->
    wp False (evaluateGate fuel circ inputs g) st (evaluated circ inputs g b st).
Proof.
  induction fuel as [|fuel IH]; intros g b st Hden Hfuel Hsz Hmemo Hstack; [lia|].
  destruct (denotes_gate g b Hden) as [Hg [gate Hgate]].
  apply evaluateGate_rule; [right; by eapply scratch_sized_range|].
  intros v c _ Hv Hc.
  assert (c = true -> forall r, values st !! Z.to_nat g = Some r ->
            evaluated circ inputs g b st (true, r) st) as Hcached.
  { intros -> r Hr. destruct (Hmemo g Hg Hc) as (r' & Hr' & Hd).
    assert (r' = r) as -> by congruence.
    rewrite (denotes_fun g r b Hd Hden).
    unfold evaluated. split; [done|]. split; [apply marks_kept_refl|].
    split; [done|]. split; [done|]. auto. }
  destruct v, c; try (by apply Hcached).
  { exfalso. apply (Grounded_acyclic circ g (denotes_Grounded g b Hden)).
    by apply Hstack. }
  intros gate' Hgate' st1. assert (gate' = gate) as -> by congruence.
  assert (marks_kept (visited st) (visited st1)) as H01
    by apply marks_kept_insert.
  assert (unvisited (visited st1) < fuel)%nat as Hfuel1.
  { subst st1. cbn [visited]. rewrite (unvisited_insert _ _ Hv) in Hfuel. lia. }
  assert (scratch_sized circ st1) as Hsz1.
  { destruct Hsz as (? & ? & ?). repeat split; cbn; try done.
    by rewrite length_insert. }
  assert (memo_denotes circ inputs st1) as Hmemo1 by done.
  assert (forall p, p ∈ InFrom gate -> GateType gate <> GateINPUT ->
            forall h, 0 <= h -> on_stack st1 h -> tc (edge circ) h p) as Hstack1.
  { intros p Hp Hk h Hh [Hvh Hch].
    assert (edge circ g p) as Hedge by (exists gate; done).
    destruct (decide (Z.to_nat g = Z.to_nat h)) as [Heq|Hne].
    - assert (h = g) as -> by lia. by apply tc_once.
    - cbn in Hvh, Hch. rewrite list_lookup_insert_ne in Hvh by done.
      eapply tc_r; [|exact Hedge]. apply Hstack; [done|]. by split. }
  assert (forall h, on_stack st1 h -> Z.to_nat h <> Z.to_nat g -> on_stack st h)
    as Hback.
  { intros h [Hvh Hch] Hne. cbn in Hvh, Hch.
    rewrite list_lookup_insert_ne in Hvh by done. by split. }
  (* finishing a gate whose predecessors are evaluated *)
  assert (forall s1 r1 s2 r2 st',
    gateSwitch gate g inputs s1 r1 s2 r2 = Done (true, b) ->
    marks_kept (visited st1) (visited st') -> scratch_sized circ st' ->
    memo_denotes circ inputs st' ->
    (forall h, on_stack st' h -> on_stack st1 h) ->
    eval_finish False gate g inputs (evaluated circ inputs g b st)
      s1 r1 s2 r2 st') as Hfin.
  { intros s1 r1 s2 r2 st' Hsw Hkept Hsz' Hmemo' Hsub.
    unfold eval_finish. rewrite Hsw. cbn.
    destruct (scratch_sized_range st' g gate Hsz' Hg Hgate) as (_ & ? & ? & _).
    split; [by right|]. unfold evaluated. split; [done|].
    split; [cbn; eauto using marks_kept_trans|].
    split; [destruct Hsz' as (? & ? & ?); repeat split; cbn;
            rewrite ?length_insert; done|].
    split.
    - apply memo_denotes_insert; try done. unfold len in *. lia.
    - intros h [Hvh Hch]. cbn in Hvh, Hch.
      destruct (decide (Z.to_nat g = Z.to_nat h)) as [Heq|Hne].
      + rewrite <- Heq, list_lookup_insert_eq in Hch by (unfold len in *; lia).
        done.
      + rewrite list_lookup_insert_ne in Hch by done.
        apply Hback; [|done]. apply Hsub. by split. }
  inversion Hden as [? gate0 ? _ Hgate0 Hk Hb
                    |? gate0 p a ? _ Hgate0 Hin Hp Hf
                    |? gate0 p q a a' ? _ Hgate0 Hin Hp Hq Hf]; subst;
    assert (gate0 = gate) as -> by congruence.
  - rewrite decide_False by (intros Hne; by apply Hne).
    apply Hfin; try done; [|apply marks_kept_refl].
    rewrite gateSwitch_input by done. by rewrite (index_Done _ _ _ b Hg Hb).
  - destruct (unary_fun_kind _ _ _ Hf) as [Hk _].
    rewrite decide_True by done. rewrite Hin. split; [by right|].
    intros p0 [= <-].
    eapply wp_mono; [apply (IH p a st1 Hp Hfuel1 Hsz1 Hmemo1)|].
    + apply Hstack1; [rewrite Hin; apply list_elem_of_here|done].
    + intros r st2 (-> & H12 & Hsz2 & Hmemo2 & Hsub2).
      rewrite decide_False by done.
      apply Hfin; try done. by eapply gateSwitch_unary.
  - destruct (binary_fun_kind _ _ _ _ Hf) as [Hk _].
    rewrite decide_True by done. rewrite Hin. split; [by right|].
    intros p0 [= <-].
    eapply wp_mono; [apply (IH p a st1 Hp Hfuel1 Hsz1 Hmemo1)|].
    + apply Hstack1; [rewrite Hin; apply list_elem_of_here|done].
    + intros r st2 (-> & H12 & Hsz2 & Hmemo2 & Hsub2).
      rewrite decide_True by done. intros p1 [= <-].
      eapply wp_mono; [apply (IH q a' st2 Hq)|]; try done.
      * pose proof (unvisited_mono _ _ H12). lia.
      * intros h Hh Hon. apply Hstack1;
          [rewrite Hin; apply list_elem_of_further, list_elem_of_here
          |done|done|by apply Hsub2].
      * intros r st3 (-> & H23 & Hsz3 & Hmemo3 & Hsub3).
        apply Hfin; try done; [by eapply gateSwitch_binary
                              |eauto using marks_kept_trans|auto].
Qed.

Lemma evaluateGate_correct fuel :
  const_leaves circ ->
  forall g st,
    (unvisited (visited st) < fuel)%nat ->
    scratch_sized circ st -> memo_denotes circ inputs st ->
    wp True (evaluateGate fuel circ inputs g) st
       (fun '(success, r) st' =>
          marks_kept (visited st) (visited st') /\
          scratch_sized circ st' /\ memo_denotes circ inputs st' /\
          (success = true -> denotes circ inputs g r)).
Proof.
  intros Hconst. induction fuel as [|fuel IH];
    intros g st Hfuel Hsz Hmemo; [lia|].
  apply evaluateGate_rule; [by left|].
  intros v c Hg Hv Hc. destruct v, c.
  1,3: intros r Hr; split; [apply marks_kept_refl|]; split; [done|];
       split; [done|]; intros _;
       destruct (Hmemo g Hg Hc) as (r' & Hr' & Hd); congruence.
  1: split; [apply marks_kept_refl|]; split; [done|]; by split.
  intros gate Hgate st1.
  assert (marks_kept (visited st) (visited st1)) as H01
    by apply marks_kept_insert.
  assert (unvisited (visited st1) < fuel)%nat as Hfuel1.
  { subst st1. cbn [visited]. rewrite (unvisited_insert _ _ Hv) in Hfuel. lia. }
  assert (scratch_sized circ st1) as Hsz1.
  { destruct Hsz as (? & ? & ?). repeat split; cbn; try done.
    by rewrite length_insert. }
  assert (memo_denotes circ inputs st1) as Hmemo1 by done.
  assert (forall s1 r1 s2 r2 st',
    marks_kept (visited st) (visited st') -> scratch_sized circ st' ->
    memo_denotes circ inputs st' ->
    (GateType gate <> GateINPUT -> s1 = true ->
       forall p0, InFrom gate !! 0%nat = Some p0 -> denotes circ inputs p0 r1) ->
    (GateType gate <> GateINPUT -> len (InFrom gate) = 2 -> s2 = true ->
       forall p1, InFrom gate !! 1%nat = Some p1 -> denotes circ inputs p1 r2) ->
    (GateType gate <> GateINPUT -> InFrom gate <> []) ->
    eval_finish True gate g inputs
      (fun '(success, r) st' =>
         marks_kept (visited st) (visited st') /\
         scratch_sized circ st' /\ memo_denotes circ inputs st' /\
         (success = true -> denotes circ inputs g r))
      s1 r1 s2 r2 st') as Hfin.
  { intros s1 r1 s2 r2 st' Hkept Hsz' Hmemo' H0 H1 Hne. unfold eval_finish, wpo.
    pose proof (gateSwitch_not_fuel gate g inputs s1 r1 s2 r2).
    destruct (gateSwitch gate g inputs s1 r1 s2 r2) as [[[] result]| |] eqn:Esw;
      [| |done..]; [|done].
    split; [by left|].
    assert (denotes circ inputs g result) as Hden.
    { apply gateSwitch_result in Esw.
      destruct Esw as [(Hk & _ & Hb)|[Hk|[(Hl & -> & Hf)|(Hl & -> & -> & Hf)]]].
      - by eapply denotes_input.
      - exfalso. apply Hne; [rewrite Hk; discriminate|].
        apply (Hconst gate); [by eapply list_elem_of_lookup_2|done].
      - destruct (unary_fun_kind _ _ _ Hf) as [Hk _].
        destruct (InFrom gate) as [|p0 [|]] eqn:E;
          try (unfold len in Hl; cbn in Hl; lia).
        eapply denotes_unary; try done. by apply (H0 Hk eq_refl).
      - destruct (binary_fun_kind _ _ _ _ Hf) as [Hk _].
        destruct (InFrom gate) as [|p0 [|p1 [|]]] eqn:E;
          try (unfold len in Hl; cbn in Hl; lia).
        eapply denotes_binary; try done;
          [by apply (H0 Hk eq_refl)|by apply (H1 Hk Hl eq_refl)]. }
    destruct (scratch_sized_range st' g gate Hsz' Hg Hgate) as (_ & ? & ? & _).
    split; [done|].
    split; [destruct Hsz' as (? & ? & ?); repeat split; cbn;
            rewrite ?length_insert; done|].
    split; [|done]. apply memo_denotes_insert; try done. unfold len in *. lia. }
  case_decide as Hk.
  - split; [by left|]. intros p0 Hp0.
    eapply wp_mono; [apply (IH p0 st1 Hfuel1 Hsz1 Hmemo1)|].
    intros [s1 r1] st2 (H12 & Hsz2 & Hmemo2 & Hs1). case_decide as Hl.
    + intros p1 Hp1. eapply wp_mono; [apply (IH p1 st2)|]; try done.
      * pose proof (unvisited_mono _ _ H12). lia.
      * intros [s2 r2] st3 (H23 & Hsz3 & Hmemo3 & Hs2).
        apply Hfin; [eauto using marks_kept_trans|done|done| | |];
          intros; simplify_eq; auto.
        intros E. by rewrite E in Hp0.
    + apply Hfin; [eauto using marks_kept_trans|done|done| | |];
        intros; simplify_eq; auto.
      intros E. by rewrite E in Hp0.
  - apply Hfin; done.
Qed.
End semantics.

Lemma scratch_fresh circ inputs n :
  n = length (Gates circ) ->
  let st := mkScratch (replicate n false) (replicate n false)
                      (replicate n false) in
  scratch_sized circ st /\ memo_denotes circ inputs st.
Proof.
  intros -> st. split.
  - repeat split; cbn; by rewrite length_replicate.
  - intros h _ Hh. cbn in Hh. apply lookup_replicate in Hh as [? _]. done.
Qed.

Lemma evaluateOutputs_complete circ inputs outs :
  (forall i b, outs !! i = Some b ->
     denotes circ inputs (getOutputGate circ (Z.of_nat i)) b) ->
  forall (m : nat) i result st,
    0 <= i -> i + Z.of_nat m = len outs ->
    scratch_sized circ st -> memo_denotes circ inputs st ->
    len result = len outs ->
    take (Z.to_nat i) result = take (Z.to_nat i) outs ->
    evaluateOutputs circ inputs (seqZ i (Z.of_nat m)) st result
    = Done (true, Some outs).
Proof.
  intros Hden. induction m as [|m IH];
    intros i result st Hi Him Hsz Hmemo Hres Htake.
  - rewrite seqZ_nil by lia. cbn. do 3 f_equal.
    rewrite <- (take_ge result (Z.to_nat i)), <- (take_ge outs (Z.to_nat i))
      by (unfold len in *; lia). done.
  - rewrite seqZ_cons by lia. cbn [evaluateOutputs].
    assert (is_Some (outs !! Z.to_nat i)) as [b Hb].
    { apply lookup_lt_is_Some. unfold len in *. lia. }
    pose proof (Hden _ _ Hb) as Hd. rewrite Z2Nat.id in Hd by done.
    match goal with |- context [evaluateGate _ _ _ _ ?s] => set (st1 := s) end.
    assert (scratch_sized circ st1) as Hsz1.
    { destruct Hsz as (Hv & ? & ?). repeat split; cbn; try done.
      by rewrite length_replicate. }
    assert (wp False
              (evaluateGate (S (length (Gates circ))) circ inputs
                            (getOutputGate circ i)) st1
              (evaluated circ inputs (getOutputGate circ i) b st1)) as Hrun.
    { apply evaluateGate_complete; try done.
      - cbn [visited st1]. rewrite unvisited_replicate.
        destruct Hsz as (-> & _). lia.
      - intros h _ [Hv _]. cbn in Hv.
        apply lookup_replicate in Hv as [? _]. done. }
    unfold wp in Hrun.
    destruct (evaluateGate _ circ inputs (getOutputGate circ i) st1)
      as [[r st2]| |]; [|done..].
    destruct Hrun as (-> & _ & Hsz2 & Hmemo2 & _).
    cbn [mbind outcome_bind]. rewrite store_Done by lia.
    cbn [mbind outcome_bind].
    replace (Z.pred (Z.of_nat (S m))) with (Z.of_nat m) by lia.
    apply IH; [lia|lia|done|done| |].
    + unfold len in *. by rewrite length_insert.
    + replace (Z.to_nat (Z.succ i)) with (S (Z.to_nat i)) by lia.
      rewrite (take_S_r outs _ b Hb).
      erewrite take_S_r.
      2:{ apply list_lookup_insert_eq. unfold len in *. lia. }
      rewrite take_insert_ge by lia. by rewrite Htake.
Qed.

(** X2: when the input vector has [NumInputWires] entries, there is at
    least one output wire, and the boolean function the circuit wires up
    gives the gate of every output wire a value ([Input] gates read the
    input vector at their own index, [Output] and [Copy] gates pass their
    predecessor's value on, [Not], [And], [Or] and [Xor] gates apply their
    operation), [EvaluateCircuit] returns success and exactly these values,
    in the order of the output wires. *)
Theorem EvaluateCircuit_complete circ inputBits outs :
  len inputBits = NumInputWires circ ->
  1 <= NumOutputWires circ ->
  len outs = NumOutputWires circ ->
  (forall i b, outs !! i = Some b ->
     denotes circ inputBits (getOutputGate circ (Z.of_nat i)) b) ->
  EvaluateCircuit circ inputBits = Done (true, Some outs).
Proof.
  intros Hin Hout Hlen Hden. unfold EvaluateCircuit.
  rewrite decide_False by lia. unfold make. rewrite decide_True by lia.
  cbn [mbind outcome_bind].
  destruct (scratch_fresh circ inputBits (length (Gates circ)) eq_refl)
    as [Hsz Hmemo].
  rewrite <- (Z2Nat.id (NumOutputWires circ)) at 1 by lia.
  apply (evaluateOutputs_complete circ inputBits outs Hden); try done.
  - lia.
  - unfold len in *. rewrite length_replicate. lia.
Qed.

Lemma evaluateOutputs_correct circ inputs :
  const_leaves circ ->
  forall (m : nat) i result st,
    0 <= i ->
    scratch_sized circ st -> memo_denotes circ inputs st ->
    (forall j b, Z.of_nat j < i -> result !! j = Some b ->
       denotes circ inputs (getOutputGate circ (Z.of_nat j)) b) ->
    wpo True (evaluateOutputs circ inputs (seqZ i (Z.of_nat m)) st result)
        (fun '(ok, r) =>
           if (ok : bool) then
             exists outs, r = Some outs /\ length outs = length result /\
               forall j b, Z.of_nat j < i + Z.of_nat m -> outs !! j = Some b ->
                 denotes circ inputs (getOutputGate circ (Z.of_nat j)) b
           else r = None).
Proof.
  intros Hconst. induction m as [|m IH]; intros i result st Hi Hsz Hmemo Hres.
  - rewrite seqZ_nil by lia. cbn. exists result. split; [done|].
    split; [done|]. intros j b Hj. apply Hres. lia.
  - rewrite seqZ_cons by lia. cbn [evaluateOutputs]. wp_step. apply wp_run.
    match goal with |- wp _ _ ?s _ => set (st1 := s) end.
    assert (scratch_sized circ st1) as Hsz1.
    { destruct Hsz as (Hv & ? & ?). repeat split; cbn; try done.
      by rewrite length_replicate. }
    eapply wp_mono; [apply (evaluateGate_correct circ inputs _ Hconst)|];
      [|exact Hsz1|done|].
    + cbn [visited st1]. rewrite unvisited_replicate.
      destruct Hsz as (-> & _). lia.
    + intros [success resultBit] st2 (_ & Hsz2 & Hmemo2 & Hsucc).
      wp_step. apply wpo_store; [by left|]. intros Hrange.
      destruct success; [|done].
      replace (Z.pred (Z.of_nat (S m))) with (Z.of_nat m) by lia.
      eapply wpo_mono; [apply (IH (Z.succ i) _ st2); try done; try lia|].
      * intros j b Hj Hjb.
        destruct (decide (j = Z.to_nat i)) as [->|Hne].
        -- rewrite list_lookup_insert_eq in Hjb by (unfold len in *; lia).
           injection Hjb as <-. rewrite Z2Nat.id by done. by apply Hsucc.
        -- rewrite list_lookup_insert_ne in Hjb by done. apply Hres; [lia|done].
      * intros [[] r]; [|done]. intros (outs & -> & Hlen & Hall).
        exists outs. split; [done|]. rewrite length_insert in Hlen.
        split; [done|]. intros j b Hj. apply Hall. lia.
Qed.

(** X3: when no [Const] gate lists a predecessor, whatever
    [EvaluateCircuit] returns is right: with the success flag it returns
    [NumOutputWires] bits, the input vector had [NumInputWires] entries, and
    bit [i] is the value the circuit's boolean function gives the gate of
    output wire [i]; without the flag it returns no bits ([nil]). *)
Theorem EvaluateCircuit_correct circ inputBits ok r :
  const_leaves circ ->
  EvaluateCircuit circ inputBits = Done (ok, r) ->
  if ok then
    exists outs, r = Some outs /\ len outs = NumOutputWires circ /\
      len inputBits = NumInputWires circ /\
      forall i b, outs !! i = Some b ->
        denotes circ inputBits (getOutputGate circ (Z.of_nat i)) b
  else r = None.
Proof.
  intros Hconst. unfold EvaluateCircuit.
  case_decide as Hshape; [by intros [= <- <-]|].
  unfold make. rewrite decide_True by lia. cbn [mbind outcome_bind].
  destruct (scratch_fresh circ inputBits (length (Gates circ)) eq_refl)
    as [Hsz Hmemo].
  intros Hrun.
  pose proof (evaluateOutputs_correct circ inputBits Hconst
                (Z.to_nat (NumOutputWires circ)) 0
                (replicate (Z.to_nat (NumOutputWires circ)) false) _
                ltac:(done) Hsz Hmemo) as Hloop.
  rewrite Z2Nat.id in Hloop by lia. rewrite Hrun in Hloop. cbn in Hloop.
  lapply Hloop; [clear Hloop; intros Hloop|intros j b Hj; lia].
  destruct ok; [|done].
  destruct Hloop as (outs & -> & Hlen & Hall). exists outs.
  rewrite length_replicate in Hlen.
  split; [done|]. split; [unfold len; lia|]. split; [lia|].
  intros i b Hb. apply Hall; [|done].
  apply lookup_lt_Some in Hb. lia.
Qed.

Lemma nand_denotes a b : denotes nand [a; b] 2 (negb (a && b)).
Proof.
  eapply denotes_unary; [lia|reflexivity|reflexivity| |reflexivity].
  eapply denotes_unary; [lia|reflexivity|reflexivity| |reflexivity].
  eapply denotes_binary; [lia|reflexivity|reflexivity| | |reflexivity].
  - eapply denotes_input; [lia|reflexivity|reflexivity|reflexivity].
  - eapply denotes_input; [lia|reflexivity|reflexivity|reflexivity].
Defined.

Lemma nand_const_leaves : const_leaves nand.
Proof.
  intros gate Hin. unfold nand in Hin. cbn [Gates] in Hin.
  rewrite !elem_of_cons, elem_of_nil in Hin.
  destruct Hin as [->|[->|[->|[->|[->|[]]]]]]; cbn; done.
Defined.

Lemma EvaluateCircuit_complete_witness :
  EvaluateCircuit nand [true; true] = Done (true, Some [false]).
Proof.
  apply (EvaluateCircuit_complete nand [true; true] [false]).
  - reflexivity.
  - vm_compute. discriminate.
  - reflexivity.
  - intros [|i] b Hb; [|destruct i; discriminate].
    injection Hb as <-. apply (nand_denotes true true).
Defined.

Lemma EvaluateCircuit_correct_witness :
  exists outs, Some [true] = Some outs /\ len outs = NumOutputWires nand /\
    len [true; false] = NumInputWires nand /\
    forall i b, outs !! i = Some b ->
      denotes nand [true; false] (getOutputGate nand (Z.of_nat i)) b.
Proof.
  apply (EvaluateCircuit_correct nand [true; false] true (Some [true])).
  - exact nand_const_leaves.
  - reflexivity.
Defined.

(** ** Builder: layout, failures, and the circuits it produces *)

Lemma known_kind_range t : known_kind t <-> 0 <= t <= 7.
Proof.
  unfold known_kind, GateINPUT, GateOUTPUT, GateAND, GateOR, GateNOT, GateXOR,
    GateCONST, GateCOPY.
  rewrite !elem_of_cons, elem_of_nil. lia.
Qed.

Lemma arity_violated_unknown t n :
  ~ known_kind t ->
  arity_violated t n = Panic (IndexOutOfRange SMinInputWires t).
Proof.
  rewrite known_kind_range. intros Ht. unfold arity_violated, index.
  munfold. case_decide as H0; [|done].
  rewrite (proj2 (lookup_ge_None min_input_wires (Z.to_nat t))); [done|].
  cbn. lia.
Qed.

(** X4: a gate kind outside the eight of the table makes [addGate] stop on
    the look-up in [min_input_wires], whatever the predecessor list. *)
Theorem addGate_unknown_kind t constVal inFrom circ :
  ~ known_kind t ->
  addGate t constVal inFrom circ = Panic (IndexOutOfRange SMinInputWires t).
Proof.
  intros Ht. unfold addGate. munfold. by rewrite arity_violated_unknown.
Qed.

Lemma addGate_unknown_kind_witness :
  addGate 8 false [] emptyCircuit = Panic (IndexOutOfRange SMinInputWires 8).
Proof.
  apply (addGate_unknown_kind 8 false [] emptyCircuit).
  rewrite known_kind_range. lia.
Defined.

(** The three ways a call of [addGate] ends. *)
Lemma addGate_cases t constVal inFrom circ :
  (~ known_kind t /\ exists f, addGate t constVal inFrom circ = Panic f) \/
  (known_kind t /\ bad_arity (mkGate t constVal inFrom) /\
   addGate t constVal inFrom circ = Done (-1, circ)) \/
  (known_kind t /\ ~ bad_arity (mkGate t constVal inFrom) /\
   addGate t constVal inFrom circ
   = Done (len (Gates circ),
           set_Gates (Gates circ ++ [mkGate t constVal inFrom]) circ)).
Proof.
  destruct (decide (known_kind t)) as [Hk|Hk].
  - right. apply known_kind_table in Hk as Hk'. destruct Hk' as (lo & hi & Ht).
    unfold addGate. munfold. rewrite (arity_violated_table _ _ _ _ Ht).
    case_bool_decide as Hbad.
    + left. split; [done|]. split; [|done]. by exists lo, hi.
    + right. split; [done|]. split.
      * intros (lo' & hi' & Ht' & Hbad'). cbn in Ht', Hbad'.
        destruct (table_functional _ _ _ _ _ Ht Ht') as [<- <-]. done.
      * cbn. do 2 f_equal. unfold len. rewrite length_app. cbn. lia.
  - left. split; [done|]. eexists. unfold addGate. munfold.
    by rewrite arity_violated_unknown.
Qed.

Lemma bind_Done {S A B} (m : M S A) (k : A -> M S B) s a s' :
  m s = Done (a, s') -> (m ≫= k) s = k a s'.
Proof. intros H. unfold mbind, M_bind. by rewrite H. Qed.

Lemma repeatM_addGate (n : nat) t circ :
  (t, 0, 0) ∈ spec_arity_table \/ (t, 0, 1) ∈ spec_arity_table ->
  repeatM n (addGate t false [];; mret tt) circ
  = Done (tt, set_Gates (Gates circ ++ replicate n (mkGate t false [])) circ).
Proof.
  intros Ht. revert circ. induction n as [|n IH]; intros circ.
  - cbn. rewrite app_nil_r. by destruct circ.
  - cbn [repeatM].
    rewrite (bind_Done _ _ circ tt
               (set_Gates (Gates circ ++ [mkGate t false []]) circ)).
    + rewrite IH. cbn. by rewrite <- app_assoc.
    + unfold addGate. munfold.
      assert (arity_violated t (len ([] : list Z)) = Done false) as ->.
      { destruct Ht as [Ht|Ht]; rewrite (arity_violated_table _ _ _ _ Ht);
          f_equal; apply bool_decide_eq_false; cbn; lia. }
      reflexivity.
Qed.

(** [initializeCircuit] on any receiver: the gates the receiver holds
    stay in front. *)
Lemma initializeCircuit_run nIn nOut nIV nOV wIV wOV circ :
  initializeCircuit nIn nOut nIV nOV wIV wOV circ
  = Done (tt, mkCircuit nIn nOut nIV wIV nOV wOV
                (Gates circ
                 ++ replicate (Z.to_nat nIn) (mkGate GateINPUT false [])
                 ++ replicate (Z.to_nat nOut) (mkGate GateOUTPUT false []))).
Proof.
  unfold initializeCircuit.
  erewrite bind_Done; [|reflexivity].
  erewrite bind_Done; [|reflexivity].
  erewrite bind_Done.
  2:{ apply repeatM_addGate. left. unfold spec_arity_table.
      rewrite !elem_of_cons. naive_solver. }
  rewrite repeatM_addGate
    by (right; unfold spec_arity_table; rewrite !elem_of_cons; naive_solver).
  cbn. by rewrite <- app_assoc.
Qed.

(** X5: on a fresh receiver [initializeCircuit] never fails; it sets the
    six counts and lays out [nIn + nOut] gates, so that [getInputGate k] is
    an [Input] gate for every input wire [k] and [getOutputGate k] an
    [Output] gate for every output wire [k], none with a predecessor. *)
Theorem initializeCircuit_layout nIn nOut nIV nOV wIV wOV :
  0 <= nIn -> 0 <= nOut -> nIn + nOut < 2 ^ 63 ->
  exists circ,
    initializeCircuit nIn nOut nIV nOV wIV wOV emptyCircuit = Done (tt, circ) /\
    NumInputWires circ = nIn /\ NumOutputWires circ = nOut /\
    NumInputVars circ = nIV /\ NumOutputVars circ = nOV /\
    NumWiresIV circ = wIV /\ NumWiresOV circ = wOV /\
    len (Gates circ) = nIn + nOut /\
    (forall k, 0 <= k < nIn ->
       Gates circ !! Z.to_nat (getInputGate circ k)
       = Some (mkGate GateINPUT false [])) /\
    (forall k, 0 <= k < nOut ->
       Gates circ !! Z.to_nat (getOutputGate circ k)
       = Some (mkGate GateOUTPUT false [])).
Proof.
  intros HnIn HnOut Hint. eexists. split; [apply initializeCircuit_run|].
  cbn. repeat (split; [done|]). split; [|split].
  - unfold len. rewrite length_app, !length_replicate. lia.
  - intros k Hk. unfold getInputGate.
    rewrite lookup_app_l by (rewrite length_replicate; lia).
    apply lookup_replicate_2. lia.
  - intros k Hk. unfold getOutputGate. cbn [NumInputWires].
    rewrite add_small by (unfold Int.in_range, Int.half; lia).
    rewrite lookup_app_r; rewrite length_replicate; [|lia].
    apply lookup_replicate_2. lia.
Qed.

Lemma initializeCircuit_layout_witness :
  exists circ,
    initializeCircuit 2 1 1 1 [2] [1] emptyCircuit = Done (tt, circ) /\
    NumInputWires circ = 2 /\ NumOutputWires circ = 1 /\
    NumInputVars circ = 1 /\ NumOutputVars circ = 1 /\
    NumWiresIV circ = [2] /\ NumWiresOV circ = [1] /\
    len (Gates circ) = 2 + 1 /\
    (forall k, 0 <= k < 2 ->
       Gates circ !! Z.to_nat (getInputGate circ k)
       = Some (mkGate GateINPUT false [])) /\
    (forall k, 0 <= k < 1 ->
       Gates circ !! Z.to_nat (getOutputGate circ k)
       = Some (mkGate GateOUTPUT false [])).
Proof. apply (initializeCircuit_layout 2 1 1 1 [2] [1]); lia. Defined.

Lemma table_input : (GateINPUT, 0, 0) ∈ spec_arity_table.
Proof. unfold spec_arity_table. rewrite !elem_of_cons. naive_solver. Qed.

Lemma table_output : (GateOUTPUT, 0, 1) ∈ spec_arity_table.
Proof. unfold spec_arity_table. rewrite !elem_of_cons. naive_solver. Qed.

Lemma arity_ok_intro g lo hi :
  (GateType g, lo, hi) ∈ spec_arity_table -> lo <= len (InFrom g) <= hi ->
  known_kind (GateType g) /\ ~ bad_arity g.
Proof.
  intros Ht Hn. split; [apply known_kind_table; eauto|].
  intros (lo' & hi' & Ht' & Hbad).
  destruct (table_functional _ _ _ _ _ Ht Ht') as [<- <-]. lia.
Qed.

Lemma well_built_init nIn nOut nIV nOV wIV wOV :
  0 <= nIn -> 0 <= nOut -> nIn + nOut < 2 ^ 63 ->
  well_built (mkCircuit nIn nOut nIV wIV nOV wOV
                (replicate (Z.to_nat nIn) (mkGate GateINPUT false [])
                 ++ replicate (Z.to_nat nOut) (mkGate GateOUTPUT false []))).
Proof.
  intros HnIn HnOut Hint. split; cbn; try done.
  - unfold len. rewrite length_app, !length_replicate. lia.
  - intros k Hk. exists (mkGate GateOUTPUT false []). split; [|done].
    rewrite lookup_app_r; rewrite length_replicate; [|lia].
    apply lookup_replicate_2. lia.
  - apply Forall_app. split; apply Forall_replicate.
    + apply (arity_ok_intro (mkGate GateINPUT false []) _ _ table_input).
      unfold len. cbn. lia.
    + apply (arity_ok_intro (mkGate GateOUTPUT false []) _ _ table_output).
      unfold len. cbn. lia.
Qed.

Lemma well_built_addGate t constVal inFrom circ r circ' :
  well_built circ -> addGate t constVal inFrom circ = Done (r, circ') ->
  well_built circ'.
Proof.
  intros Hwb Hrun.
  destruct (addGate_cases t constVal inFrom circ)
    as [(_ & f & E)|[(_ & _ & E)|(Hk & Hok & E)]];
    rewrite E in Hrun; [done| |]; injection Hrun as <- <-; [done|].
  destruct Hwb as [H1 H2 H3 H4 H5 H6]. split; cbn; try done.
  - unfold len in *. rewrite length_app. cbn. lia.
  - intros k Hk'. destruct (H5 k Hk') as (gate & Hg & Hty).
    exists gate. split; [|done]. by apply lookup_app_l_Some.
  - apply Forall_app. split; [done|]. by apply Forall_singleton.
Qed.

Lemma well_built_connect gateNum outputNum circ r circ' :
  well_built circ -> 0 <= outputNum < NumOutputWires circ ->
  connectOutputWire gateNum outputNum circ = Done (r, circ') ->
  well_built circ'.
Proof.
  intros Hwb Ho Hrun. destruct Hwb as [H1 H2 H3 H4 H5 H6].
  destruct (H5 outputNum Ho) as (slot & Hslot & Hty).
  assert (getOutputGate circ outputNum = NumInputWires circ + outputNum) as Hg.
  { unfold getOutputGate. apply add_small.
    unfold Int.in_range, Int.half. lia. }
  revert Hrun. unfold connectOutputWire. munfold. rewrite Hg.
  rewrite (index_Done SGates _ (NumInputWires circ + outputNum) _
             ltac:(lia) Hslot).
  case_decide as Hempty; [|by intros [= <- <-]].
  apply lookup_lt_Some in Hslot as Hlt.
  rewrite store_Done by (unfold len; lia). intros [= <- <-].
  split; cbn; try done.
  - unfold len in *. by rewrite length_insert.
  - intros k Hk. destruct (H5 k Hk) as (gate & Hgate & Hgty).
    destruct (decide (k = outputNum)) as [->|Hne].
    + rewrite list_lookup_insert_eq by done. eexists. split; [done|]. done.
    + rewrite list_lookup_insert_ne by lia. eauto.
  - apply Forall_insert; [done|].
    apply (arity_ok_intro _ 0 1); cbn; [rewrite Hty; apply table_output|].
    unfold len in *. rewrite length_app. cbn. lia.
Qed.

Lemma well_built_valid circ :
  well_built circ -> validCircuit circ = Done (true, circ).
Proof.
  intros [H1 H2 H3 H4 H5 H6]. unfold validCircuit. munfold.
  rewrite add_small by (unfold Int.in_range, Int.half; lia).
  destruct (Z.ltb_spec (len (Gates circ))
              (NumInputWires circ + NumOutputWires circ)); [lia|].
  destruct (validGates_spec (Gates circ)) as (b & -> & Hb).
  { eapply Forall_impl; [exact H6|]. by intros g [? _]. }
  destruct b; [done|]. destruct Hb as [Hb _]. specialize (Hb eq_refl).
  apply Exists_exists in Hb as (g & Hin & Hbad).
  rewrite Forall_forall in H6. by destruct (H6 g Hin).
Qed.

Lemma well_built_calls cs :
  forall circ r circ',
    well_built circ -> Forall (call_in_range (NumOutputWires circ)) cs ->
    run_calls cs circ = Done (r, circ') -> well_built circ'.
Proof.
  induction cs as [|c cs IH]; intros circ r circ' Hwb Hcs Hrun.
  - cbn in Hrun. by injection Hrun as _ <-.
  - apply Forall_cons in Hcs as [Hc Hcs]. cbn [run_calls] in Hrun.
    unfold mbind at 1, M_bind at 1 in Hrun.
    destruct (run_call c circ) as [[[] circ1]| |] eqn:Hstep; [|done..].
    assert (well_built circ1 /\ NumOutputWires circ1 = NumOutputWires circ)
      as [Hwb1 Hout].
    { destruct c as [t v l|t a b|g o]; cbn [run_call] in Hstep;
        unfold mbind at 1, M_bind at 1 in Hstep.
      - destruct (addGate t v l circ) as [[x c1]| |] eqn:E; [|done..].
        injection Hstep as <-. split; [by eapply well_built_addGate|].
        destruct (addGate_cases t v l circ)
          as [(_ & f & E')|[(_ & _ & E')|(_ & _ & E')]];
          rewrite E' in E; [done|by injection E as _ <-|by injection E as _ <-].
      - unfold addGate2 in Hstep.
        destruct (addGate t false [a; b] circ) as [[x c1]| |] eqn:E; [|done..].
        injection Hstep as <-. split; [by eapply well_built_addGate|].
        destruct (addGate_cases t false [a; b] circ)
          as [(_ & f & E')|[(_ & _ & E')|(_ & _ & E')]];
          rewrite E' in E; [done|by injection E as _ <-|by injection E as _ <-].
      - destruct (connectOutputWire g o circ) as [[x c1]| |] eqn:E; [|done..].
        injection Hstep as <-. split; [by eapply well_built_connect|].
        revert E. unfold connectOutputWire. munfold.
        destruct (index _ _ _) as [slot| |]; [|done..].
        case_decide; [|by intros [= _ <-]].
        destruct (store _ _ _ _); [|done..]. by intros [= _ <-]. }
    eapply (IH circ1); [done| |done]. by rewrite Hout.
Qed.

(** X6: a circuit built by [initializeCircuit] on a fresh receiver,
    followed by any calls of [addGate], [addGate2] and [connectOutputWire]
    that run to their end, is accepted by [validCircuit], when every
    [connectOutputWire] names one of the output wires. *)
Theorem built_valid nIn nOut nIV nOV wIV wOV cs circ :
  0 <= nIn -> 0 <= nOut -> nIn + nOut < 2 ^ 63 ->
  Forall (call_in_range nOut) cs ->
  build (initializeCircuit nIn nOut nIV nOV wIV wOV;; run_calls cs) = Done circ ->
  validCircuit circ = Done (true, circ).
Proof.
  intros HnIn HnOut Hint Hcs. unfold build.
  erewrite bind_Done; [|apply initializeCircuit_run].
  unfold mbind, outcome_bind.
  destruct (run_calls cs _) as [[[] c]| |] eqn:Hrun; [|done..].
  intros [= <-]. apply well_built_valid.
  eapply well_built_calls; [|  |exact Hrun]; [|exact Hcs].
  by apply well_built_init.
Qed.

Lemma built_valid_witness : validCircuit nand = Done (true, nand).
Proof.
  apply (built_valid 2 1 1 1 [2] [1]
           [CallAddGate2 GateAND 0 1; CallAddGate GateNOT false [3];
            CallConnect 4 0]).
  - lia.
  - lia.
  - reflexivity.
  - repeat constructor; lia.
  - reflexivity.
Defined.

(** X7: of the eight kinds, [addGate2] accepts exactly [And], [Or] and
    [Xor]: for these it appends the gate with the two predecessors in the
    order given and returns its index; for the other five it returns -1 and
    leaves the circuit as it was. *)
Theorem addGate2_kinds t inFrom1 inFrom2 circ :
  known_kind t ->
  (t = GateAND \/ t = GateOR \/ t = GateXOR ->
     addGate2 t inFrom1 inFrom2 circ
     = Done (len (Gates circ),
             set_Gates (Gates circ ++ [mkGate t false [inFrom1; inFrom2]]) circ)) /\
  (t <> GateAND /\ t <> GateOR /\ t <> GateXOR ->
     addGate2 t inFrom1 inFrom2 circ = Done (-1, circ)).
Proof.
  intros Hk. unfold addGate2.
  destruct (addGate_cases t false [inFrom1; inFrom2] circ)
    as [(Hn & _)|[(_ & Hbad & E)|(_ & Hok & E)]]; [done| |].
  - split; [|done]. intros Ht. exfalso.
    destruct Hbad as (lo & hi & Hin & Hbad). cbn in Hin, Hbad.
    revert Hin. unfold spec_arity_table. rewrite !elem_of_cons, elem_of_nil.
    unfold len in Hbad. cbn in Hbad.
    intros Hin. destruct_or!; simplify_eq; lia.
  - split; [done|]. intros (H1 & H2 & H3). exfalso. apply Hok.
    apply known_kind_table in Hk as (lo & hi & Hin). exists lo, hi.
    split; [done|]. revert Hin. unfold spec_arity_table.
    rewrite !elem_of_cons, elem_of_nil. unfold len. cbn.
    intros Hin. destruct_or!; simplify_eq; lia.
Qed.

Lemma addGate2_kinds_witness :
  addGate2 GateXOR 0 1 unwired
  = Done (2, set_Gates (Gates unwired ++ [mkGate GateXOR false [0; 1]]) unwired).
Proof.
  refine (proj1 (addGate2_kinds GateXOR 0 1 unwired _) _).
  - rewrite known_kind_range. unfold GateXOR. lia.
  - right. right. reflexivity.
Defined.

(** X8: [connectOutputWire] stops on the index into the gate sequence when
    gate [NumInputWires + outputNum] does not exist. *)
Theorem connectOutputWire_out_of_range gateNum outputNum circ :
  ~ (0 <= getOutputGate circ outputNum < len (Gates circ)) ->
  connectOutputWire gateNum outputNum circ
  = Panic (IndexOutOfRange SGates (getOutputGate circ outputNum)).
Proof.
  intros Hout. unfold connectOutputWire, index. munfold.
  case_decide; [|done].
  rewrite (proj2 (lookup_ge_None _ _)); [done|]. unfold len in Hout. lia.
Qed.

Lemma connectOutputWire_out_of_range_witness :
  connectOutputWire 0 1 unwired = Panic (IndexOutOfRange SGates 2).
Proof.
  apply (connectOutputWire_out_of_range 0 1 unwired). vm_compute.
  intros [_ H]. discriminate H.
Defined.

Lemma validCircuit_cases circ :
  Forall (fun g => known_kind (GateType g)) (Gates circ) ->
  exists b : bool,
    validCircuit circ = Done (b, circ) /\
    (b = true <->
       Int.add (NumInputWires circ) (NumOutputWires circ) <= len (Gates circ) /\
       Forall (fun g => ~ bad_arity g) (Gates circ)).
Proof.
  intros Hkinds. unfold validCircuit. munfold.
  destruct (Z.ltb_spec (len (Gates circ))
              (Int.add (NumInputWires circ) (NumOutputWires circ))) as [Hlt|Hge].
  - exists false. split; [done|]. split; [done|]. lia.
  - destruct (validGates_spec _ Hkinds) as (b & -> & Hb).
    exists b. split; [done|]. rewrite Forall_Exists_neg.
    destruct b.
    + split; [|done]. intros _. split; [done|].
      intros Hex. by apply Hb in Hex.
    + split; [done|]. intros [_ Hn]. exfalso. apply Hn. by apply Hb.
Qed.

(** X9: [connectOutputWire] does not look at the kind of the gate it
    wires.  On a circuit the validator accepts, a call that returns true
    leaves a circuit the validator still accepts exactly when the gate at
    [NumInputWires + outputNum] is an [Output] gate; an output number that
    lands on an [Input] or [Const] gate gives it a predecessor, and the
    validator rejects the result. *)
Theorem connectOutputWire_kind gateNum outputNum circ circ' slot :
  Forall (fun g => known_kind (GateType g)) (Gates circ) ->
  validCircuit circ = Done (true, circ) ->
  0 <= getOutputGate circ outputNum ->
  Gates circ !! Z.to_nat (getOutputGate circ outputNum) = Some slot ->
  connectOutputWire gateNum outputNum circ = Done (true, circ') ->
  exists b : bool,
    validCircuit circ' = Done (b, circ') /\
    (b = true <-> GateType slot = GateOUTPUT).
Proof.
  intros Hkinds Hvalid Hpos Hslot Hrun.
  destruct (validCircuit_cases circ Hkinds) as (b0 & E0 & Hb0).
  rewrite E0 in Hvalid. injection Hvalid as ->.
  destruct (proj1 Hb0 eq_refl) as [Hcount Harity]. clear Hb0 E0.
  apply lookup_lt_Some in Hslot as Hlt.
  revert Hrun. unfold connectOutputWire. munfold.
  rewrite (index_Done _ _ _ _ Hpos Hslot).
  case_decide as Hempty; [|done].
  rewrite store_Done by (unfold len; lia). intros [= <-].
  assert (InFrom slot = []) as Hnil.
  { destruct (InFrom slot); [done|]. unfold len in Hempty. cbn in Hempty. lia. }
  rewrite Hnil. cbn [app].
  set (slot' := set_InFrom [gateNum] slot).
  set (gs' := <[Z.to_nat (getOutputGate circ outputNum) := slot']> (Gates circ)).
  assert (Forall (fun g => known_kind (GateType g)) gs') as Hkinds'.
  { apply Forall_insert; [done|]. cbn.
    rewrite Forall_forall in Hkinds. apply Hkinds.
    by eapply list_elem_of_lookup_2. }
  destruct (validCircuit_cases (set_Gates gs' circ) Hkinds') as (b & E & Hb).
  exists b. split; [done|]. rewrite Hb. cbn [Gates set_Gates NumInputWires
    NumOutputWires]. clear Hb E.
  assert (~ bad_arity slot) as Hslot_ok.
  { rewrite Forall_forall in Harity. apply Harity.
    by eapply list_elem_of_lookup_2. }
  assert (known_kind (GateType slot)) as Hk.
  { rewrite Forall_forall in Hkinds. apply Hkinds.
    by eapply list_elem_of_lookup_2. }
  split.
  - intros [_ Hall]. rewrite Forall_forall in Hall.
    assert (~ bad_arity slot') as Hok'.
    { apply Hall. apply list_elem_of_lookup. eexists.
      apply list_lookup_insert_eq. done. }
    apply known_kind_table in Hk as (lo & hi & Hin).
    apply dec_stable. intros Hne. apply Hok'. exists lo, hi. cbn.
    split; [done|]. revert Hin. unfold spec_arity_table.
    rewrite !elem_of_cons, elem_of_nil. unfold len. cbn.
    intros Hin. right.
    destruct_or!; simplify_eq; try lia; try done;
      exfalso; apply Hslot_ok; eexists _, _;
      (split; [unfold spec_arity_table; rewrite !elem_of_cons;
               match goal with H : GateType slot = _ |- _ => rewrite H end;
               naive_solver|]);
      rewrite Hnil; unfold len; cbn; lia.
  - intros Hty. split.
    + unfold gs', len. rewrite length_insert. exact Hcount.
    + apply Forall_insert; [done|].
      refine (proj2 (arity_ok_intro slot' 0 1 _ _)).
      * cbn. rewrite Hty. apply table_output.
      * unfold len. cbn. lia.
Qed.

Lemma connectOutputWire_kind_witness :
  exists b : bool,
    validCircuit (set_Gates (<[0%nat := mkGate GateINPUT false [1]]>
                              (Gates unwired)) unwired)
    = Done (b, set_Gates (<[0%nat := mkGate GateINPUT false [1]]>
                            (Gates unwired)) unwired) /\
    (b = true <-> GateINPUT = GateOUTPUT).
Proof.
  apply (connectOutputWire_kind 1 (-1) unwired _ (mkGate GateINPUT false [])).
  - unfold unwired. cbn [Gates]. repeat (apply Forall_cons; split);
      [ cbn; rewrite known_kind_range; vm_compute; split; discriminate ..
      | apply Forall_nil_2 ].
  - reflexivity.
  - vm_compute. discriminate.
  - reflexivity.
  - reflexivity.
Defined.

(** ** Bit codec: any wire vector, and the failures *)

Lemma le_value_bound bits : 0 <= le_value bits < 2 ^ len bits.
Proof.
  induction bits as [|b bits IH]; [done|].
  unfold len in *. cbn [le_value length].
  rewrite Nat2Z.inj_succ, Z.pow_succ_r by lia.
  destruct b; cbn [Z.b2z]; lia.
Qed.

Lemma le_value_testbit bits (s : nat) :
  Z.testbit (le_value bits) (Z.of_nat s) = default false (bits !! s).
Proof.
  revert s. induction bits as [|b bits IH]; intros s.
  - cbn. apply Z.bits_0.
  - cbn [le_value]. destruct s as [|s].
    + cbn [lookup list_lookup default]. change (Z.of_nat 0) with 0.
      rewrite Z.add_comm, Z.testbit_0_r. done.
    + rewrite Nat2Z.inj_succ, Z.add_comm, Z.testbit_succ_r by lia.
      apply IH.
Qed.

Lemma length_bytes_of_bits bits :
  len (bytes_of_bits bits) = (len bits + 7) / 8.
Proof.
  unfold bytes_of_bits, len. rewrite length_fmap, length_seq.
  apply Z2Nat.id. apply Z.div_pos; lia.
Qed.

Lemma lookup_bytes_of_bits bits q :
  0 <= q < (len bits + 7) / 8 ->
  bytes_of_bits bits !! Z.to_nat ((len bits + 7) / 8 - 1 - q)
  = Some (le_value (take 8 (drop (8 * Z.to_nat q) bits))).
Proof.
  intros Hq. unfold bytes_of_bits. rewrite list_lookup_fmap.
  rewrite lookup_seq_lt by lia. cbn. do 4 f_equal. lia.
Qed.

Lemma bytes_of_bits_ok bits : Forall byte_ok (bytes_of_bits bits).
Proof.
  unfold bytes_of_bits. apply Forall_fmap, Forall_forall. intros p _. cbn.
  pose proof (le_value_bound (take 8 (drop (8 * (Z.to_nat ((len bits + 7) / 8)
                                                 - 1 - p)) bits))) as [H0 H1].
  split; [done|]. eapply Z.lt_le_trans; [exact H1|].
  change 256 with (2 ^ 8). apply Z.pow_le_mono_r; [lia|].
  unfold len. rewrite length_take. lia.
Qed.

(** Wire [j] is bit [j mod 8] of the byte [j/8] places before the last. *)
Lemma bytes_of_bits_bit bits j b :
  0 <= j -> bits !! Z.to_nat j = Some b ->
  j / 8 < (len bits + 7) / 8 /\
  exists x, bytes_of_bits bits !! Z.to_nat ((len bits + 7) / 8 - 1 - j / 8)
            = Some x /\
            Z.testbit x (j mod 8) = b.
Proof.
  intros Hj Hb. apply lookup_lt_Some in Hb as Hlt.
  pose proof (Z.div_pos j 8 Hj ltac:(lia)) as Hq0.
  pose proof (Z.mod_pos_bound j 8 ltac:(lia)) as Hs.
  pose proof (Z.div_mod j 8 ltac:(lia)) as Hdm.
  assert (j / 8 < (len bits + 7) / 8) as Hq.
  { apply Z.div_lt_upper_bound; [lia|].
    pose proof (Z.div_mod (len bits + 7) 8 ltac:(lia)).
    pose proof (Z.mod_pos_bound (len bits + 7) 8 ltac:(lia)).
    unfold len in *. lia. }
  split; [done|].
  eexists. split; [apply lookup_bytes_of_bits; lia|].
  rewrite <- (Z2Nat.id (j mod 8)) by lia. rewrite le_value_testbit.
  rewrite lookup_take_lt by lia. rewrite lookup_drop.
  replace (8 * Z.to_nat (j / 8) + Z.to_nat (j mod 8))%nat with (Z.to_nat j)
    by lia.
  by rewrite Hb.
Qed.

Lemma spec_var_bits_bytes_of_bits bits :
  spec_var_bits (bytes_of_bits bits) (len bits) = bits.
Proof.
  apply list_eq. intros d. unfold spec_var_bits.
  rewrite list_lookup_fmap.
  destruct (bits !! d) as [b|] eqn:Hb.
  - apply lookup_lt_Some in Hb as Hlt.
    rewrite lookup_seqZ_lt by (unfold len; lia). cbn. f_equal.
    rewrite Z.add_0_l. unfold spec_bit.
    destruct (bytes_of_bits_bit bits (Z.of_nat d) b ltac:(lia))
      as (Hq & x & Hx & Hbit); [by rewrite Nat2Z.id|].
    rewrite length_bytes_of_bits.
    rewrite decide_True by lia. by rewrite Hx.
  - apply lookup_ge_None in Hb.
    rewrite lookup_seqZ_ge by (unfold len; lia). done.
Qed.

Lemma boolArrayToBytes_run bits :
  Int.in_range (len bits + 7) ->
  boolArrayToBytes bits = Done (bytes_of_bits bits).
Proof.
  intros Hrange. unfold boolArrayToBytes.
  set (n := len bits). set (m := (n + 7) / 8).
  assert (0 <= n) as Hn by (unfold n, len; lia).
  rewrite add_small by done. rewrite Z.quot_div_nonneg by lia. fold m.
  assert (n <= 8 * m /\ 8 * m - 8 < n) as [Hm1 Hm2].
  { pose proof (Z.div_mod (n + 7) 8 ltac:(lia)).
    pose proof (Z.mod_pos_bound (n + 7) 8 ltac:(lia)). lia. }
  pose proof (length_bytes_of_bits bits) as Hlen. fold n m in Hlen.
  pose proof (bytes_of_bits_ok bits) as Hok.
  unfold make. rewrite decide_True by lia. cbn [mbind outcome_bind].
  replace (replicate (Z.to_nat m) 0) with (low_bits (bytes_of_bits bits) 0).
  2:{ rewrite low_bits_0. f_equal. unfold len in Hlen. lia. }
  rewrite (setBits_spec (bytes_of_bits bits) (Z.to_nat n) 0 Hok);
    [|lia|lia| |unfold n, len; lia].
  - f_equal. rewrite Z.add_0_l, Z2Nat.id by done.
    apply low_bits_full; [done|lia|].
    intros x Hx. rewrite Hlen.
    destruct (decide (m = 0)) as [Hm0|Hm0].
    { apply lookup_lt_Some in Hx. unfold len in Hlen. lia. }
    pose proof (lookup_bytes_of_bits bits (m - 1)) as Htop.
    fold n m in Htop. replace (m - 1 - (m - 1)) with 0 in Htop by lia.
    change (Z.to_nat 0) with 0%nat in Htop.
    rewrite Htop in Hx by lia. injection Hx as <-.
    match goal with |- le_value ?l < _ =>
      pose proof (le_value_bound l) as [_ Hb];
      assert (len l = Z.min 8 (n - 8 * (m - 1))) as Hl
    end.
    { unfold len. rewrite length_take, length_drop. unfold n, len in *. lia. }
    by rewrite Hl in Hb.
  - intros d Hd. rewrite Z.add_0_l, Hlen.
    assert (is_Some (bits !! d)) as [b Hb]
      by (apply lookup_lt_is_Some; unfold n, len in *; lia).
    destruct (bytes_of_bits_bit bits (Z.of_nat d) b ltac:(lia))
      as (_ & x & Hx & Hbit); [by rewrite Nat2Z.id|].
    exists x. fold n m in Hx. split; [done|]. by rewrite Hbit.
Qed.

(** X10: [boolArrayToBytes] never fails on a wire vector whose length plus
    seven is an [int]: it returns [ceil(n/8)] bytes, each below 256, from
    which every wire is read back as bit [j mod 8] of the byte [j/8] places
    before the last; the bits of the first byte beyond the [n] wires are
    zero. *)
Theorem boolArrayToBytes_bits bits :
  Int.in_range (len bits + 7) ->
  exists bytes,
    boolArrayToBytes bits = Done bytes /\
    len bytes = (len bits + 7) / 8 /\
    Forall byte_ok bytes /\
    spec_var_bits bytes (len bits) = bits /\
    (forall j, len bits <= j -> spec_bit bytes j = false).
Proof.
  intros Hrange. exists (bytes_of_bits bits).
  split; [by apply boolArrayToBytes_run|].
  split; [apply length_bytes_of_bits|]. split; [apply bytes_of_bits_ok|].
  split; [apply spec_var_bits_bytes_of_bits|].
  intros j Hj. unfold spec_bit. rewrite length_bytes_of_bits.
  case_decide as Hq; [|done].
  assert (0 <= j) as Hj0 by (unfold len in Hj; lia).
  pose proof (Z.div_pos j 8 Hj0 ltac:(lia)) as Hq0.
  pose proof (Z.mod_pos_bound j 8 ltac:(lia)) as Hs.
  pose proof (Z.div_mod j 8 ltac:(lia)) as Hdm.
  rewrite lookup_bytes_of_bits by lia.
  rewrite <- (Z2Nat.id (j mod 8)) by lia. rewrite le_value_testbit.
  rewrite (proj2 (lookup_ge_None _ _)); [done|].
  rewrite length_take, length_drop. unfold len in *. lia.
Qed.

Lemma boolArrayToBytes_bits_witness :
  exists bytes,
    boolArrayToBytes [true; false; true] = Done bytes /\
    len bytes = (len [true; false; true] + 7) / 8 /\
    Forall byte_ok bytes /\
    spec_var_bits bytes (len [true; false; true]) = [true; false; true] /\
    (forall j, len [true; false; true] <= j -> spec_bit bytes j = false).
Proof.
  apply (boolArrayToBytes_bits [true; false; true]).
  vm_compute. split; [discriminate|reflexivity].
Defined.

(** X11: the bytes [boolArrayToBytes] makes of [n] wires, given back to
    [PadInputsToBoolArray] as the buffer of an [n]-wire input variable:
    when [n] is a multiple of 8 the wires come back as they were; when it is
    not, the buffer has more bits than the variable has wires and the
    result is [nil]. *)
Theorem repack_bits circ bits bytes :
  NumInputWires circ = len bits -> NumInputVars circ = 1 ->
  NumWiresIV circ = [len bits] -> Int.in_range (len bits + 7) ->
  boolArrayToBytes bits = Done bytes ->
  (len bits mod 8 = 0 ->
     PadInputsToBoolArray circ [bytes] = Done (Some bits)) /\
  (len bits mod 8 <> 0 ->
     PadInputsToBoolArray circ [bytes] = Done None).
Proof.
  intros Hwires Hvars Hiv Hrange Hrun.
  rewrite boolArrayToBytes_run in Hrun by done. injection Hrun as <-.
  set (n := len bits) in *.
  assert (0 <= n) as Hn by (unfold n, len; lia).
  pose proof (length_bytes_of_bits bits) as Hlen. fold n in Hlen.
  pose proof (Z.div_mod (n + 7) 8 ltac:(lia)) as Hdm.
  pose proof (Z.mod_pos_bound (n + 7) 8 ltac:(lia)) as Hmb.
  pose proof (Z.div_mod n 8 ltac:(lia)) as Hdm'.
  pose proof (Z.mod_pos_bound n 8 ltac:(lia)) as Hmb'.
  unfold Int.in_range, Int.half in Hrange.
  split; intros Hmod.
  - assert (8 * len (bytes_of_bits bits) = n) as Hbits by lia.
    rewrite PadInputs_fits.
    + rewrite Hiv, Hwires. unfold spec_pack. cbn [zip_with concat].
      fold n. rewrite app_nil_r.
      pose proof (spec_var_bits_bytes_of_bits bits) as Hback. fold n in Hback.
      rewrite Hback.
      replace (Z.to_nat n - length bits)%nat with 0%nat
        by (unfold n, len; lia).
      cbn. by rewrite app_nil_r.
    + lia.
    + by rewrite Hiv, Hvars.
    + rewrite Hiv. apply Forall_singleton. lia.
    + rewrite Hiv. cbn. lia.
    + apply Forall_singleton. unfold Int.in_range, Int.half. lia.
    + rewrite Hvars. done.
    + rewrite Hiv. intros [|i] buf w Hb Hw; [|done]. cbn in Hb, Hw.
      simplify_eq. lia.
  - assert (n < 8 * len (bytes_of_bits bits)) as Hbits by lia.
    unfold PadInputsToBoolArray, make.
    rewrite decide_True by lia. cbn [mbind outcome_bind].
    rewrite Hvars. change (len [bytes_of_bits bits]) with 1.
    change (1 <? 1) with false. cbn [padBufs]. rewrite Hiv.
    change (index SNumWiresIV [n] 0) with (Done n : outcome Z).
    cbn [mbind outcome_bind].
    rewrite mul_small by (unfold Int.in_range, Int.half; lia).
    destruct (Z.ltb_spec n (len (bytes_of_bits bits) * 8)); [done|lia].
Qed.

Lemma repack_bits_witness :
  PadInputsToBoolArray eightWire [[5]]
  = Done (Some [true; false; true; false; false; false; false; false]).
Proof.
  refine (proj1 (repack_bits eightWire
                   [true; false; true; false; false; false; false; false]
                   [5] _ _ _ _ _) _).
  - reflexivity.
  - reflexivity.
  - reflexivity.
  - vm_compute. split; [discriminate|reflexivity].
  - reflexivity.
  - reflexivity.
Defined.

Lemma decodeVars_spec circ outWires :
  Int.in_range (len outWires + 7) ->
  forall ws2 ws1 done cur,
    NumWiresOV circ = ws1 ++ ws2 -> Forall (fun w => 0 <= w) ws2 ->
    0 <= cur -> cur + sumZ ws2 <= len outWires ->
    length done = length ws1 ->
    decodeVars circ outWires (seqZ (len ws1) (len ws2))
               (done ++ replicate (length ws2) []) cur
    = Done (done ++ (bytes_of_bits
                       <$> split_wires ws2 (drop (Z.to_nat cur) outWires))).
Proof.
  intros Hrange. unfold Int.in_range, Int.half in Hrange.
  induction ws2 as [|w ws2 IH]; intros ws1 done cur Hws Hpos Hcur Hsum Hdone.
  - cbn. done.
  - apply Forall_cons in Hpos as [Hw Hpos].
    pose proof (sumZ_nonneg ws2 Hpos) as Hsum0.
    cbn [sumZ foldr] in Hsum. fold (sumZ ws2) in Hsum.
    replace (len (w :: ws2)) with (Z.succ (len ws2))
      by (unfold len; cbn [length]; lia).
    rewrite seqZ_cons by (unfold len; lia).
    cbn [decodeVars].
    rewrite (index_Done _ _ _ w);
      [|unfold len; lia|
       rewrite Hws; unfold len; rewrite Nat2Z.id;
       by rewrite lookup_app_r, Nat.sub_diag by lia].
    cbn [mbind outcome_bind].
    rewrite add_small by (unfold Int.in_range, Int.half; lia).
    unfold subslice. rewrite decide_True by lia. cbn [mbind outcome_bind].
    replace (cur + w - cur) with w by lia.
    rewrite boolArrayToBytes_run.
    2:{ unfold Int.in_range, Int.half, len in *.
        rewrite length_take, length_drop. lia. }
    cbn [mbind outcome_bind].
    rewrite store_Done.
    2:{ unfold len. rewrite length_app, length_replicate. cbn [length]. lia. }
    cbn [mbind outcome_bind].
    replace (Z.to_nat (len ws1)) with (length done) by (unfold len; lia).
    cbn [length replicate].
    rewrite insert_app_r_alt, Nat.sub_diag by done. cbn [insert list_insert].
    rewrite (cons_middle _ done), app_assoc.
    replace (Z.succ (len ws1)) with (len (ws1 ++ [w]))
      by (unfold len; rewrite length_app; cbn [length]; lia).
    replace (Z.pred (Z.succ (len ws2))) with (len ws2) by lia.
    rewrite (IH (ws1 ++ [w])).
    + rewrite <- app_assoc. cbn [app split_wires fmap list_fmap].
      do 4 f_equal. rewrite drop_drop. do 2 f_equal. lia.
    + by rewrite Hws, <- app_assoc.
    + done.
    + lia.
    + lia.
    + rewrite !length_app. cbn [length]. lia.
Qed.

(** X12: [DecodeOutputVariables] on a circuit that lists one non-negative
    wire count per output variable, the counts summing to no more than
    [NumOutputWires]: a wire vector of any other length than
    [NumOutputWires] gives [nil]; otherwise the result has one buffer per
    output variable, in order, the buffer of a variable being the
    [ceil(w/8)] bytes of its [w] wires, which follow the wires of the
    variables before it. *)
Theorem DecodeOutputVariables_spec circ outWires :
  NumOutputVars circ = len (NumWiresOV circ) ->
  Forall (fun w => 0 <= w) (NumWiresOV circ) ->
  sumZ (NumWiresOV circ) <= NumOutputWires circ ->
  Int.in_range (NumOutputWires circ + 7) ->
  (len outWires <> NumOutputWires circ ->
     DecodeOutputVariables circ outWires = Done None) /\
  (len outWires = NumOutputWires circ ->
     DecodeOutputVariables circ outWires
     = Done (Some (bytes_of_bits <$> split_wires (NumWiresOV circ) outWires))).
Proof.
  intros Hvars Hpos Hsum Hrange. unfold DecodeOutputVariables. split.
  - intros Hne. rewrite decide_True; [done|]. intros E. by rewrite E in Hne.
  - intros Hlen. rewrite decide_False by (intros E; by rewrite Hlen in E).
    unfold make. rewrite decide_True by (rewrite Hvars; unfold len; lia).
    cbn [mbind outcome_bind]. rewrite Hvars.
    unfold len at 2. rewrite Nat2Z.id.
    pose proof (decodeVars_spec circ outWires) as Hloop.
    rewrite Hlen in Hloop.
    specialize (Hloop Hrange (NumWiresOV circ) [] [] 0 eq_refl Hpos
                  ltac:(done) ltac:(lia) eq_refl).
    cbn [app] in Hloop. change (len []) with 0 in Hloop.
    rewrite Hloop. done.
Qed.

Lemma DecodeOutputVariables_spec_witness :
  DecodeOutputVariables identity8
    [true; false; true; false; false; false; false; false]
  = Done (Some [[5]]).
Proof.
  refine (proj2 (DecodeOutputVariables_spec identity8
                   [true; false; true; false; false; false; false; false]
                   _ _ _ _) _).
  - reflexivity.
  - apply Forall_singleton. vm_compute. discriminate.
  - vm_compute. discriminate.
  - vm_compute. split; [discriminate|reflexivity].
  - reflexivity.
Defined.

Lemma setBits_not_fuel input : forall i result, setBits input i result <> OutOfFuel.
Proof.
  induction input as [|b input IH]; intros i result; [done|].
  cbn [setBits]. destruct b.
  - destruct (index SBytes result _) as [old| |] eqn:E; cbn; [|done|].
    + destruct (store SBytes result _ _) as [r| |] eqn:E'; cbn; [apply IH|done|].
      by apply store_not_fuel in E'.
    + by apply index_not_fuel in E.
  - cbn. apply IH.
Qed.

Lemma boolArrayToBytes_not_fuel input : boolArrayToBytes input <> OutOfFuel.
Proof.
  unfold boolArrayToBytes, make. case_decide; [|done]. cbn.
  apply setBits_not_fuel.
Qed.

Lemma decodeVars_missing circ outWires (k : nat) :
  forall i result cur,
    0 <= i <= len (NumWiresOV circ) ->
    len (NumWiresOV circ) < i + Z.of_nat k ->
    exists f, decodeVars circ outWires (seqZ i (Z.of_nat k)) result cur = Panic f.
Proof.
  induction k as [|k IH]; intros i result cur Hi Hk.
  - exfalso. unfold len in *. lia.
  - rewrite Nat2Z.inj_succ, seqZ_cons by lia. cbn [decodeVars].
    destruct (index SNumWiresOV (NumWiresOV circ) i) as [w|f|] eqn:Ew; cbn;
      [|by eexists|by apply index_not_fuel in Ew].
    apply index_inv in Ew as [_ Ew]. apply lookup_lt_Some in Ew.
    destruct (subslice SOutWires outWires cur (Int.add cur w))
      as [boolSlice|f|] eqn:Es; cbn; [|by eexists|].
    2:{ unfold subslice in Es. by case_decide. }
    destruct (boolArrayToBytes boolSlice) as [bytes|f|] eqn:Eb; cbn;
      [|by eexists|by apply boolArrayToBytes_not_fuel in Eb].
    destruct (store SResult result i bytes) as [result'|f|] eqn:Est; cbn;
      [|by eexists|by apply store_not_fuel in Est].
    rewrite Z.pred_succ. apply IH; unfold len in *; lia.
Qed.

(** X13: when the circuit declares more output variables than it lists wire
    counts, [DecodeOutputVariables] never returns on a wire vector of the
    expected length: it stops on an index or slice bound. *)
Theorem DecodeOutputVariables_missing_width circ outWires :
  len outWires = NumOutputWires circ ->
  len (NumWiresOV circ) < NumOutputVars circ ->
  exists f, DecodeOutputVariables circ outWires = Panic f.
Proof.
  intros Hlen Hvars. unfold DecodeOutputVariables.
  rewrite decide_False by (intros E; by rewrite Hlen in E).
  unfold make. rewrite decide_True by (unfold len in Hvars; lia).
  cbn [mbind outcome_bind].
  destruct (decodeVars_missing circ outWires (Z.to_nat (NumOutputVars circ)) 0
              (replicate (Z.to_nat (NumOutputVars circ)) []) 0)
    as (f & Hf); [unfold len; lia|unfold len in *; lia|].
  rewrite Z2Nat.id in Hf by (unfold len in Hvars; lia).
  rewrite Hf. by eexists.
Qed.

Lemma DecodeOutputVariables_missing_width_witness :
  exists f, DecodeOutputVariables shortWidths [true] = Panic f.
Proof.
  apply (DecodeOutputVariables_missing_width shortWidths [true]).
  - reflexivity.
  - reflexivity.
Defined.

Lemma padBits_length buf js :
  forall result loc result' loc',
    padBits buf js result loc = Done (result', loc') ->
    length result' = length result.
Proof.
  induction js as [|j js IH]; intros result loc result' loc'; cbn [padBits].
  - by intros [= <- _].
  - destruct (if Z.quot j 8 <? len buf then bufBit buf j else mret false)
      as [bit| |]; cbn; [|done..].
    destruct (store SResult result loc bit) as [r| |] eqn:Est; cbn; [|done..].
    apply store_inv in Est as [_ ->]. intros H. apply IH in H.
    by rewrite length_insert in H.
Qed.

Lemma padBufs_length circ bufs :
  forall i result loc bits,
    padBufs circ bufs i result loc = Done (Some bits) ->
    length bits = length result.
Proof.
  induction bufs as [|buf bufs IH]; intros i result loc bits; cbn [padBufs].
  - by intros [= <-].
  - destruct (index SNumWiresIV (NumWiresIV circ) i) as [w| |]; cbn; [|done..].
    destruct (w <? Int.mul (len buf) 8); [done|].
    destruct (padBits buf (seqZ 0 w) result loc) as [[r l]| |] eqn:Eb; cbn;
      [|done..].
    apply padBits_length in Eb. intros H. apply IH in H. congruence.
Qed.

(** X14: a wire vector [PadInputsToBoolArray] returns has [NumInputWires]
    entries, so [EvaluateCircuit] never turns it down for its length; and a
    vector is returned only when there are no more buffers than input
    variables. *)
Theorem PadInputs_length circ inputBufs bits :
  PadInputsToBoolArray circ inputBufs = Done (Some bits) ->
  len bits = NumInputWires circ /\ len inputBufs <= NumInputVars circ.
Proof.
  unfold PadInputsToBoolArray, make. case_decide as Hn; [|done].
  cbn [mbind outcome_bind].
  destruct (Z.ltb_spec (NumInputVars circ) (len inputBufs)) as [|Hle]; [done|].
  intros Hrun. apply padBufs_length in Hrun.
  rewrite length_replicate in Hrun. unfold len in *. lia.
Qed.

Lemma PadInputs_length_witness :
  len [true; false; true; false; false; false; false; false]
  = NumInputWires eightWire /\
  len [[5]] <= NumInputVars eightWire.
Proof.
  apply (PadInputs_length eightWire [[5]]). reflexivity.
Defined.

Lemma padBits_overflow buf (k : nat) :
  forall j result loc,
    0 <= j -> 0 <= loc <= len result -> len result < loc + Z.of_nat k ->
    len result < 2 ^ 63 ->
    padBits buf (seqZ j (Z.of_nat k)) result loc
    = Panic (IndexOutOfRange SResult (len result)).
Proof.
  induction k as [|k IH]; intros j result loc Hj Hloc Hk Hmax; [lia|].
  rewrite Nat2Z.inj_succ, seqZ_cons by lia. cbn [padBits].
  rewrite padBit_spec by done. cbn [mbind outcome_bind].
  destruct (decide (loc = len result)) as [->|Hne].
  - unfold store. rewrite decide_False by lia. done.
  - rewrite store_Done by lia. cbn [mbind outcome_bind].
    rewrite add_small by (unfold Int.in_range, Int.half; lia).
    rewrite Z.pred_succ.
    assert (len (<[Z.to_nat loc := spec_bit buf j]> result) = len result) as Hl
      by (unfold len; by rewrite length_insert).
    rewrite <- Hl. apply IH; rewrite ?Hl; lia.
Qed.

Lemma padBufs_overflow circ :
  forall bufs wires (i : nat) result loc,
    (forall k, wires !! k = NumWiresIV circ !! (i + k)%nat) ->
    (length bufs <= length wires)%nat ->
    Forall (fun w => 0 <= w) wires ->
    Forall (fun b => Int.in_range (8 * len b)) bufs ->
    spec_fits wires bufs ->
    0 <= loc <= len result ->
    len result < loc + sumZ (take (length bufs) wires) ->
    len result < 2 ^ 63 ->
    padBufs circ bufs (Z.of_nat i) result loc
    = Panic (IndexOutOfRange SResult (len result)).
Proof.
  induction bufs as [|buf bufs IH];
    intros wires i result loc Hw Hlen Hpos Hfeas Hfits Hloc Hover Hmax.
  - exfalso. unfold len in *. cbn [length] in Hover.
    rewrite take_0 in Hover. cbn in Hover. lia.
  - destruct wires as [|w wires]; [cbn in Hlen; lia|].
    cbn [padBufs].
    assert (NumWiresIV circ !! i = Some w) as Hiw.
    { pose proof (Hw 0%nat) as H0. rewrite Nat.add_0_r in H0. by rewrite <- H0. }
    rewrite (index_Done _ _ _ w) by (lia || by rewrite Nat2Z.id).
    cbn [mbind outcome_bind].
    apply Forall_cons in Hpos as [Hw0 Hpos].
    apply Forall_cons in Hfeas as [Hb0 Hfeas].
    rewrite Z.mul_comm in Hb0. rewrite mul_small by done.
    cbn [length take sumZ foldr] in Hover.
    fold (sumZ (take (length bufs) wires)) in Hover.
    apply spec_fits_cons in Hfits as [Hfit Hfits].
    destruct (Z.ltb_spec w (len buf * 8)) as [Hbig|Hok]; [lia|].
    destruct (decide (len result < loc + w)) as [Hnow|Hlater].
    + rewrite <- (Z2Nat.id w) by done.
      rewrite padBits_overflow by lia. done.
    + rewrite padBits_spec_Z by lia. cbn [mbind outcome_bind].
      pose proof (splice_facts result (spec_var_bits buf w) (Z.to_nat loc))
        as Hsp.
      rewrite length_spec_var_bits in Hsp.
      destruct Hsp as (Hl' & _ & _); [unfold len in *; lia|].
      set (result' := take (Z.to_nat loc) result ++ spec_var_bits buf w
                        ++ drop (Z.to_nat loc + Z.to_nat w) result) in *.
      assert (len result' = len result) as Hl by (unfold len; by rewrite Hl').
      replace (Z.of_nat i + 1) with (Z.of_nat (S i)) by lia.
      rewrite <- Hl. apply (IH wires); rewrite ?Hl; try done; try lia.
      * intros k. replace (S i + k)%nat with (i + S k)%nat by lia.
        apply (Hw (S k)).
      * cbn in Hlen. lia.
Qed.

(** X15: when every buffer fits its variable, but the variables the buffers
    are given for have more wires between them than the circuit has input
    wires, [PadInputsToBoolArray] stops on the store just past the end of
    the result vector. *)
Theorem PadInputs_overflow circ inputBufs :
  0 <= NumInputWires circ < 2 ^ 63 ->
  len inputBufs <= NumInputVars circ ->
  len inputBufs <= len (NumWiresIV circ) ->
  Forall (fun w => 0 <= w) (NumWiresIV circ) ->
  Forall (fun b => Int.in_range (8 * len b)) inputBufs ->
  spec_fits (NumWiresIV circ) inputBufs ->
  NumInputWires circ < sumZ (take (length inputBufs) (NumWiresIV circ)) ->
  PadInputsToBoolArray circ inputBufs
  = Panic (IndexOutOfRange SResult (NumInputWires circ)).
Proof.
  intros Hn Hvars Hws Hpos Hfeas Hfits Hover.
  unfold PadInputsToBoolArray, make.
  rewrite decide_True by lia. cbn [mbind outcome_bind].
  destruct (Z.ltb_spec (NumInputVars circ) (len inputBufs)); [lia|].
  assert (len (replicate (Z.to_nat (NumInputWires circ)) false)
          = NumInputWires circ) as Hl
    by (unfold len; rewrite length_replicate; lia).
  rewrite <- Hl at 2.
  apply (padBufs_overflow circ inputBufs (NumWiresIV circ) 0%nat);
    rewrite ?Hl; try done; unfold len in *; lia.
Qed.

Lemma PadInputs_overflow_witness :
  PadInputsToBoolArray wideVar [[5]] = Panic (IndexOutOfRange SResult 1).
Proof.
  apply (PadInputs_overflow wideVar [[5]]).
  - vm_compute. split; [discriminate|reflexivity].
  - vm_compute. discriminate.
  - vm_compute. discriminate.
  - apply Forall_singleton. vm_compute. discriminate.
  - apply Forall_singleton. vm_compute. split; [discriminate|reflexivity].
  - intros [|i] b w Hb Hw; [|done]. cbn in Hb, Hw. simplify_eq.
    vm_compute. discriminate.
  - reflexivity.
Defined.

(** ** Bits of an [int64] *)

Lemma wrap_range z : Int.in_range (Int.wrap z).
Proof.
  unfold Int.in_range, Int.wrap, Int.modulus, Int.half.
  pose proof (Z.mod_pos_bound (z + 2 ^ 63) (2 ^ 64) ltac:(lia)). lia.
Qed.

Lemma wrap_mod z : Int.wrap z mod 2 ^ 64 = z mod 2 ^ 64.
Proof.
  unfold Int.wrap, Int.modulus, Int.half.
  rewrite Zminus_mod_idemp_l. f_equal. lia.
Qed.

Lemma wrap_eqm a b : a mod 2 ^ 64 = b mod 2 ^ 64 -> Int.wrap a = Int.wrap b.
Proof.
  intros H. unfold Int.wrap, Int.modulus, Int.half. f_equal.
  rewrite <- (Zplus_mod_idemp_l a), <- (Zplus_mod_idemp_l b). by rewrite H.
Qed.

Lemma shl1_low i : 0 <= i < 63 -> shl1 i = 2 ^ i.
Proof.
  intros Hi. unfold shl1. rewrite Z.shiftl_1_l. apply wrap_small.
  unfold Int.in_range, Int.half.
  pose proof (Z.pow_pos_nonneg 2 i ltac:(lia) ltac:(lia)).
  assert (2 ^ i < 2 ^ 63) by (apply Z.pow_lt_mono_r; lia). lia.
Qed.

Lemma shl1_sign : shl1 63 = - 2 ^ 63.
Proof. reflexivity. Qed.

Lemma shl1_high i : 64 <= i -> shl1 i = 0.
Proof.
  intros Hi. unfold shl1. rewrite Z.shiftl_1_l.
  replace i with (64 + (i - 64)) by lia.
  rewrite Z.pow_add_r by lia.
  transitivity (Int.wrap 0); [apply wrap_eqm|reflexivity].
  rewrite Z.mul_comm, Z.mod_mul by lia. done.
Qed.

Lemma shl1_mod i : 0 <= i -> shl1 i mod 2 ^ 64 = 2 ^ i mod 2 ^ 64.
Proof. intros Hi. unfold shl1. by rewrite wrap_mod, Z.shiftl_1_l. Qed.

(** The test [input & (1 << i) != 0] reads bit [i] of the two's-complement
    representation. *)
Lemma bit_test x i :
  Int.in_range x -> 0 <= i < 64 ->
  negb (Z.land x (shl1 i) =? 0) = Z.testbit x i.
Proof.
  intros Hx Hi. destruct (decide (i = 63)) as [->|Hne].
  - rewrite shl1_sign.
    change (- 2 ^ 63) with (Z.lnot (Z.ones 63)).
    rewrite <- Z.ldiff_land, Z.ldiff_ones_r by lia.
    rewrite Z.testbit_odd, Z.shiftr_div_pow2, Z.shiftl_mul_pow2 by lia.
    unfold Int.in_range, Int.half in Hx.
    assert (x / 2 ^ 63 = 0 \/ x / 2 ^ 63 = -1) as [->| ->]; [|done..].
    destruct (decide (0 <= x)).
    + left. apply Z.div_small. lia.
    + right. symmetry. apply (Z.div_unique x (2 ^ 63) (-1) (x + 2 ^ 63)); lia.
  - unfold shl1. rewrite wrap_small.
    + apply land_bit. lia.
    + rewrite Z.shiftl_1_l. unfold Int.in_range, Int.half.
      pose proof (Z.pow_pos_nonneg 2 i ltac:(lia) ltac:(lia)).
      assert (2 ^ i < 2 ^ 63) by (apply Z.pow_lt_mono_r; lia). lia.
Qed.

Lemma toBits_spec input (k : nat) :
  forall result,
    (k <= length result)%nat ->
    toBits input (reverse (seqZ 0 (Z.of_nat k))) result
    = Done (((fun i => negb (Z.land input (shl1 i) =? 0))
               <$> seqZ 0 (Z.of_nat k)) ++ drop k result).
Proof.
  induction k as [|k IH]; intros result Hk.
  - cbn. by rewrite drop_0.
  - rewrite seqZ_S, reverse_snoc.
    rewrite Z.add_0_l. cbn [toBits].
    rewrite store_Done by (unfold len; lia). cbn [mbind outcome_bind].
    rewrite IH by (rewrite length_insert; lia).
    rewrite fmap_app, <- app_assoc. do 2 f_equal. cbn [fmap list_fmap app].
    rewrite Nat2Z.id.
    assert (is_Some (result !! k)) as [old Hold]
      by (apply lookup_lt_is_Some; lia).
    rewrite (drop_S (<[k := _]> result) (negb (Z.land input (shl1 (Z.of_nat k)) =? 0)) k).
    + by rewrite drop_insert_lt by lia.
    + apply list_lookup_insert_eq. lia.
Qed.

Lemma int64toBoolArray_run x :
  Int.in_range x -> int64toBoolArray x = Done (bits64 x).
Proof.
  intros Hx. unfold int64toBoolArray.
  change (make false 64) with (Done (replicate 64 false)).
  cbn [mbind outcome_bind].
  rewrite (toBits_spec x 64) by (rewrite length_replicate; lia).
  rewrite drop_replicate. change (64 - 64)%nat with 0%nat.
  cbn [replicate]. rewrite app_nil_r. f_equal. unfold bits64.
  apply list_eq. intros d. rewrite !list_lookup_fmap.
  change (Z.of_nat 64) with 64.
  destruct (seqZ 0 64 !! d) as [i|] eqn:Ei; [|done].
  apply lookup_seqZ in Ei as [-> Hd]. cbn. f_equal.
  apply bit_test; [done|lia].
Qed.

Lemma length_bits64 x : length (bits64 x) = 64%nat.
Proof. unfold bits64. by rewrite length_fmap, length_seqZ. Qed.

Lemma le_value_app l1 l2 :
  le_value (l1 ++ l2) = le_value l1 + 2 ^ len l1 * le_value l2.
Proof.
  induction l1 as [|b l1 IH]; [cbn; unfold len; cbn; lia|].
  cbn [app le_value]. rewrite IH. unfold len. cbn [length].
  rewrite Nat2Z.inj_succ, Z.pow_succ_r by lia. lia.
Qed.

Lemma le_value_testbits x (n : nat) :
  le_value (Z.testbit x <$> seqZ 0 (Z.of_nat n)) = x mod 2 ^ Z.of_nat n.
Proof.
  induction n as [|n IH]; [cbn; by rewrite Z.mod_1_r|].
  rewrite seqZ_S, fmap_app, le_value_app.
  rewrite IH. unfold len. rewrite length_fmap, length_seqZ, Nat2Z.id.
  cbn [fmap list_fmap le_value]. rewrite Z.add_0_l.
  rewrite Nat2Z.inj_succ, <- Z.add_1_r, mod_pow2_succ by lia. lia.
Qed.

Lemma sumBits_range bits :
  forall i acc, Int.in_range acc -> Int.in_range (sumBits bits i acc).
Proof.
  induction bits as [|b bits IH]; intros i acc Hacc; [done|].
  cbn [sumBits]. apply IH. destruct b; [apply wrap_range|done].
Qed.

Lemma sumBits_mod bits :
  forall i acc, 0 <= i ->
    sumBits bits i acc mod 2 ^ 64 = (acc + 2 ^ i * le_value bits) mod 2 ^ 64.
Proof.
  induction bits as [|b bits IH]; intros i acc Hi.
  - cbn. f_equal. lia.
  - cbn [sumBits le_value]. rewrite IH by lia.
    rewrite Z.pow_add_r, Z.pow_1_r by lia. destruct b; cbn [Z.b2z].
    + rewrite <- Zplus_mod_idemp_l. unfold Int.add. rewrite wrap_mod.
      rewrite <- (Zplus_mod_idemp_r (shl1 i)), shl1_mod by done.
      rewrite Zplus_mod_idemp_r, Zplus_mod_idemp_l. f_equal. lia.
    + f_equal. lia.
Qed.

Lemma boolArrayToInt64_value bits :
  boolArrayToInt64 bits = Int.wrap (le_value bits).
Proof.
  unfold boolArrayToInt64.
  rewrite <- (wrap_small (sumBits bits 0 0)).
  - apply wrap_eqm. rewrite sumBits_mod by done. f_equal. lia.
  - apply sumBits_range. unfold Int.in_range, Int.half. lia.
Qed.

Lemma wrap_idem_mod x : Int.in_range x -> Int.wrap (x mod 2 ^ 64) = x.
Proof.
  intros Hx. rewrite <- (wrap_small x Hx) at 2. apply wrap_eqm.
  apply Z.mod_mod. lia.
Qed.

Lemma boolArrayToInt64_bits64 x :
  Int.in_range x -> boolArrayToInt64 (bits64 x) = x.
Proof.
  intros Hx. rewrite boolArrayToInt64_value. unfold bits64.
  change 64 with (Z.of_nat 64) at 1. rewrite le_value_testbits.
  by apply wrap_idem_mod.
Qed.

(** X16: [int64toBoolArray] never fails: it returns 64 bits, bit [i] being
    bit [i] of the two's-complement representation of the integer, sign bit
    last; [boolArrayToInt64] gives the integer back from them. *)
Theorem int64_roundtrip x :
  Int.in_range x ->
  exists bits,
    int64toBoolArray x = Done bits /\ len bits = 64 /\
    (forall i, 0 <= i < 64 -> bits !! Z.to_nat i = Some (Z.testbit x i)) /\
    boolArrayToInt64 bits = x.
Proof.
  intros Hx. exists (bits64 x). split; [by apply int64toBoolArray_run|].
  split; [unfold len; by rewrite length_bits64|].
  split; [|by apply boolArrayToInt64_bits64].
  intros i Hi. unfold bits64. rewrite list_lookup_fmap.
  rewrite lookup_seqZ_lt by lia. cbn. f_equal. f_equal. lia.
Qed.

Lemma int64_roundtrip_witness :
  exists bits,
    int64toBoolArray (-3) = Done bits /\ len bits = 64 /\
    (forall i, 0 <= i < 64 -> bits !! Z.to_nat i = Some (Z.testbit (-3) i)) /\
    boolArrayToInt64 bits = -3.
Proof.
  apply (int64_roundtrip (-3)). vm_compute. split; [discriminate|reflexivity].
Defined.

(** X17: [boolArrayToInt64] returns the [int64] whose two's-complement bits
    are the first 64 entries of its argument (zero bits where the argument
    is shorter); entries from the 65th on do not change the result. *)
Theorem boolArrayToInt64_low64 bits :
  Int.in_range (boolArrayToInt64 bits) /\
  boolArrayToInt64 bits = boolArrayToInt64 (take 64 bits) /\
  forall i, 0 <= i < 64 ->
    Z.testbit (boolArrayToInt64 bits) i = default false (bits !! Z.to_nat i).
Proof.
  split; [rewrite boolArrayToInt64_value; apply wrap_range|].
  assert (forall i, 0 <= i < 64 ->
    Z.testbit (boolArrayToInt64 bits) i = default false (bits !! Z.to_nat i))
    as Hbits.
  { intros i Hi. rewrite boolArrayToInt64_value.
    rewrite <- (Z.mod_pow2_bits_low (Int.wrap _) 64) by lia.
    rewrite wrap_mod, Z.mod_pow2_bits_low by lia.
    rewrite <- (Z2Nat.id i) at 1 by lia. apply le_value_testbit. }
  split; [|done].
  rewrite !boolArrayToInt64_value. apply wrap_eqm.
  rewrite <- (take_drop 64 bits) at 1. rewrite le_value_app.
  destruct (decide (length bits < 64)%nat) as [Hshort|Hlong].
  - rewrite drop_ge by lia. cbn [le_value]. f_equal. lia.
  - assert (len (take 64 bits) = 64) as ->
      by (unfold len; rewrite length_take; lia).
    rewrite (Z.mul_comm (2 ^ 64)), Z.mod_add by lia. done.
Qed.

(** X18: 64 bits turned into an [int64] by [boolArrayToInt64] and back by
    [int64toBoolArray] are the bits one started from. *)
Theorem bits_roundtrip bits :
  len bits = 64 ->
  int64toBoolArray (boolArrayToInt64 bits) = Done bits.
Proof.
  intros Hlen.
  rewrite int64toBoolArray_run
    by (rewrite boolArrayToInt64_value; apply wrap_range).
  f_equal. apply list_eq. intros d. unfold bits64.
  rewrite list_lookup_fmap.
  destruct (decide (d < 64)%nat) as [Hd|Hd].
  - rewrite lookup_seqZ_lt by lia. cbn. rewrite Z.add_0_l.
    rewrite boolArrayToInt64_value.
    rewrite <- (Z.mod_pow2_bits_low (Int.wrap _) 64) by lia.
    rewrite wrap_mod, Z.mod_pow2_bits_low by lia.
    rewrite le_value_testbit.
    assert (is_Some (bits !! d)) as [b ->]
      by (apply lookup_lt_is_Some; unfold len in Hlen; lia).
    done.
  - rewrite lookup_seqZ_ge by lia. symmetry. apply lookup_ge_None.
    unfold len in Hlen. lia.
Qed.

Lemma bits_roundtrip_witness :
  int64toBoolArray (boolArrayToInt64 (replicate 64 true))
  = Done (replicate 64 true).
Proof. apply (bits_roundtrip (replicate 64 true)). reflexivity. Defined.

Lemma appendBits_spec xs :
  forall result,
    Forall Int.in_range xs ->
    appendBits xs result = Done (result ++ concat (bits64 <$> xs)).
Proof.
  induction xs as [|x xs IH]; intros result Hxs; cbn [appendBits].
  - cbn. by rewrite app_nil_r.
  - apply Forall_cons in Hxs as [Hx Hxs].
    rewrite int64toBoolArray_run by done. cbn [mbind outcome_bind].
    rewrite IH by done. cbn [fmap list_fmap concat]. by rewrite <- app_assoc.
Qed.

Lemma chunk64 xs : forall (k : nat) x,
  xs !! k = Some x ->
  take 64 (drop (64 * k) (concat (bits64 <$> xs))) = bits64 x.
Proof.
  induction xs as [|y xs IH]; intros k x Hk; [done|].
  cbn [fmap list_fmap concat]. destruct k as [|k].
  - injection Hk as ->. rewrite Nat.mul_0_r, drop_0.
    rewrite take_app_length' by (by rewrite length_bits64). done.
  - replace (64 * S k)%nat with (length (bits64 y) + 64 * k)%nat
      by (rewrite length_bits64; lia).
    rewrite drop_app_add'; [|done]. by apply IH.
Qed.

(** X19: [int64ArraytoBoolArray] never fails: it returns 64 bits per
    integer, in the order of the integers, and [boolArrayToInt64] gives
    integer [k] back from the [k]-th group of 64. *)
Theorem int64Array_roundtrip xs :
  Forall Int.in_range xs ->
  exists bits,
    int64ArraytoBoolArray xs = Done bits /\
    len bits = 64 * len xs /\
    forall (k : nat) x, xs !! k = Some x ->
      boolArrayToInt64 (take 64 (drop (64 * k) bits)) = x.
Proof.
  intros Hxs. exists (concat (bits64 <$> xs)).
  split; [unfold int64ArraytoBoolArray; by rewrite appendBits_spec|].
  split.
  - unfold len. clear Hxs. induction xs as [|x xs IH]; [done|].
    cbn [fmap list_fmap concat length]. rewrite length_app, length_bits64.
    lia.
  - intros k x Hk. rewrite (chunk64 xs k x Hk).
    apply boolArrayToInt64_bits64.
    rewrite Forall_forall in Hxs. apply Hxs. by eapply list_elem_of_lookup_2.
Qed.

Lemma int64Array_roundtrip_witness :
  exists bits,
    int64ArraytoBoolArray [5; -1] = Done bits /\
    len bits = 64 * len [5; -1] /\
    forall (k : nat) x, [5; -1] !! k = Some x ->
      boolArrayToInt64 (take 64 (drop (64 * k) bits)) = x.
Proof.
  apply (int64Array_roundtrip [5; -1]).
  repeat (apply Forall_cons; split); [| |apply Forall_nil_2];
    vm_compute; (split; [discriminate|reflexivity]).
Defined.

(** ** Evaluator: a structural condition for success *)

Lemma Grounded_denotes circ inputs g :
  Grounded circ g ->
  (forall h, rtc (edge circ) g h -> evaluable circ (len inputs) h) ->
  exists b, denotes circ inputs g b.
Proof.
  induction 1 as [g _ IH]. intros Hall.
  destruct (Hall g (rtc_refl _ _)) as (gate & Hg & Hgate & Hkind).
  assert (forall p, p ∈ InFrom gate -> GateType gate <> GateINPUT ->
            exists a, denotes circ inputs p a) as Hpred.
  { intros p Hp Hne.
    assert (edge circ g p) as Hedge by (by exists gate).
    apply (IH p Hedge). intros h Hh. apply Hall. by eapply rtc_l. }
  destruct Hkind as [[Hty Hlt]|[[Hty Hn]|[Hty Hn]]].
  - assert (is_Some (inputs !! Z.to_nat g)) as [b Hb]
      by (apply lookup_lt_is_Some; unfold len in Hlt; lia).
    exists b. by eapply denotes_input.
  - destruct (InFrom gate) as [|p [|q l]] eqn:Hin;
      try (unfold len in Hn; cbn in Hn; lia).
    destruct (Hpred p) as [a Ha]; [apply list_elem_of_here| |].
    { unfold GateINPUT, GateOUTPUT, GateCOPY, GateNOT in *. lia. }
    assert (is_Some (unary_fun (GateType gate) a)) as [b Hb].
    { unfold unary_fun. repeat case_decide; try done.
      exfalso. destruct_or!; tauto. }
    exists b. by eapply denotes_unary.
  - destruct (InFrom gate) as [|p [|q [|r l]]] eqn:Hin;
      try (unfold len in Hn; cbn in Hn; lia).
    assert (GateType gate <> GateINPUT) as Hne.
    { unfold GateINPUT, GateAND, GateOR, GateXOR in *. lia. }
    destruct (Hpred p) as [a Ha]; [apply list_elem_of_here|done|].
    destruct (Hpred q) as [b Hb];
      [apply list_elem_of_further, list_elem_of_here|done|].
    assert (is_Some (binary_fun (GateType gate) a b)) as [c Hc].
    { unfold binary_fun. repeat case_decide; try done.
      exfalso. destruct_or!; tauto. }
    exists c. by eapply denotes_binary.
Qed.

Lemma denotes_outputs circ inputs (n : nat) :
  (forall o, 0 <= o < Z.of_nat n ->
     exists b, denotes circ inputs (getOutputGate circ o) b) ->
  exists outs, length outs = n /\
    forall i b, outs !! i = Some b ->
      denotes circ inputs (getOutputGate circ (Z.of_nat i)) b.
Proof.
  induction n as [|n IH]; intros Hall.
  - exists []. split; [done|]. intros i b Hb. done.
  - destruct IH as (outs & Hlen & Houts); [intros o Ho; apply Hall; lia|].
    destruct (Hall (Z.of_nat n) ltac:(lia)) as [b Hb].
    exists (outs ++ [b]). split; [rewrite length_app; cbn; lia|].
    intros i c Hc. apply lookup_app_Some in Hc as [Hc|[Hge Hc]]; [eauto|].
    rewrite Hlen in Hge, Hc.
    destruct (i - n)%nat as [|d] eqn:Ed; [|done].
    injection Hc as <-. replace i with n by lia. done.
Qed.

(** X20: a structural condition under which evaluation succeeds.  When
    the input vector has [NumInputWires] entries, there is at least one
    output wire, and from the gate of every output wire no reference cycle
    can be reached and every gate that can be reached is an [Input] gate
    of an input wire, or an [Output], [Copy] or [Not] gate with one
    predecessor, or an [And], [Or] or [Xor] gate with two, then
    [EvaluateCircuit] returns success with [NumOutputWires] output bits. *)
Theorem EvaluateCircuit_succeeds circ inputBits :
  len inputBits = NumInputWires circ -> 1 <= NumOutputWires circ ->
  (forall o, 0 <= o < NumOutputWires circ ->
     Grounded circ (getOutputGate circ o) /\
     forall h, rtc (edge circ) (getOutputGate circ o) h ->
               evaluable circ (NumInputWires circ) h) ->
  exists outs,
    EvaluateCircuit circ inputBits = Done (true, Some outs) /\
    len outs = NumOutputWires circ.
Proof.
  intros Hlen Hout Hall.
  destruct (denotes_outputs circ inputBits (Z.to_nat (NumOutputWires circ)))
    as (outs & Hl & Houts).
  { intros o Ho. destruct (Hall o ltac:(lia)) as [Hg Hreach].
    apply Grounded_denotes; [done|]. by rewrite Hlen. }
  exists outs. split; [|unfold len; lia].
  unfold EvaluateCircuit.
  rewrite decide_False by lia. unfold make. rewrite decide_True by lia.
  cbn [mbind outcome_bind].
  destruct (scratch_fresh circ inputBits (length (Gates circ)) eq_refl)
    as [Hsz Hmemo].
  rewrite <- (Z2Nat.id (NumOutputWires circ)) at 1 by lia.
  apply (evaluateOutputs_complete circ inputBits outs Houts); try done.
  - unfold len. lia.
  - unfold len in *. rewrite length_replicate. lia.
Qed.

Lemma nand_edge g p :
  edge nand g p ->
  (g = 2 /\ p = 4) \/ (g = 3 /\ (p = 0 \/ p = 1)) \/ (g = 4 /\ p = 3).
Proof.
  intros (gate & Hg & Hgate & Hkind & Hp).
  apply lookup_lt_Some in Hgate as Hlt. unfold nand in Hlt. cbn in Hlt.
  assert (g = 0 \/ g = 1 \/ g = 2 \/ g = 3 \/ g = 4) as Hcases by lia.
  destruct_or!; subst g; cbn in Hgate; injection Hgate as <-;
    cbn in Hkind, Hp; try done;
    rewrite ?elem_of_cons, elem_of_nil in Hp; lia.
Defined.

Lemma nand_reach g h : rtc (edge nand) g h -> 0 <= g <= 4 -> 0 <= h <= 4.
Proof.
  induction 1 as [|g p h Hedge _ IH]; [done|].
  intros _. apply IH. apply nand_edge in Hedge. lia.
Defined.

Lemma EvaluateCircuit_succeeds_witness :
  exists outs,
    EvaluateCircuit nand [true; true] = Done (true, Some outs) /\
    len outs = NumOutputWires nand.
Proof.
  apply (EvaluateCircuit_succeeds nand [true; true]).
  - reflexivity.
  - vm_compute. discriminate.
  - intros o Ho. change (NumOutputWires nand) with 1 in Ho.
    assert (o = 0) as -> by lia. change (getOutputGate nand 0) with 2.
    split.
    + apply (denotes_Grounded nand [true; true] 2 _ (nand_denotes true true)).
    + intros h Hh.
      pose proof (nand_reach 2 h Hh ltac:(lia)) as Hrange.
      assert (h = 0 \/ h = 1 \/ h = 2 \/ h = 3 \/ h = 4) as Hcases by lia.
      destruct_or!; subst h; eexists; (split; [lia|]);
        (split; [reflexivity|]); cbn.
      * left. split; [reflexivity|reflexivity].
      * left. split; [reflexivity|reflexivity].
      * right. left. split; [by left|reflexivity].
      * right. right. split; [by left|reflexivity].
      * right. left. split; [by right; right|reflexivity].
Defined.
